(** * GlitchText: a shallow embedding of the glitch-morph animation engine

    The engine of [glitch-text] (class [GlitchText], its configuration
    check [validateConfig], the presence-mask extraction, the fragment
    shader, and the frame / resize / teardown life cycle) is transcribed
    below, function by function, and the properties of the specification
    are stated and proved about the transcription, followed by further
    properties read off the code itself.  The layout arithmetic of the
    [generate-favicon] script is transcribed in module [Favicon].

    Number model.  A JavaScript [number] and a GLSL [float] that holds a
    finite value is an exact rational ([Q]); equality of numbers is [==].
    Rounding, infinities and NaN are outside this model, so every division
    the theorems rely on has a divisor that a hypothesis makes non-zero.
    Quantities that the source only ever uses as whole numbers (tile
    counts, canvas pixel extents, pixel indices, resource and timer ids)
    are [Z] or [nat].  Module [IEEE] redoes, with the operations of
    [SpecFloat], the computations whose outcome rounding or NaN decides:
    the timeline example in binary64 and binary32, a frame's advance of
    the elapsed time and the progress, the tile count along an axis, and
    the presence scan, whose pixel rectangle comes from a rounded
    quotient and a rounded product. *)

From Stdlib Require Import QArith Qround ZArith NArith List Lia Lqa Bool String.
From Stdlib Require Import SpecFloat.
Import ListNotations.
Open Scope Q_scope.

(* ================================================================== *)
(** * Numbers *)

Definition Qltb (x y : Q) : bool := negb (Qle_bool y x).
Definition Qleb (x y : Q) : bool := Qle_bool x y.

Definition Qgtb (x y : Q) : bool := Qltb y x.

Infix "<?" := Qltb (at level 70, no associativity) : Q_scope.
Infix ">?" := Qgtb (at level 70, no associativity) : Q_scope.
Infix "<=?" := Qleb (at level 70, no associativity) : Q_scope.

(** [Math.max], [Math.min], [Math.floor], [Math.ceil] on finite numbers. *)
Definition Math_max (x y : Q) : Q := if x <? y then y else x.
Definition Math_min (x y : Q) : Q := if y <? x then y else x.
Definition Math_floor (x : Q) : Z := Qfloor x.
Definition Math_ceil (x : Q) : Z := Qceiling x.

(** A half-open range of integers, [lo, lo+1, ..., hi-1]: the values a
    [for (let i = lo; i < hi; i++)] loop visits. *)
Definition zrange (lo hi : Z) : list Z :=
  map (fun i => (lo + Z.of_nat i)%Z) (seq 0 (Z.to_nat (hi - lo))).

(* ================================================================== *)
(** * Configuration *)

(** [{ x: number; y: number }] holding tile counts. *)
Record TileCount := { tcx : Z; tcy : Z }.

(** [{ x: number; y: number }] holding pixel dimensions. *)
Record Dim := { dx : Q; dy : Q }.

Record GlitchTextConfig := {
  textA : string;
  textB : string;
  textC : string;
  fontFamily : string;
  tiles : option TileCount;
  tileDimensions : option Dim;
  initialWaitDuration : Q;
  allTilesFlipDuration : Q;
  singleTileFlipDuration : Q;
  waitBetweenFlipsDuration : Q;
  finalWaitDuration : Q;
  invertThreshold : Q;
  resizeDebounceMs : Q
}.

(** [GlitchTextOptions]: the keys of [DEFAULTS] are optional.  For an
    optional key [None] is a property that the caller left out.  For
    [tileDimensions] the caller can also pass the property with the value
    [undefined], which the object spread copies over the default:
    [Some None]. *)
Record GlitchTextOptions := {
  o_textA : string;
  o_textB : string;
  o_textC : string;
  o_tiles : option TileCount;
  o_fontFamily : option string;
  o_tileDimensions : option (option Dim);
  o_initialWaitDuration : option Q;
  o_allTilesFlipDuration : option Q;
  o_singleTileFlipDuration : option Q;
  o_waitBetweenFlipsDuration : option Q;
  o_finalWaitDuration : option Q;
  o_invertThreshold : option Q;
  o_resizeDebounceMs : option Q
}.

Module DEFAULTS.
Definition fontFamily : string := "Cormorant Garamond".
Definition tileDimensions : Dim := {| dx := 8; dy := 8 |}.
Definition initialWaitDuration : Q := 0.2.
Definition allTilesFlipDuration : Q := 0.5.
Definition singleTileFlipDuration : Q := 0.1.
Definition waitBetweenFlipsDuration : Q := 0.3.
Definition finalWaitDuration : Q := 0.2.
Definition invertThreshold : Q := 0.0.
Definition resizeDebounceMs : Q := 100.
End DEFAULTS.

(** One key of [{ ...DEFAULTS, ...options }]: the option's own property
    wins whenever it is present. *)
Definition spread {A} (dflt : A) (own : option A) : A :=
  match own with
  | Some v => v
  | None => dflt
  end.

(** [{ ...DEFAULTS, ...options }] *)
Definition mergeOptions (options : GlitchTextOptions) : GlitchTextConfig :=
  {| textA := o_textA options;
     textB := o_textB options;
     textC := o_textC options;
     fontFamily := spread DEFAULTS.fontFamily (o_fontFamily options);
     tiles := o_tiles options;
     tileDimensions :=
       spread (Some DEFAULTS.tileDimensions) (o_tileDimensions options);
     initialWaitDuration :=
       spread DEFAULTS.initialWaitDuration (o_initialWaitDuration options);
     allTilesFlipDuration :=
       spread DEFAULTS.allTilesFlipDuration (o_allTilesFlipDuration options);
     singleTileFlipDuration :=
       spread DEFAULTS.singleTileFlipDuration
              (o_singleTileFlipDuration options);
     waitBetweenFlipsDuration :=
       spread DEFAULTS.waitBetweenFlipsDuration
              (o_waitBetweenFlipsDuration options);
     finalWaitDuration :=
       spread DEFAULTS.finalWaitDuration (o_finalWaitDuration options);
     invertThreshold :=
       spread DEFAULTS.invertThreshold (o_invertThreshold options);
     resizeDebounceMs :=
       spread DEFAULTS.resizeDebounceMs (o_resizeDebounceMs options) |}.

(** The seven [throw new Error(...)] of [validateConfig], in source order. *)
Inductive ConfigError :=
| SingleTileFlipExceedsAllTilesFlip
| AllTilesFlipNotPositive
| SingleTileFlipNotPositive
| InvertThresholdOutOfRange
| TilesBelowOne
| TileDimensionsNotPositive
| BothTilesAndTileDimensions.

Inductive result (A : Type) :=
| Ok (a : A)
| Throw (e : ConfigError).
Arguments Ok {A} a.
Arguments Throw {A} e.

Definition tilesBelowOne (t : option TileCount) : bool :=
  match t with
  | Some t => (tcx t <? 1)%Z || (tcy t <? 1)%Z
  | None => false
  end.

Definition tileDimensionsNotPositive (d : option Dim) : bool :=
  match d with
  | Some d => (dx d <=? 0) || (dy d <=? 0)
  | None => false
  end.

Definition isSome {A} (o : option A) : bool :=
  match o with
  | Some _ => true
  | None => false
  end.

Definition validateConfig (config : GlitchTextConfig) : result unit :=
  if singleTileFlipDuration config >? allTilesFlipDuration config then
    Throw SingleTileFlipExceedsAllTilesFlip
  else if allTilesFlipDuration config <=? 0 then
    Throw AllTilesFlipNotPositive
  else if singleTileFlipDuration config <=? 0 then
    Throw SingleTileFlipNotPositive
  else if (invertThreshold config <? 0) || (invertThreshold config >? 1) then
    Throw InvertThresholdOutOfRange
  else if tilesBelowOne (tiles config) then
    Throw TilesBelowOne
  else if tileDimensionsNotPositive (tileDimensions config) then
    Throw TileDimensionsNotPositive
  else if isSome (tiles config) && isSome (tileDimensions config) then
    Throw BothTilesAndTileDimensions
  else Ok tt.

(** [get totalDuration] *)
Definition totalDuration (config : GlitchTextConfig) : Q :=
  initialWaitDuration config
  + allTilesFlipDuration config
  + waitBetweenFlipsDuration config
  + allTilesFlipDuration config
  + finalWaitDuration config.

(** [calculateTiles] *)
Definition calculateTiles (config : GlitchTextConfig) (width height : Q)
  : TileCount :=
  match tiles config with
  | Some t => t
  | None =>
    match tileDimensions config with
    | Some d =>
      let tilesX := Z.max 1 (Math_floor (width / dx d)) in
      let tilesY := Z.max 1 (Math_floor (height / dy d)) in
      {| tcx := tilesX; tcy := tilesY |}
    | None => {| tcx := 1; tcy := 1 |}
    end
  end.

(** [getFontSize] *)
Definition getFontSize (width : Q) : Q :=
  Math_min (Math_max 24 (width * 0.04375)) 96.

(* ================================================================== *)
(** * Presence extraction *)

(** A 2D canvas as [createPresenceTexture] sees it: [canvas.width],
    [canvas.height] and the RGBA bytes of
    [ctx.getImageData(0, 0, width, height).data]. *)
Record Canvas := {
  cwidth : Z;
  cheight : Z;
  pixels : list N
}.

(** [pixels[i]]: an index outside the array reads [undefined]. *)
Definition readPixel (pixels : list N) (i : Z) : option N :=
  if (i <? 0)%Z then None else nth_error pixels (Z.to_nat i).

(** [alpha > 0], which is false for [undefined]. *)
Definition isPositive (alpha : option N) : bool :=
  match alpha with
  | Some a => (0 <? a)%N
  | None => false
  end.

(** [scanTileForText]; the two nested loops return [true] at the first
    pixel with [alpha > 0] and [false] when they run to their end. *)
Definition scanTileForText (pixels : list N) (canvasWidth canvasHeight : Z)
    (tileX tileY : Z) (tileWidth tileHeight : Q) : bool :=
  let startX := Math_floor (inject_Z tileX * tileWidth) in
  let startY := Math_floor (inject_Z tileY * tileHeight) in
  let endX := Z.min (startX + Math_ceil tileWidth) canvasWidth in
  let endY := Z.min (startY + Math_ceil tileHeight) canvasHeight in
  existsb (fun y =>
    existsb (fun x =>
      let index := ((y * canvasWidth + x) * 4)%Z in
      let alpha := readPixel pixels (index + 3) in
      isPositive alpha)
      (zrange startX endX))
    (zrange startY endY).

(** [array[i] = v] on a typed array: a write outside the array is dropped. *)
Fixpoint arraySet (array : list N) (i : nat) (v : N) : list N :=
  match array, i with
  | [], _ => []
  | _ :: rest, O => v :: rest
  | a :: rest, S i' => a :: arraySet rest i' v
  end.

(** The [presenceData] that [createPresenceTexture] fills in: a zeroed
    [Uint8Array] of [tiles.x * tiles.y] bytes, written tile by tile. *)
Definition presenceData (tiles : TileCount) (canvas : Canvas) : list N :=
  let width := cwidth canvas in
  let height := cheight canvas in
  let tileWidth := inject_Z width / inject_Z (tcx tiles) in
  let tileHeight := inject_Z height / inject_Z (tcy tiles) in
  fold_left (fun data tileY =>
    fold_left (fun data tileX =>
      let hasText :=
        scanTileForText (pixels canvas) width height
                        tileX tileY tileWidth tileHeight in
      arraySet data (Z.to_nat (tileY * tcx tiles + tileX))
               (if hasText then 255%N else 0%N))
      (zrange 0 (tcx tiles)) data)
    (zrange 0 (tcy tiles))
    (repeat 0%N (Z.to_nat (tcx tiles * tcy tiles))).

(** The pixel rectangle of a tile as the specification words it:
    from [floor(tileIndex * cellSize)] to
    [min(ceil((tileIndex + 1) * cellSize), surfaceExtent)]. *)
Definition specTileStart (tileIndex : Z) (cellSize : Q) : Z :=
  Qfloor (inject_Z tileIndex * cellSize).
Definition specTileEnd (tileIndex : Z) (cellSize : Q) (surfaceExtent : Z) : Z :=
  Z.min (Qceiling (inject_Z (tileIndex + 1) * cellSize)) surfaceExtent.

(** The pixel rectangle that [scanTileForText] walks. *)
Definition tileStart (tileIndex : Z) (cellSize : Q) : Z :=
  Math_floor (inject_Z tileIndex * cellSize).
Definition tileEnd (tileIndex : Z) (cellSize : Q) (surfaceExtent : Z) : Z :=
  Z.min (tileStart tileIndex cellSize + Math_ceil cellSize) surfaceExtent.

(** The alpha byte of pixel [(x, y)] of a canvas. *)
Definition alphaAt (canvas : Canvas) (x y : Z) : N :=
  nth (Z.to_nat ((y * cwidth canvas + x) * 4 + 3)) (pixels canvas) 0%N.

(* ================================================================== *)
(** * GPU-side values *)

Record vec2 := { vx : Q; vy : Q }.
Record vec4 := { cr : Q; cg : Q; cb : Q; ca : Q }.

(** A [THREE.CanvasTexture]: the GPU object (named by its handle) and the
    canvas it was made from. *)
Record Texture := {
  textureId : nat;
  image : Canvas
}.

(** A [THREE.DataTexture]: the GPU object, its bytes and its extent. *)
Record DataTexture := {
  dataTextureId : nat;
  data : list N;
  dataWidth : Z;
  dataHeight : Z
}.

Record Uniforms := {
  uTime : Q;
  uMorphProgress : Q;
  uResolution : Dim;
  uTexA : Texture;
  uTexB : Texture;
  uTexC : Texture;
  uPresenceA : DataTexture;
  uPresenceB : DataTexture;
  uPresenceC : DataTexture;
  uTiles : TileCount;
  uInitialWaitDuration : Q;
  uAllTilesFlipDuration : Q;
  uSingleTileFlipDuration : Q;
  uWaitBetweenFlipsDuration : Q;
  uFinalWaitDuration : Q;
  uInvertThreshold : Q
}.

(* ================================================================== *)
(** * The fragment shader *)

(** GLSL built-ins on finite floats. *)
Definition fract (x : Q) : Q := x - inject_Z (Qfloor x).
Definition dot (p q : vec2) : Q := vx p * vx q + vy p * vy q.
Definition clamp (x lo hi : Q) : Q := Math_min (Math_max x lo) hi.
Definition smoothstep (edge0 edge1 x : Q) : Q :=
  let t := clamp ((x - edge0) / (edge1 - edge0)) 0 1 in
  t * t * (3 - 2 * t).
Definition step (edge x : Q) : Q := if x <? edge then 0 else 1.
Definition mix (x y : vec4) (t : Q) : vec4 :=
  {| cr := cr x * (1 - t) + cr y * t;
     cg := cg x * (1 - t) + cg y * t;
     cb := cb x * (1 - t) + cb y * t;
     ca := ca x * (1 - t) + ca y * t |}.

(** The five arms of the [if / else if] chain of [main], in order. *)
Inductive Phase :=
| InitialWait
| FlipAB
| WaitBetween
| FlipBC
| FinalWait.

(** What an arm of the chain leaves in the locals of [main]. *)
Record Locals := {
  flipProgress : Q;
  tex1 : vec4;
  tex2 : vec4;
  hasTextSource : Q;
  hasTextTarget : Q
}.

Section FragmentShader.

(** The GPU's [sin], its texture fetches, and the value that a local
    declared without an initialiser happens to hold. *)
Variable sin : Q -> Q.
Variable texture2D : Texture -> vec2 -> vec4.
Variable texture2DData : DataTexture -> vec2 -> vec4.
Variable uninitialised : Q.

Variable u : Uniforms.

Definition random (st : vec2) : Q :=
  fract (sin (dot st {| vx := 12.9898; vy := 78.233 |}) * 43758.5453123).

Definition tilesVec : vec2 :=
  {| vx := inject_Z (tcx (uTiles u)); vy := inject_Z (tcy (uTiles u)) |}.

(** [floor(uv * uTiles)] *)
Definition tileOf (uv : vec2) : vec2 :=
  {| vx := inject_Z (Qfloor (vx uv * vx tilesVec));
     vy := inject_Z (Qfloor (vy uv * vy tilesVec)) |}.

(** [random(floor(uv * uTiles) / uTiles)] *)
Definition noiseAt (uv : vec2) : Q :=
  let tileUV := {| vx := vx (tileOf uv) / vx tilesVec;
                   vy := vy (tileOf uv) / vy tilesVec |} in
  random tileUV.

(** [(floor(vUv * uTiles) + 0.5) / uTiles] *)
Definition presenceUVAt (vUv : vec2) : vec2 :=
  {| vx := (vx (tileOf vUv) + 0.5) / vx tilesVec;
     vy := (vy (tileOf vUv) + 0.5) / vy tilesVec |}.

Definition shaderTotalDuration : Q :=
  uInitialWaitDuration u + 2.0 * uAllTilesFlipDuration u
  + uWaitBetweenFlipsDuration u + uFinalWaitDuration u.

Definition initialWaitEnd : Q :=
  uInitialWaitDuration u / shaderTotalDuration.
Definition flipABEnd : Q :=
  (uInitialWaitDuration u + uAllTilesFlipDuration u) / shaderTotalDuration.
Definition waitBetweenEnd : Q :=
  (uInitialWaitDuration u + uAllTilesFlipDuration u
   + uWaitBetweenFlipsDuration u) / shaderTotalDuration.
Definition flipBCEnd : Q :=
  (uInitialWaitDuration u + uAllTilesFlipDuration u
   + uWaitBetweenFlipsDuration u + uAllTilesFlipDuration u)
  / shaderTotalDuration.

(** Which arm of the chain [morphProgress] selects. *)
Definition selectPhase : Phase :=
  let morphProgress := uMorphProgress u in
  if morphProgress <? initialWaitEnd then InitialWait
  else if morphProgress <? flipABEnd then FlipAB
  else if morphProgress <? waitBetweenEnd then WaitBetween
  else if morphProgress <? flipBCEnd then FlipBC
  else FinalWait.

(** The four lines both flip arms share: from [flipStartTime] to
    [flipProgress = smoothstep(...)]. *)
Definition tileFlipProgress (noise phaseProgress : Q) : Q :=
  let flipStartTime :=
    noise * (uAllTilesFlipDuration u - uSingleTileFlipDuration u)
    / uAllTilesFlipDuration u in
  let flipWindowStart := flipStartTime in
  let flipWindowEnd :=
    flipStartTime + uSingleTileFlipDuration u / uAllTilesFlipDuration u in
  smoothstep flipWindowStart flipWindowEnd phaseProgress.

(** [phaseProgress] of the two flip arms. *)
Definition phaseProgressAB : Q :=
  (uMorphProgress u - initialWaitEnd) / (flipABEnd - initialWaitEnd).
Definition phaseProgressBC : Q :=
  (uMorphProgress u - waitBetweenEnd) / (flipBCEnd - waitBetweenEnd).

(** The body of the selected arm.  [flipProgress] starts at [0.0];
    [hasTextTarget] is assigned in the flip arms only. *)
Definition locals (vUv : vec2) : Locals :=
  let noise := noiseAt vUv in
  let presenceUV := presenceUVAt vUv in
  match selectPhase with
  | InitialWait =>
    let t1 := texture2D (uTexA u) vUv in
    {| flipProgress := 0.0; tex1 := t1; tex2 := t1;
       hasTextSource := cr (texture2DData (uPresenceA u) presenceUV);
       hasTextTarget := uninitialised |}
  | FlipAB =>
    {| flipProgress := tileFlipProgress noise phaseProgressAB;
       tex1 := texture2D (uTexA u) vUv;
       tex2 := texture2D (uTexB u) vUv;
       hasTextSource := cr (texture2DData (uPresenceA u) presenceUV);
       hasTextTarget := cr (texture2DData (uPresenceB u) presenceUV) |}
  | WaitBetween =>
    let t1 := texture2D (uTexB u) vUv in
    {| flipProgress := 0.0; tex1 := t1; tex2 := t1;
       hasTextSource := cr (texture2DData (uPresenceB u) presenceUV);
       hasTextTarget := uninitialised |}
  | FlipBC =>
    {| flipProgress := tileFlipProgress noise phaseProgressBC;
       tex1 := texture2D (uTexB u) vUv;
       tex2 := texture2D (uTexC u) vUv;
       hasTextSource := cr (texture2DData (uPresenceB u) presenceUV);
       hasTextTarget := cr (texture2DData (uPresenceC u) presenceUV) |}
  | FinalWait =>
    let t1 := texture2D (uTexC u) vUv in
    {| flipProgress := 0.0; tex1 := t1; tex2 := t1;
       hasTextSource := cr (texture2DData (uPresenceC u) presenceUV);
       hasTextTarget := uninitialised |}
  end.

(** [invert = step(uInvertThreshold, noise) * flipProgress * hasText] *)
Definition invertAt (vUv : vec2) : Q :=
  let l := locals vUv in
  let hasText := Math_max (hasTextSource l) (hasTextTarget l) in
  step (uInvertThreshold u) (noiseAt vUv) * flipProgress l * hasText.

(** [if (invert > 0.5)] *)
Definition invertBranchTaken (vUv : vec2) : bool := invertAt vUv >? 0.5.

(** [main]: the value written to [gl_FragColor] at [vUv]. *)
Definition main (vUv : vec2) : vec4 :=
  let l := locals vUv in
  let tex1 :=
    if invertBranchTaken vUv then
      let invertedAlpha := 1.0 - ca (tex1 l) in
      {| cr := 0.0; cg := 0.0; cb := 0.0; ca := invertedAlpha |}
    else tex1 l in
  let finalColor := mix tex1 (tex2 l) (flipProgress l) in
  finalColor.

End FragmentShader.

(** The window of [phaseProgress] in which a tile flips, as both flip
    arms compute it: [flipWindowStart] and [flipWindowEnd]. *)
Definition flipWindowStart (u : Uniforms) (noise : Q) : Q :=
  noise * (uAllTilesFlipDuration u - uSingleTileFlipDuration u)
  / uAllTilesFlipDuration u.
Definition flipWindowEnd (u : Uniforms) (noise : Q) : Q :=
  flipWindowStart u noise
  + uSingleTileFlipDuration u / uAllTilesFlipDuration u.

(* ================================================================== *)
(** * The host: clock, GPU objects, animation frames, timers *)

(** A pending [setTimeout]: its id, the time from which it may fire, and
    the [width] and [height] that the callback of [resize] closes over. *)
Record Timer := {
  timerId : nat;
  due : Q;
  timerWidth : Q;
  timerHeight : Q
}.

Record Host := {
  now : Q;                      (* [performance.now()], in milliseconds *)
  nextObject : nat;             (* handle of the next GPU object *)
  disposed : list nat;          (* one entry per [dispose()] call *)
  nextFrame : nat;              (* id of the next animation-frame request *)
  pendingFrame : option nat;    (* the request whose callback is pending *)
  nextTimer : nat;              (* id of the next timer *)
  pendingTimers : list Timer;
  drawCalls : nat               (* [renderer.render] calls so far *)
}.

(** A page in which nothing has been created or scheduled; request and
    timer ids start at 1, as a browser numbers them. *)
Definition newHost (t0 : Q) : Host :=
  {| now := t0; nextObject := 0; disposed := [];
     nextFrame := 1; pendingFrame := None;
     nextTimer := 1; pendingTimers := []; drawCalls := 0 |}.

(** Code that calls into the host threads the host state. *)
Definition M (A : Type) : Type := Host -> A * Host.

Definition ret {A} (a : A) : M A := fun h => (a, h).
Definition bind {A B} (m : M A) (k : A -> M B) : M B :=
  fun h => let (a, h') := m h in k a h'.

Notation "x <- m ;; k" := (bind m (fun x => k))
  (at level 61, m at next level, right associativity).
Notation "m ;;; k" := (bind m (fun _ => k))
  (at level 61, right associativity).

Definition performance_now : M Q := fun h => (now h, h).

(** [new THREE.X(...)] for an [X] that owns GPU memory. *)
Definition createObject : M nat := fun h =>
  (nextObject h,
   {| now := now h; nextObject := S (nextObject h); disposed := disposed h;
      nextFrame := nextFrame h; pendingFrame := pendingFrame h;
      nextTimer := nextTimer h; pendingTimers := pendingTimers h;
      drawCalls := drawCalls h |}).

(** [object.dispose()] *)
Definition dispose (id : nat) : M unit := fun h =>
  (tt,
   {| now := now h; nextObject := nextObject h; disposed := id :: disposed h;
      nextFrame := nextFrame h; pendingFrame := pendingFrame h;
      nextTimer := nextTimer h; pendingTimers := pendingTimers h;
      drawCalls := drawCalls h |}).

Definition requestAnimationFrame : M nat := fun h =>
  (nextFrame h,
   {| now := now h; nextObject := nextObject h; disposed := disposed h;
      nextFrame := S (nextFrame h); pendingFrame := Some (nextFrame h);
      nextTimer := nextTimer h; pendingTimers := pendingTimers h;
      drawCalls := drawCalls h |}).

Definition withPendingFrame (p : option nat) (h : Host) : Host :=
  {| now := now h; nextObject := nextObject h; disposed := disposed h;
     nextFrame := nextFrame h; pendingFrame := p;
     nextTimer := nextTimer h; pendingTimers := pendingTimers h;
     drawCalls := drawCalls h |}.

Definition cancelAnimationFrame (id : nat) : M unit := fun h =>
  (tt,
   match pendingFrame h with
   | Some p => if Nat.eqb p id then withPendingFrame None h else h
   | None => h
   end).

Definition withPendingTimers (ts : list Timer) (h : Host) : Host :=
  {| now := now h; nextObject := nextObject h; disposed := disposed h;
     nextFrame := nextFrame h; pendingFrame := pendingFrame h;
     nextTimer := nextTimer h; pendingTimers := ts;
     drawCalls := drawCalls h |}.

(** [setTimeout(callback, delay)] for the callback of [resize], which
    closes over [width] and [height]. *)
Definition setTimeout (width height : Q) (delay : Q) : M nat := fun h =>
  (nextTimer h,
   {| now := now h; nextObject := nextObject h; disposed := disposed h;
      nextFrame := nextFrame h; pendingFrame := pendingFrame h;
      nextTimer := S (nextTimer h);
      pendingTimers :=
        {| timerId := nextTimer h; due := now h + delay;
           timerWidth := width; timerHeight := height |} :: pendingTimers h;
      drawCalls := drawCalls h |}).

Definition clearTimeout (id : nat) : M unit := fun h =>
  (tt,
   withPendingTimers
     (filter (fun t => negb (Nat.eqb (timerId t) id)) (pendingTimers h)) h).

(** [renderer.render(scene, camera)] *)
Definition render : M unit := fun h =>
  (tt,
   {| now := now h; nextObject := nextObject h; disposed := disposed h;
      nextFrame := nextFrame h; pendingFrame := pendingFrame h;
      nextTimer := nextTimer h; pendingTimers := pendingTimers h;
      drawCalls := S (drawCalls h) |}).

Definition withNow (t : Q) (h : Host) : Host :=
  {| now := t; nextObject := nextObject h; disposed := disposed h;
     nextFrame := nextFrame h; pendingFrame := pendingFrame h;
     nextTimer := nextTimer h; pendingTimers := pendingTimers h;
     drawCalls := drawCalls h |}.

(** How often [dispose()] ran on an object. *)
Definition disposeCount (h : Host) (id : nat) : nat :=
  count_occ Nat.eq_dec (disposed h) id.

(* ================================================================== *)
(** * The engine: class [GlitchText] *)

(** [THREE.WebGLRenderer]: the GPU object and the size last given to
    [setSize]. *)
Record Renderer := {
  rendererId : nat;
  rendererSize : Dim
}.

(** The fields of a [GlitchText].  [material] and [geometry] are the
    handles of [this.material] and [this.mesh.geometry]; the scene, the
    camera and the mesh own no GPU memory of their own. *)
Record GlitchText := {
  renderer : Renderer;
  uniforms : Uniforms;
  material : nat;
  geometry : nat;
  morphProgress : Q;
  direction : Z;
  totalElapsedTime : Q;
  lastFrameTime : Q;
  animationFrame : option nat;
  config : GlitchTextConfig;
  resizeTimeout : option nat;
  this_tiles : TileCount;
  useTileDimensions : bool
}.

(** [canvas.clientWidth], [canvas.clientHeight] *)
Record HTMLCanvasElement := {
  clientWidth : Q;
  clientHeight : Q
}.

(** Assignments to the fields that the methods write. *)
Definition setTimeline (this : GlitchText)
    (elapsed progress : Q) (us : Uniforms) : GlitchText :=
  {| renderer := renderer this; uniforms := us;
     material := material this; geometry := geometry this;
     morphProgress := progress; direction := direction this;
     totalElapsedTime := elapsed; lastFrameTime := lastFrameTime this;
     animationFrame := animationFrame this; config := config this;
     resizeTimeout := resizeTimeout this; this_tiles := this_tiles this;
     useTileDimensions := useTileDimensions this |}.

Definition setUniforms (this : GlitchText) (us : Uniforms) : GlitchText :=
  setTimeline this (totalElapsedTime this) (morphProgress this) us.

Definition setDirection (this : GlitchText) (d : Z) : GlitchText :=
  {| renderer := renderer this; uniforms := uniforms this;
     material := material this; geometry := geometry this;
     morphProgress := morphProgress this; direction := d;
     totalElapsedTime := totalElapsedTime this;
     lastFrameTime := lastFrameTime this;
     animationFrame := animationFrame this; config := config this;
     resizeTimeout := resizeTimeout this; this_tiles := this_tiles this;
     useTileDimensions := useTileDimensions this |}.

Definition setLastFrameTime (this : GlitchText) (t : Q) : GlitchText :=
  {| renderer := renderer this; uniforms := uniforms this;
     material := material this; geometry := geometry this;
     morphProgress := morphProgress this; direction := direction this;
     totalElapsedTime := totalElapsedTime this; lastFrameTime := t;
     animationFrame := animationFrame this; config := config this;
     resizeTimeout := resizeTimeout this; this_tiles := this_tiles this;
     useTileDimensions := useTileDimensions this |}.

Definition setAnimationFrame (this : GlitchText) (id : option nat)
  : GlitchText :=
  {| renderer := renderer this; uniforms := uniforms this;
     material := material this; geometry := geometry this;
     morphProgress := morphProgress this; direction := direction this;
     totalElapsedTime := totalElapsedTime this;
     lastFrameTime := lastFrameTime this;
     animationFrame := id; config := config this;
     resizeTimeout := resizeTimeout this; this_tiles := this_tiles this;
     useTileDimensions := useTileDimensions this |}.

Definition setResizeTimeout (this : GlitchText) (id : option nat)
  : GlitchText :=
  {| renderer := renderer this; uniforms := uniforms this;
     material := material this; geometry := geometry this;
     morphProgress := morphProgress this; direction := direction this;
     totalElapsedTime := totalElapsedTime this;
     lastFrameTime := lastFrameTime this;
     animationFrame := animationFrame this; config := config this;
     resizeTimeout := id; this_tiles := this_tiles this;
     useTileDimensions := useTileDimensions this |}.

Definition setTiles (this : GlitchText) (t : TileCount) : GlitchText :=
  {| renderer := renderer this; uniforms := uniforms this;
     material := material this; geometry := geometry this;
     morphProgress := morphProgress this; direction := direction this;
     totalElapsedTime := totalElapsedTime this;
     lastFrameTime := lastFrameTime this;
     animationFrame := animationFrame this; config := config this;
     resizeTimeout := resizeTimeout this; this_tiles := t;
     useTileDimensions := useTileDimensions this |}.

Definition setRendererSize (this : GlitchText) (size : Dim) : GlitchText :=
  {| renderer := {| rendererId := rendererId (renderer this);
                    rendererSize := size |};
     uniforms := uniforms this;
     material := material this; geometry := geometry this;
     morphProgress := morphProgress this; direction := direction this;
     totalElapsedTime := totalElapsedTime this;
     lastFrameTime := lastFrameTime this;
     animationFrame := animationFrame this; config := config this;
     resizeTimeout := resizeTimeout this; this_tiles := this_tiles this;
     useTileDimensions := useTileDimensions this |}.

(** Assignments to [uniforms.X.value]. *)
Definition setFrameUniforms (us : Uniforms) (time progress : Q) : Uniforms :=
  {| uTime := time; uMorphProgress := progress;
     uResolution := uResolution us;
     uTexA := uTexA us; uTexB := uTexB us; uTexC := uTexC us;
     uPresenceA := uPresenceA us; uPresenceB := uPresenceB us;
     uPresenceC := uPresenceC us; uTiles := uTiles us;
     uInitialWaitDuration := uInitialWaitDuration us;
     uAllTilesFlipDuration := uAllTilesFlipDuration us;
     uSingleTileFlipDuration := uSingleTileFlipDuration us;
     uWaitBetweenFlipsDuration := uWaitBetweenFlipsDuration us;
     uFinalWaitDuration := uFinalWaitDuration us;
     uInvertThreshold := uInvertThreshold us |}.

Definition setGrid (us : Uniforms) (resolution : Dim) (grid : TileCount)
  : Uniforms :=
  {| uTime := uTime us; uMorphProgress := uMorphProgress us;
     uResolution := resolution;
     uTexA := uTexA us; uTexB := uTexB us; uTexC := uTexC us;
     uPresenceA := uPresenceA us; uPresenceB := uPresenceB us;
     uPresenceC := uPresenceC us; uTiles := grid;
     uInitialWaitDuration := uInitialWaitDuration us;
     uAllTilesFlipDuration := uAllTilesFlipDuration us;
     uSingleTileFlipDuration := uSingleTileFlipDuration us;
     uWaitBetweenFlipsDuration := uWaitBetweenFlipsDuration us;
     uFinalWaitDuration := uFinalWaitDuration us;
     uInvertThreshold := uInvertThreshold us |}.

Definition setTextures (us : Uniforms)
    (textures : Texture * Texture * Texture)
    (presenceTextures : DataTexture * DataTexture * DataTexture)
  : Uniforms :=
  let '(tA, tB, tC) := textures in
  let '(pA, pB, pC) := presenceTextures in
  {| uTime := uTime us; uMorphProgress := uMorphProgress us;
     uResolution := uResolution us;
     uTexA := tA; uTexB := tB; uTexC := tC;
     uPresenceA := pA; uPresenceB := pB; uPresenceC := pC;
     uTiles := uTiles us;
     uInitialWaitDuration := uInitialWaitDuration us;
     uAllTilesFlipDuration := uAllTilesFlipDuration us;
     uSingleTileFlipDuration := uSingleTileFlipDuration us;
     uWaitBetweenFlipsDuration := uWaitBetweenFlipsDuration us;
     uFinalWaitDuration := uFinalWaitDuration us;
     uInvertThreshold := uInvertThreshold us |}.

(** The body of [if (this.direction !== 0) { ... }] in [animate]. *)
Definition advance (this : GlitchText) (deltaTime : Q) : GlitchText :=
  let elapsed := totalElapsedTime this + deltaTime * inject_Z (direction this) in
  let elapsed :=
    Math_max 0 (Math_min (totalDuration (config this)) elapsed) in
  let progress := elapsed / totalDuration (config this) in
  setTimeline this elapsed progress
              (setFrameUniforms (uniforms this) (uTime (uniforms this))
                                progress).

(** [animate] *)
Definition animate (this : GlitchText) : M GlitchText :=
  id <- requestAnimationFrame ;;
  let this := setAnimationFrame this (Some id) in
  currentTime <- performance_now ;;
  let deltaTime := (currentTime - lastFrameTime this) / 1000 in
  let this := setLastFrameTime this currentTime in
  let this :=
    if (direction this =? 0)%Z then this else advance this deltaTime in
  let this :=
    setUniforms this
      (setFrameUniforms (uniforms this) (uTime (uniforms this) + 0.016)
                        (uMorphProgress (uniforms this))) in
  render ;;;
  ret this.

(** [setHover] *)
Definition setHover (this : GlitchText) (hover : bool) : GlitchText :=
  let newDirection := if hover then 1%Z else (-1)%Z in
  if (newDirection =? direction this)%Z then this
  else setDirection this newDirection.

(** [if (this.resizeTimeout)]: a timer id is truthy unless it is [0]. *)
Definition truthyId (id : option nat) : option nat :=
  match id with
  | Some (S n) => Some (S n)
  | _ => None
  end.

Section Engine.

(** What the browser leaves in the 2D canvas that [createTextCanvas]
    sets up and draws on, given the font family, the font size in
    pixels, the text, and the width and height passed in.  The device
    pixel ratio and the ink colour belong to the page and are part of
    this function. *)
Variable drawText : string -> Q -> string -> Q -> Q -> Canvas.

Definition createTextCanvas (config : GlitchTextConfig)
    (text : string) (width height : Q) : Canvas :=
  drawText (fontFamily config) (getFontSize width) text width height.

Definition createTextCanvases (config : GlitchTextConfig)
    (width height : Q) : Canvas * Canvas * Canvas :=
  (createTextCanvas config (textA config) width height,
   createTextCanvas config (textB config) width height,
   createTextCanvas config (textC config) width height).

Definition createTextTexture (canvas : Canvas) : M Texture :=
  id <- createObject ;;
  ret {| textureId := id; image := canvas |}.

Definition createPresenceTexture (grid : TileCount) (canvas : Canvas)
  : M DataTexture :=
  let presence := presenceData grid canvas in
  id <- createObject ;;
  ret {| dataTextureId := id; data := presence;
         dataWidth := tcx grid; dataHeight := tcy grid |}.

Definition createAllTextures (canvases : Canvas * Canvas * Canvas)
  : M (Texture * Texture * Texture) :=
  let '(c0, c1, c2) := canvases in
  t0 <- createTextTexture c0 ;;
  t1 <- createTextTexture c1 ;;
  t2 <- createTextTexture c2 ;;
  ret (t0, t1, t2).

Definition createAllPresenceTextures (grid : TileCount)
    (canvases : Canvas * Canvas * Canvas)
  : M (DataTexture * DataTexture * DataTexture) :=
  let '(c0, c1, c2) := canvases in
  p0 <- createPresenceTexture grid c0 ;;
  p1 <- createPresenceTexture grid c1 ;;
  p2 <- createPresenceTexture grid c2 ;;
  ret (p0, p1, p2).

Definition createUniforms (config : GlitchTextConfig) (grid : TileCount)
    (textures : Texture * Texture * Texture)
    (presenceTextures : DataTexture * DataTexture * DataTexture)
    (width height : Q) : Uniforms :=
  let '(tA, tB, tC) := textures in
  let '(pA, pB, pC) := presenceTextures in
  {| uTime := 0; uMorphProgress := 0;
     uResolution := {| dx := width; dy := height |};
     uTexA := tA; uTexB := tB; uTexC := tC;
     uPresenceA := pA; uPresenceB := pB; uPresenceC := pC;
     uTiles := grid;
     uInitialWaitDuration := initialWaitDuration config;
     uAllTilesFlipDuration := allTilesFlipDuration config;
     uSingleTileFlipDuration := singleTileFlipDuration config;
     uWaitBetweenFlipsDuration := waitBetweenFlipsDuration config;
     uFinalWaitDuration := finalWaitDuration config;
     uInvertThreshold := invertThreshold config |}.

(** [initRenderer] *)
Definition initRenderer (width height : Q) : M Renderer :=
  id <- createObject ;;
  ret {| rendererId := id;
         rendererSize := {| dx := width; dy := height |} |}.

(** [constructor]: either the exception of [validateConfig], or the new
    object after its first [animate()]. *)
Definition constructor (canvas : HTMLCanvasElement)
    (options : GlitchTextOptions) (h : Host) : result GlitchText * Host :=
  let width := clientWidth canvas in
  let height := clientHeight canvas in
  let config := mergeOptions options in
  match validateConfig config with
  | Throw e => (Throw e, h)
  | Ok _ =>
    let useTileDimensions := isSome (tileDimensions config) in
    let grid := calculateTiles config width height in
    let m : M GlitchText :=
      (* initRenderer *)
      renderer <- initRenderer width height ;;
      (* initResources *)
      let canvases := createTextCanvases config width height in
      textures <- createAllTextures canvases ;;
      presenceTextures <- createAllPresenceTextures grid canvases ;;
      let uniforms :=
        createUniforms config grid textures presenceTextures width height in
      material <- createObject ;;
      geometry <- createObject ;;
      lastFrameTime <- performance_now ;;
      animate
        {| renderer := renderer; uniforms := uniforms;
           material := material; geometry := geometry;
           morphProgress := 0; direction := 0; totalElapsedTime := 0;
           lastFrameTime := lastFrameTime; animationFrame := None;
           config := config; resizeTimeout := None;
           this_tiles := grid; useTileDimensions := useTileDimensions |} in
    let (this, h') := m h in
    (Ok this, h')
  end.

(** [updateTextures] *)
Definition updateTextures (this : GlitchText) (width height : Q)
  : M GlitchText :=
  dispose (textureId (uTexA (uniforms this))) ;;;
  dispose (textureId (uTexB (uniforms this))) ;;;
  dispose (textureId (uTexC (uniforms this))) ;;;
  dispose (dataTextureId (uPresenceA (uniforms this))) ;;;
  dispose (dataTextureId (uPresenceB (uniforms this))) ;;;
  dispose (dataTextureId (uPresenceC (uniforms this))) ;;;
  let canvases := createTextCanvases (config this) width height in
  textures <- createAllTextures canvases ;;
  presenceTextures <-
    createAllPresenceTextures (this_tiles this) canvases ;;
  ret (setUniforms this
         (setTextures (uniforms this) textures presenceTextures)).

(** The callback that [resize] hands to [setTimeout]. *)
Definition resizeSettled (this : GlitchText) (width height : Q)
  : M GlitchText :=
  let this :=
    if useTileDimensions this then
      let grid := calculateTiles (config this) width height in
      let this := setTiles this grid in
      setUniforms this
        (setGrid (uniforms this) (uResolution (uniforms this)) grid)
    else this in
  updateTextures this width height.

(** [if (this.resizeTimeout) clearTimeout(this.resizeTimeout)] *)
Definition clearResizeTimeout (this : GlitchText) : M unit :=
  match truthyId (resizeTimeout this) with
  | Some id => clearTimeout id
  | None => ret tt
  end.

(** [resize] *)
Definition resize (this : GlitchText) (width height : Q) : M GlitchText :=
  let size := {| dx := width; dy := height |} in
  let this := setRendererSize this size in
  let this :=
    setUniforms this (setGrid (uniforms this) size (uTiles (uniforms this))) in
  clearResizeTimeout this ;;;
  id <- setTimeout width height (resizeDebounceMs (config this)) ;;
  ret (setResizeTimeout this (Some id)).

(** [destroy] *)
Definition destroy (this : GlitchText) : M unit :=
  match animationFrame this with
  | Some id => cancelAnimationFrame id
  | None => ret tt
  end ;;;
  clearResizeTimeout this ;;;
  dispose (textureId (uTexA (uniforms this))) ;;;
  dispose (textureId (uTexB (uniforms this))) ;;;
  dispose (textureId (uTexC (uniforms this))) ;;;
  dispose (dataTextureId (uPresenceA (uniforms this))) ;;;
  dispose (dataTextureId (uPresenceB (uniforms this))) ;;;
  dispose (dataTextureId (uPresenceC (uniforms this))) ;;;
  dispose (rendererId (renderer this)) ;;;
  dispose (material this) ;;;
  dispose (geometry this).

(** ** The event loop

    Everything that can happen to a live engine: the page's clock moves
    on, the host runs the pending animation-frame callback, the host
    runs the callback of a timer that is due, or the page calls
    [setHover] or [resize]. *)
Inductive Event :=
| Tick (t : Q)
| Frame
| Timeout (id : nat)
| SetHover (hover : bool)
| Resize (width height : Q).

Definition findTimer (id : nat) (h : Host) : option Timer :=
  find (fun t => Nat.eqb (timerId t) id) (pendingTimers h).

(** A timer that fires leaves the list of pending timers. *)
Definition removeTimer (id : nat) (h : Host) : Host :=
  withPendingTimers
    (filter (fun t => negb (Nat.eqb (timerId t) id)) (pendingTimers h)) h.

(** One event; [None] when the host cannot produce it in this state
    (time running backwards, no callback pending, timer not due). *)
Definition exec (ev : Event) (s : GlitchText * Host)
  : option (GlitchText * Host) :=
  let (this, h) := s in
  match ev with
  | Tick t =>
    if now h <=? t then Some (this, withNow t h) else None
  | Frame =>
    match pendingFrame h with
    | Some _ => Some (animate this (withPendingFrame None h))
    | None => None
    end
  | Timeout id =>
    match findTimer id h with
    | Some t =>
      if due t <=? now h then
        Some (resizeSettled this (timerWidth t) (timerHeight t)
                            (removeTimer id h))
      else None
    | None => None
    end
  | SetHover hover => Some (setHover this hover, h)
  | Resize width height => Some (resize this width height h)
  end.

Fixpoint run (trace : list Event) (s : GlitchText * Host)
  : option (GlitchText * Host) :=
  match trace with
  | [] => Some s
  | ev :: rest =>
    match exec ev s with
    | Some s' => run rest s'
    | None => None
    end
  end.

(** The states of a live engine: those after a successful construction
    in a fresh page, and those an event leads to from there. *)
Inductive reachable : GlitchText * Host -> Prop :=
| reachable_new canvas options t0 this h :
    constructor canvas options (newHost t0) = (Ok this, h) ->
    reachable (this, h)
| reachable_step ev s s' :
    reachable s -> exec ev s = Some s' -> reachable s'.

End Engine.

(* ================================================================== *)
(** * The favicon script

    [generate-favicon]: the layout arithmetic between the glyph's bounding
    box, which the font library supplies, and the [transform] attribute
    of the path that the script writes. *)

Module Favicon.

Definition viewBoxSize : Q := 128.
Definition margin : Q := 16.
Definition targetSize : Q := viewBoxSize - margin * 2.

(** [textPath.getBoundingBox()] *)
Record BoundingBox := { x1 : Q; y1 : Q; x2 : Q; y2 : Q }.

Definition width (bbox : BoundingBox) : Q := x2 bbox - x1 bbox.
Definition height (bbox : BoundingBox) : Q := y2 bbox - y1 bbox.
Definition scale (bbox : BoundingBox) : Q :=
  Math_min (targetSize / width bbox) (targetSize / height bbox).
Definition cx (bbox : BoundingBox) : Q := (x1 bbox + x2 bbox) / 2.
Definition cy (bbox : BoundingBox) : Q := (y1 bbox + y2 bbox) / 2.

(** The number that [x.toFixed(digits)] prints for a magnitude below
    [10^21]: the multiple of [10^-digits] nearest to [x], the one of
    larger magnitude on a tie (a larger magnitude is printed as it is). *)
Definition toFixed (digits : nat) (x : Q) : Q :=
  let p := inject_Z (10 ^ Z.of_nat digits) in
  if x <? 0 then - (inject_Z (Qfloor (- x * p + 0.5)) / p)
  else inject_Z (Qfloor (x * p + 0.5)) / p.

(** [translate(tx ty) scale(s) translate(ux uy)], with the numbers as the
    template string prints them. *)
Record Transform := {
  translateX : Q; translateY : Q;
  scaleBy : Q;
  thenTranslateX : Q; thenTranslateY : Q
}.

Definition transform (bbox : BoundingBox) : Transform :=
  {| translateX := toFixed 0 (viewBoxSize / 2);
     translateY := toFixed 0 (viewBoxSize / 2);
     scaleBy := toFixed 6 (scale bbox);
     thenTranslateX := toFixed 6 (- cx bbox);
     thenTranslateY := toFixed 6 (- cy bbox) |}.

(** Where an SVG renderer puts the path point [(x, y)] under such a
    transform list, which applies from right to left. *)
Definition place (t : Transform) (x y : Q) : Q * Q :=
  (translateX t + scaleBy t * (x + thenTranslateX t),
   translateY t + scaleBy t * (y + thenTranslateY t)).

(** Half a unit of the sixth decimal: the most that [toFixed(6)] moves a
    number. *)
Definition halfUlp : Q := 0.0000005.

End Favicon.

(* ================================================================== *)
(** * The properties as the specification words them *)

(** The configurations that the specification says construction refuses. *)
Definition rejected (config : GlitchTextConfig) : Prop :=
  singleTileFlipDuration config > allTilesFlipDuration config
  \/ allTilesFlipDuration config <= 0
  \/ singleTileFlipDuration config <= 0
  \/ (invertThreshold config < 0 \/ invertThreshold config > 1)
  \/ (exists t, tiles config = Some t /\ (tcx t < 1 \/ tcy t < 1)%Z)
  \/ (exists d, tileDimensions config = Some d /\ (dx d <= 0 \/ dy d <= 0))
  \/ (tiles config <> None /\ tileDimensions config <> None).

(** [options] with the property [tileDimensions] set to [v]. *)
Definition withTileDimensions (options : GlitchTextOptions)
    (v : option (option Dim)) : GlitchTextOptions :=
  {| o_textA := o_textA options; o_textB := o_textB options;
     o_textC := o_textC options; o_tiles := o_tiles options;
     o_fontFamily := o_fontFamily options;
     o_tileDimensions := v;
     o_initialWaitDuration := o_initialWaitDuration options;
     o_allTilesFlipDuration := o_allTilesFlipDuration options;
     o_singleTileFlipDuration := o_singleTileFlipDuration options;
     o_waitBetweenFlipsDuration := o_waitBetweenFlipsDuration options;
     o_finalWaitDuration := o_finalWaitDuration options;
     o_invertThreshold := o_invertThreshold options;
     o_resizeDebounceMs := o_resizeDebounceMs options |}.

(** Pixel [(x, y)] lies in the rectangle that [scanTileForText] walks
    for tile [(tileX, tileY)] of [grid] on [canvas]. *)
Definition inScannedRect (grid : TileCount) (canvas : Canvas)
    (tileX tileY x y : Z) : Prop :=
  let tileWidth := inject_Z (cwidth canvas) / inject_Z (tcx grid) in
  let tileHeight := inject_Z (cheight canvas) / inject_Z (tcy grid) in
  (tileStart tileX tileWidth <= x
   < tileEnd tileX tileWidth (cwidth canvas))%Z
  /\ (tileStart tileY tileHeight <= y
      < tileEnd tileY tileHeight (cheight canvas))%Z.

(** The same for the rectangle as the specification words it. *)
Definition inSpecRect (grid : TileCount) (canvas : Canvas)
    (tileX tileY x y : Z) : Prop :=
  let cellWidth := inject_Z (cwidth canvas) / inject_Z (tcx grid) in
  let cellHeight := inject_Z (cheight canvas) / inject_Z (tcy grid) in
  (specTileStart tileX cellWidth <= x
   < specTileEnd tileX cellWidth (cwidth canvas))%Z
  /\ (specTileStart tileY cellHeight <= y
      < specTileEnd tileY cellHeight (cheight canvas))%Z.

(** A canvas five pixels wide and one pixel high whose only ink is the
    pixel at [x = 3], and a grid of three tiles across it. *)
Definition fivePixelCanvas : Canvas :=
  {| cwidth := 5; cheight := 1;
     pixels := [0; 0; 0; 0;  0; 0; 0; 0;  0; 0; 0; 0;
                0; 0; 0; 255;  0; 0; 0; 0]%N |}.
Definition threeTiles : TileCount := {| tcx := 3; tcy := 1 |}.

(** Equality of colours, channel by channel. *)
Definition vec4_eq (a b : vec4) : Prop :=
  cr a == cr b /\ cg a == cg b /\ cb a == cb b /\ ca a == ca b.

(** ** The per-tile schedule as the specification words it *)
Section TileSchedule.

Variables allTilesFlipDuration singleTileFlipDuration invertThreshold : Q.

Definition spec_flipWindowStart (r : Q) : Q :=
  r * (allTilesFlipDuration - singleTileFlipDuration)
  / allTilesFlipDuration.

Definition spec_flipWindowEnd (r : Q) : Q :=
  spec_flipWindowStart r + singleTileFlipDuration / allTilesFlipDuration.

Definition spec_flipAmount (r p : Q) : Q :=
  smoothstep (spec_flipWindowStart r) (spec_flipWindowEnd r) p.

Definition spec_invert (r p presenceSource presenceTarget : Q) : Q :=
  step invertThreshold r * spec_flipAmount r p
  * Math_max presenceSource presenceTarget.

(** Black with the alpha flipped when [invert] exceeds 0.5, then the
    linear blend toward the target by [flipAmount]. *)
Definition spec_finalColor (r p : Q) (source target : vec4)
    (presenceSource presenceTarget : Q) : vec4 :=
  let source' :=
    if spec_invert r p presenceSource presenceTarget >? 0.5 then
      {| cr := 0; cg := 0; cb := 0; ca := 1 - ca source |}
    else source in
  mix source' target (spec_flipAmount r p).

End TileSchedule.

(** The progress local to a flip phase that starts [phaseStart] seconds
    into a timeline of [total] seconds and lasts [allTilesFlip] seconds,
    when the progress over the whole timeline is [progress]. *)
Definition spec_phaseLocal (total phaseStart allTilesFlip progress : Q) : Q :=
  (progress * total - phaseStart) / allTilesFlip.

(** ** Resize coalescing *)

(** The [resize] calls of a trace come in a burst: each is made less than
    [debounce] milliseconds after the one before it.  [clock] is the
    host's time where the trace starts, [last] the time of the latest
    [resize] before it. *)
Fixpoint burst (debounce clock last : Q) (trace : list Event) : Prop :=
  match trace with
  | [] => True
  | Tick t :: rest => burst debounce t last rest
  | Resize _ _ :: rest =>
    clock - last < debounce /\ burst debounce clock clock rest
  | _ :: rest => burst debounce clock last rest
  end.

(** The size passed to the last [resize] of a trace ([size] if none). *)
Fixpoint lastResize (size : Dim) (trace : list Event) : Dim :=
  match trace with
  | [] => size
  | Resize width height :: rest =>
    lastResize {| dx := width; dy := height |} rest
  | _ :: rest => lastResize size rest
  end.

(** How many timer callbacks, each one regeneration of the textures and
    presence masks, a trace runs. *)
Fixpoint regenerations (trace : list Event) : nat :=
  match trace with
  | [] => O
  | Timeout _ :: rest => S (regenerations rest)
  | _ :: rest => regenerations rest
  end.

(** The textures, presence masks and tile grid of [this] are those of
    [this0]: nothing was regenerated in between. *)
Definition sameTextures (this this0 : GlitchText) : Prop :=
  uTexA (uniforms this) = uTexA (uniforms this0)
  /\ uTexB (uniforms this) = uTexB (uniforms this0)
  /\ uTexC (uniforms this) = uTexC (uniforms this0)
  /\ uPresenceA (uniforms this) = uPresenceA (uniforms this0)
  /\ uPresenceB (uniforms this) = uPresenceB (uniforms this0)
  /\ uPresenceC (uniforms this) = uPresenceC (uniforms this0)
  /\ uTiles (uniforms this) = uTiles (uniforms this0)
  /\ this_tiles this = this_tiles this0.

(** The grid that a regeneration for [size] uses, given the grid before. *)
Definition settledGrid (this0 : GlitchText) (size : Dim) : TileCount :=
  if useTileDimensions this0
  then calculateTiles (config this0) (dx size) (dy size)
  else this_tiles this0.

Section Regenerated.

Variable drawText : string -> Q -> string -> Q -> Q -> Canvas.

(** The three textures and the three presence masks of [this] are the
    ones generated for [size], the masks on the grid [settledGrid],
    which is also the grid the engine and the shader now use. *)
Definition regeneratedAt (this0 this : GlitchText) (size : Dim) : Prop :=
  let grid := settledGrid this0 size in
  let canvas text :=
    createTextCanvas drawText (config this0) text (dx size) (dy size) in
  image (uTexA (uniforms this)) = canvas (textA (config this0))
  /\ image (uTexB (uniforms this)) = canvas (textB (config this0))
  /\ image (uTexC (uniforms this)) = canvas (textC (config this0))
  /\ data (uPresenceA (uniforms this))
     = presenceData grid (canvas (textA (config this0)))
  /\ data (uPresenceB (uniforms this))
     = presenceData grid (canvas (textB (config this0)))
  /\ data (uPresenceC (uniforms this))
     = presenceData grid (canvas (textC (config this0)))
  /\ this_tiles this = grid
  /\ uTiles (uniforms this) = grid.

End Regenerated.

(** The part of an engine that frames and [setHover] leave alone. *)
Definition view (this : GlitchText) :=
  (renderer this, uResolution (uniforms this),
   (uTexA (uniforms this), uTexB (uniforms this), uTexC (uniforms this)),
   (uPresenceA (uniforms this), uPresenceB (uniforms this),
    uPresenceC (uniforms this)),
   (uTiles (uniforms this), this_tiles this),
   (config this, useTileDimensions this, resizeTimeout this)).

(** Traces made of what the host does on its own: no call of [setHover]
    or [resize] by the page. *)
Definition isApiCall (ev : Event) : Prop :=
  match ev with
  | SetHover _ | Resize _ _ => True
  | _ => False
  end.
Definition noApiCall (trace : list Event) : Prop :=
  ~ exists ev, In ev trace /\ isApiCall ev.

(** Traces in which the page does not call [setHover], and traces in
    which it does not call [setHover(true)]. *)
Definition noSetHover (trace : list Event) : Prop :=
  forall hover, ~ In (SetHover hover) trace.
Definition noHoverEnter (trace : list Event) : Prop :=
  ~ In (SetHover true) trace.

(** The timeline at rest on text A: nothing elapsed, progress 0. *)
Definition atStart (this : GlitchText) : Prop :=
  totalElapsedTime this == 0
  /\ morphProgress this == 0
  /\ uMorphProgress (uniforms this) == 0.

(** ** What holds of every state of a live engine *)

(** The nine GPU objects an engine holds. *)
Definition handles (this : GlitchText) : list nat :=
  [ textureId (uTexA (uniforms this));
    textureId (uTexB (uniforms this));
    textureId (uTexC (uniforms this));
    dataTextureId (uPresenceA (uniforms this));
    dataTextureId (uPresenceB (uniforms this));
    dataTextureId (uPresenceC (uniforms this));
    rendererId (renderer this);
    material this;
    geometry this ].

Record Inv (s : GlitchText * Host) : Prop := {
  inv_valid : validateConfig (config (fst s)) = Ok tt;
  inv_uniforms :
    uInitialWaitDuration (uniforms (fst s))
      = initialWaitDuration (config (fst s))
    /\ uAllTilesFlipDuration (uniforms (fst s))
      = allTilesFlipDuration (config (fst s))
    /\ uSingleTileFlipDuration (uniforms (fst s))
      = singleTileFlipDuration (config (fst s))
    /\ uWaitBetweenFlipsDuration (uniforms (fst s))
      = waitBetweenFlipsDuration (config (fst s))
    /\ uFinalWaitDuration (uniforms (fst s))
      = finalWaitDuration (config (fst s))
    /\ uInvertThreshold (uniforms (fst s))
      = invertThreshold (config (fst s));
  inv_elapsed_lo : 0 <= totalElapsedTime (fst s);
  inv_elapsed_hi :
    totalElapsedTime (fst s) <= totalDuration (config (fst s))
    \/ totalElapsedTime (fst s) == 0;
  inv_progress :
    morphProgress (fst s)
    == totalElapsedTime (fst s) / totalDuration (config (fst s));
  inv_uprogress : uMorphProgress (uniforms (fst s)) = morphProgress (fst s);
  inv_direction :
    direction (fst s) = 0%Z \/ direction (fst s) = 1%Z
    \/ direction (fst s) = (-1)%Z;
  inv_idle :
    direction (fst s) = 0%Z ->
    totalElapsedTime (fst s) = 0 /\ morphProgress (fst s) = 0;
  inv_clock : lastFrameTime (fst s) <= now (snd s);
  inv_frame :
    animationFrame (fst s) = pendingFrame (snd s)
    /\ pendingFrame (snd s) <> None;
  inv_timers :
    pendingTimers (snd s) = []
    \/ exists t, pendingTimers (snd s) = [t]
                 /\ resizeTimeout (fst s) = Some (timerId t)
                 /\ timerId t <> 0%nat;
  inv_nextTimer : nextTimer (snd s) <> 0%nat;
  inv_layout :
    exists k : nat,
      textureId (uTexA (uniforms (fst s))) = k
      /\ textureId (uTexB (uniforms (fst s))) = (k + 1)%nat
      /\ textureId (uTexC (uniforms (fst s))) = (k + 2)%nat
      /\ dataTextureId (uPresenceA (uniforms (fst s))) = (k + 3)%nat
      /\ dataTextureId (uPresenceB (uniforms (fst s))) = (k + 4)%nat
      /\ dataTextureId (uPresenceC (uniforms (fst s))) = (k + 5)%nat
      /\ (rendererId (renderer (fst s)) < material (fst s)
          < geometry (fst s))%nat
      /\ (rendererId (renderer (fst s)) < k)%nat
      /\ (geometry (fst s) < k \/ k + 5 < material (fst s))%nat
      /\ (k + 5 < nextObject (snd s))%nat
      /\ (geometry (fst s) < nextObject (snd s))%nat;
  inv_live :
    Forall (fun id => ~ In id (disposed (snd s))) (handles (fst s));
  inv_disposed :
    Forall (fun id => (id < nextObject (snd s))%nat) (disposed (snd s));
  inv_tiles : uTiles (uniforms (fst s)) = this_tiles (fst s);
  inv_mode :
    useTileDimensions (fst s) = isSome (tileDimensions (config (fst s)));
  inv_grid :
    (1 <= tcx (this_tiles (fst s)))%Z /\ (1 <= tcy (this_tiles (fst s)))%Z
}.

(** The state of a burst: [size] is what the latest [resize] asked for
    and what the renderer and the resolution uniform already hold; either
    no regeneration has run since the burst began ([count = 0]), the
    textures are still those of [this0] and the one pending timer is that
    of the latest [resize], due [debounce] after it at [last]; or that
    timer has fired ([count = 1]), nothing is pending, and the textures
    are the ones regenerated for [size]. *)
Definition Coalescing drawText (this0 : GlitchText) (h0 : Host)
    (last : Q) (size : Dim) (count : nat) (s : GlitchText * Host) : Prop :=
  Inv s
  /\ config (fst s) = config this0
  /\ useTileDimensions (fst s) = useTileDimensions this0
  /\ rendererSize (renderer (fst s)) = size
  /\ uResolution (uniforms (fst s)) = size
  /\ ((count = 0%nat
       /\ (exists t, pendingTimers (snd s) = [t]
                     /\ timerWidth t = dx size /\ timerHeight t = dy size
                     /\ due t == last + resizeDebounceMs (config this0)
                     /\ resizeTimeout (fst s) = Some (timerId t))
       /\ nextObject (snd s) = nextObject h0
       /\ sameTextures (fst s) this0)
      \/ (count = 1%nat
          /\ pendingTimers (snd s) = []
          /\ last + resizeDebounceMs (config this0) <= now (snd s)
          /\ nextObject (snd s) = (nextObject h0 + 6)%nat
          /\ regeneratedAt drawText this0 (fst s) size)).

(* ================================================================== *)
(** * Further notions *)

(** A number, and every channel of a colour, in [0, 1]. *)
Definition inUnit (x : Q) : Prop := 0 <= x <= 1.
Definition unitColor (c : vec4) : Prop :=
  inUnit (cr c) /\ inUnit (cg c) /\ inUnit (cb c) /\ inUnit (ca c).

(** The position of an arm in the [if / else if] chain. *)
Definition phaseIndex (p : Phase) : nat :=
  match p with
  | InitialWait => 0 | FlipAB => 1 | WaitBetween => 2 | FlipBC => 3
  | FinalWait => 4
  end.

(** The uniforms with [uMorphProgress] set to [progress]. *)
Definition withProgress (u : Uniforms) (progress : Q) : Uniforms :=
  setFrameUniforms u (uTime u) progress.

(** The arm of the chain read off the elapsed seconds. *)
Definition phaseAt (config : GlitchTextConfig) (elapsed : Q) : Phase :=
  let iw := initialWaitDuration config in
  let atf := allTilesFlipDuration config in
  let wb := waitBetweenFlipsDuration config in
  if elapsed <? iw then InitialWait
  else if elapsed <? iw + atf then FlipAB
  else if elapsed <? iw + atf + wb then WaitBetween
  else if elapsed <? iw + atf + wb + atf then FlipBC
  else FinalWait.

(** Pixel coordinate [x] lies in cell [i] of [n] equal cells of [0, 1). *)
Definition inCell (n i : Z) (x : Q) : Prop :=
  inject_Z i / inject_Z n <= x < (inject_Z i + 1) / inject_Z n.

(** The direction that [setHover(hover)] asks for. *)
Definition hoverDirection (hover : bool) : Z := if hover then 1%Z else (-1)%Z.

(** The direction that the last [setHover] call of a trace asks for
    ([d] if there is none). *)
Fixpoint lastHover (d : Z) (trace : list Event) : Z :=
  match trace with
  | [] => d
  | SetHover hover :: rest => lastHover (if hover then 1 else -1)%Z rest
  | _ :: rest => lastHover d rest
  end.

(** How many animation-frame callbacks a trace runs. *)
Fixpoint countFrames (trace : list Event) : nat :=
  match trace with
  | [] => O
  | Frame :: rest => S (countFrames rest)
  | _ :: rest => countFrames rest
  end.

(** The presence mask [p] is the mask of the canvas behind the text
    texture [t], taken on [grid]. *)
Definition maskOf (grid : TileCount) (t : Texture) (p : DataTexture) : Prop :=
  data p = presenceData grid (image t)
  /\ dataWidth p = tcx grid /\ dataHeight p = tcy grid.

Section Coherence.

Variable drawText : string -> Q -> string -> Q -> Q -> Canvas.

(** Grid, text textures and presence masks of [this] all belong to the
    canvas size [width] x [height]. *)
Definition coherentAt (this : GlitchText) (width height : Q) : Prop :=
  let u := uniforms this in
  let grid := calculateTiles (config this) width height in
  let canvas text :=
    createTextCanvas drawText (config this) text width height in
  this_tiles this = grid /\ uTiles u = grid
  /\ image (uTexA u) = canvas (textA (config this))
  /\ image (uTexB u) = canvas (textB (config this))
  /\ image (uTexC u) = canvas (textC (config this))
  /\ maskOf grid (uTexA u) (uPresenceA u)
  /\ maskOf grid (uTexB u) (uPresenceB u)
  /\ maskOf grid (uTexC u) (uPresenceC u).

End Coherence.

(** Every GPU object created so far is one the engine holds or one that
    was disposed, and nothing was disposed twice. *)
Definition accounted (s : GlitchText * Host) : Prop :=
  NoDup (disposed (snd s))
  /\ forall id, (id < nextObject (snd s))%nat ->
       In id (handles (fst s)) \/ In id (disposed (snd s)).

(** The six texture handles of an engine, in the order of [handles]. *)
Definition textureHandles (this : GlitchText) : list nat :=
  firstn 6 (handles this).

(** Options that give the three texts and leave every other key out. *)
Definition textsOnly (a b c : string) : GlitchTextOptions :=
  {| o_textA := a; o_textB := b; o_textC := c;
     o_tiles := None; o_fontFamily := None; o_tileDimensions := None;
     o_initialWaitDuration := None; o_allTilesFlipDuration := None;
     o_singleTileFlipDuration := None; o_waitBetweenFlipsDuration := None;
     o_finalWaitDuration := None; o_invertThreshold := None;
     o_resizeDebounceMs := None |}.

(* ================================================================== *)
(** * A concrete engine *)

(** A browser that draws nothing: every text canvas is 2 x 2 transparent
    pixels. *)
Definition blankText (family : string) (size : Q) (text : string)
    (width height : Q) : Canvas :=
  {| cwidth := 2; cheight := 2; pixels := repeat 0%N 16 |}.

Definition smallCanvas : HTMLCanvasElement :=
  {| clientWidth := 16; clientHeight := 16 |}.

(** The options of the site's footer: three texts, every default. *)
Definition footerOptions : GlitchTextOptions :=
  {| o_textA := "Schastlivyy"; o_textB := "Schastliv"; o_textC := "happy";
     o_tiles := None; o_fontFamily := None; o_tileDimensions := None;
     o_initialWaitDuration := None; o_allTilesFlipDuration := None;
     o_singleTileFlipDuration := None; o_waitBetweenFlipsDuration := None;
     o_finalWaitDuration := None; o_invertThreshold := None;
     o_resizeDebounceMs := None |}.

(** The same options with explicit tile counts and nothing said about
    [tileDimensions]. *)
Definition tilesOnlyOptions : GlitchTextOptions :=
  {| o_textA := "Schastlivyy"; o_textB := "Schastliv"; o_textC := "happy";
     o_tiles := Some {| tcx := 4; tcy := 4 |};
     o_fontFamily := None; o_tileDimensions := None;
     o_initialWaitDuration := None; o_allTilesFlipDuration := None;
     o_singleTileFlipDuration := None; o_waitBetweenFlipsDuration := None;
     o_finalWaitDuration := None; o_invertThreshold := None;
     o_resizeDebounceMs := None |}.

(** The engine and host of a construction that did not throw. *)
Definition constructed (r : result GlitchText * Host)
  : match fst r with
    | Ok _ => (GlitchText * Host)%type
    | Throw _ => unit
    end :=
  match r with
  | (Ok this, h) => (this, h)
  | (Throw _, _) => tt
  end.

(** [new GlitchText(smallCanvas, footerOptions)] at time 0. *)
Definition footerEngine : GlitchText * Host :=
  Eval vm_compute in
    constructed (constructor blankText smallCanvas footerOptions (newHost 0)).

(** The footer engine after a trace (itself, should the trace not run). *)
Definition footerAfter (trace : list Event) : GlitchText * Host :=
  match run blankText trace footerEngine with
  | Some s => s
  | None => footerEngine
  end.

(** A GPU whose [sin] is 0 and whose texture fetches all return
    transparent black. *)
Definition flatSin (x : Q) : Q := 0.
Definition clearTexture (t : Texture) (uv : vec2) : vec4 :=
  {| cr := 0; cg := 0; cb := 0; ca := 0 |}.
Definition clearData (t : DataTexture) (uv : vec2) : vec4 :=
  {| cr := 0; cg := 0; cb := 0; ca := 0 |}.
Definition centre : vec2 := {| vx := 0.5; vy := 0.5 |}.

(** A presence fetch that finds ink everywhere. *)
Definition inkData (t : DataTexture) (uv : vec2) : vec4 :=
  {| cr := 1; cg := 0; cb := 0; ca := 1 |}.

(** Explicit tile counts, with [tileDimensions] passed as [undefined]. *)
Definition explicitTilesOptions : GlitchTextOptions :=
  withTileDimensions tilesOnlyOptions (Some None).

Definition tilesEngine : GlitchText * Host :=
  Eval vm_compute in
    constructed
      (constructor blankText smallCanvas explicitTilesOptions (newHost 0)).

(** An initial wait of minus two seconds, which makes the total negative. *)
Definition negativeWaitOptions : GlitchTextOptions :=
  {| o_textA := "Schastlivyy"; o_textB := "Schastliv"; o_textC := "happy";
     o_tiles := None; o_fontFamily := None; o_tileDimensions := None;
     o_initialWaitDuration := Some (-2); o_allTilesFlipDuration := None;
     o_singleTileFlipDuration := None; o_waitBetweenFlipsDuration := None;
     o_finalWaitDuration := None; o_invertThreshold := None;
     o_resizeDebounceMs := None |}.

Definition negativeEngine : GlitchText * Host :=
  Eval vm_compute in
    constructed
      (constructor blankText smallCanvas negativeWaitOptions (newHost 0)).

(** A glyph box ten units wide and twenty high. *)
Definition tallBox : Favicon.BoundingBox :=
  {| Favicon.x1 := 1; Favicon.y1 := -15; Favicon.x2 := 11; Favicon.y2 := 5 |}.

(* ================================================================== *)
(** * IEEE arithmetic *)

(** The numbers of the engine are binary64 on the JavaScript side and, for
    a GPU that gives [highp float] the IEEE single format with correctly
    rounded operations, binary32 in the shader.  The definitions below
    redo in those formats, on the standard library's executable model of
    IEEE arithmetic, the two computations of the timeline example, the
    advance of the timeline in [animate], and the presence scan. *)
Module IEEE.

Record Format := { prec : Z; emax : Z }.
Definition binary64 : Format := {| prec := 53; emax := 1024 |}.
Definition binary32 : Format := {| prec := 24; emax := 128 |}.

Definition add (f : Format) := SFadd (prec f) (emax f).
Definition mul (f : Format) := SFmul (prec f) (emax f).
Definition div (f : Format) := SFdiv (prec f) (emax f).
Definition ltb : spec_float -> spec_float -> bool := SFltb.

Definition ofZ (f : Format) (n : Z) : spec_float :=
  binary_normalize (prec f) (emax f) n 0 false.

(** The decimal literal [n / d], [d] a power of ten: the float nearest to
    the quotient. *)
Definition literal (f : Format) (n d : Z) : spec_float :=
  div f (ofZ f n) (ofZ f d).

(** A [number] handed to the GPU as a [float] uniform. *)
Definition toSingle (x : spec_float) : spec_float :=
  match x with
  | S754_finite s m e => binary_round (prec binary32) (emax binary32) s m e
  | _ => x
  end.

(** [get totalDuration] *)
Definition totalDuration
    (initialWait allTilesFlip waitBetweenFlips finalWait : spec_float)
  : spec_float :=
  add binary64
    (add binary64
       (add binary64 (add binary64 initialWait allTilesFlip)
            waitBetweenFlips)
       allTilesFlip)
    finalWait.

(** [this.totalElapsedTime / this.totalDuration] *)
Definition morphProgress (elapsed total : spec_float) : spec_float :=
  div binary64 elapsed total.

(** The shader's [totalDuration], [initialWaitEnd] and [flipABEnd]. *)
Definition shaderTotalDuration
    (uInitialWait uAllTilesFlip uWaitBetweenFlips uFinalWait : spec_float)
  : spec_float :=
  add binary32
    (add binary32
       (add binary32 uInitialWait
            (mul binary32 (ofZ binary32 2) uAllTilesFlip))
       uWaitBetweenFlips)
    uFinalWait.

Definition initialWaitEnd (uInitialWait total : spec_float) : spec_float :=
  div binary32 uInitialWait total.

Definition flipABEnd (uInitialWait uAllTilesFlip total : spec_float)
  : spec_float :=
  div binary32 (add binary32 uInitialWait uAllTilesFlip) total.

(** The first two tests of the [if / else if] chain select the flip
    A-to-B arm. *)
Definition selectsFlipAB (morphProgress initialWaitEnd flipABEnd : spec_float)
  : bool :=
  negb (ltb morphProgress initialWaitEnd) && ltb morphProgress flipABEnd.

Definition sub (f : Format) := SFsub (prec f) (emax f).
Definition leb : spec_float -> spec_float -> bool := SFleb.
Definition eqb : spec_float -> spec_float -> bool := SFeqb.

(** [Math.max] and [Math.min] of two numbers: [NaN] if either is, and
    [+0] above [-0]. *)
Definition max (x y : spec_float) : spec_float :=
  match SFcompare x y with
  | None => S754_nan
  | Some Lt => y
  | Some Gt => x
  | Some Eq => match x with S754_zero true => y | _ => x end
  end.

Definition min (x y : spec_float) : spec_float :=
  match SFcompare x y with
  | None => S754_nan
  | Some Lt => x
  | Some Gt => y
  | Some Eq => match x with S754_zero false => y | _ => x end
  end.

(** [(currentTime - this.lastFrameTime) / 1000] *)
Definition deltaTime (currentTime lastFrameTime : spec_float) : spec_float :=
  div binary64 (sub binary64 currentTime lastFrameTime) (ofZ binary64 1000).

(** The body of [if (this.direction !== 0)] in [animate]: the new
    [totalElapsedTime] and the new [morphProgress]. *)
Definition advance (elapsed deltaTime direction total : spec_float)
  : spec_float * spec_float :=
  let elapsed := add binary64 elapsed (mul binary64 deltaTime direction) in
  let elapsed := max (ofZ binary64 0) (min total elapsed) in
  (elapsed, div binary64 elapsed total).

(** [0 <= x && x <= 1], which is false of [NaN]. *)
Definition inUnitInterval (x : spec_float) : bool :=
  leb (ofZ binary64 0) x && leb x (ofZ binary64 1).

(** [Math.floor] and [Math.ceil]; [None] stands for a result that is not
    a finite number. *)
Definition floor (x : spec_float) : option Z :=
  match x with
  | S754_zero _ => Some 0%Z
  | S754_finite s m e => Some (Z.shiftl (if s then Zneg m else Zpos m) e)
  | _ => None
  end.

Definition ceil (x : spec_float) : option Z :=
  match floor (SFopp x) with
  | Some n => Some (- n)%Z
  | None => None
  end.

(** [Math.floor(width / tileDimensions.x)] of [calculateTiles]. *)
Definition tilesAlong (extent tileDimension : spec_float) : option Z :=
  floor (div binary64 extent tileDimension).

(** [scanTileForText] with its numbers in binary64: the tile sizes and
    the products [tileX * tileWidth] and [tileY * tileHeight] are
    rounded; the pixel indices are whole numbers.  A loop whose bound is
    not a finite number runs no iteration. *)
Definition scanTileForText (pixels : list N) (canvasWidth canvasHeight : Z)
    (tileX tileY : Z) (tileWidth tileHeight : spec_float) : bool :=
  match floor (mul binary64 (ofZ binary64 tileX) tileWidth),
        floor (mul binary64 (ofZ binary64 tileY) tileHeight),
        ceil tileWidth, ceil tileHeight with
  | Some startX, Some startY, Some ceilWidth, Some ceilHeight =>
    let endX := Z.min (startX + ceilWidth) canvasWidth in
    let endY := Z.min (startY + ceilHeight) canvasHeight in
    existsb (fun y =>
      existsb (fun x =>
        let index := ((y * canvasWidth + x) * 4)%Z in
        let alpha := readPixel pixels (index + 3) in
        isPositive alpha)
        (zrange startX endX))
      (zrange startY endY)
  | _, _, _, _ => false
  end.

(** The [presenceData] of [createPresenceTexture] with
    [tileWidth = width / this.tiles.x] and
    [tileHeight = height / this.tiles.y] in binary64. *)
Definition presenceData (tiles : TileCount) (canvas : Canvas) : list N :=
  let width := cwidth canvas in
  let height := cheight canvas in
  let tileWidth :=
    div binary64 (ofZ binary64 width) (ofZ binary64 (tcx tiles)) in
  let tileHeight :=
    div binary64 (ofZ binary64 height) (ofZ binary64 (tcy tiles)) in
  fold_left (fun data tileY =>
    fold_left (fun data tileX =>
      let hasText :=
        scanTileForText (pixels canvas) width height
                        tileX tileY tileWidth tileHeight in
      arraySet data (Z.to_nat (tileY * tcx tiles + tileX))
               (if hasText then 255%N else 0%N))
      (zrange 0 (tcx tiles)) data)
    (zrange 0 (tcy tiles))
    (repeat 0%N (Z.to_nat (tcx tiles * tcy tiles))).

(** The pixel rectangle that the binary64 scan walks along one axis. *)
Definition cellSize (extent count : Z) : spec_float :=
  div binary64 (ofZ binary64 extent) (ofZ binary64 count).

Definition tileStart (tileIndex : Z) (cellSize : spec_float) : option Z :=
  floor (mul binary64 (ofZ binary64 tileIndex) cellSize).

Definition tileEnd (tileIndex : Z) (cellSize : spec_float)
    (surfaceExtent : Z) : option Z :=
  match tileStart tileIndex cellSize, ceil cellSize with
  | Some start, Some size => Some (Z.min (start + size) surfaceExtent)
  | _, _ => None
  end.

(** A number whose sign bit is clear, or [NaN]. *)
Definition notNegative (x : spec_float) : Prop :=
  match x with
  | S754_zero s | S754_infinity s | S754_finite s _ _ => s = false
  | S754_nan => True
  end.

End IEEE.

(* ================================================================== *)
(** * Further notions over binary64 *)

(** Pixel [(x, y)] lies in the rectangle that the binary64
    [scanTileForText] walks for tile [(tileX, tileY)] of [grid] on
    [canvas]; a rectangle with a bound that is not a finite number holds
    no pixel. *)
Definition inBinary64Rect (grid : TileCount) (canvas : Canvas)
    (tileX tileY x y : Z) : Prop :=
  let tileWidth := IEEE.cellSize (cwidth canvas) (tcx grid) in
  let tileHeight := IEEE.cellSize (cheight canvas) (tcy grid) in
  exists startX endX startY endY,
    IEEE.tileStart tileX tileWidth = Some startX
    /\ IEEE.tileEnd tileX tileWidth (cwidth canvas) = Some endX
    /\ IEEE.tileStart tileY tileHeight = Some startY
    /\ IEEE.tileEnd tileY tileHeight (cheight canvas) = Some endY
    /\ (startX <= x < endX)%Z /\ (startY <= y < endY)%Z.

(** Waits of -1.5, 0.25 and 0.25 seconds around the default flips of
    half a second: [validateConfig] does not look at the waits, and the
    total is 0. *)
Definition zeroTotalOptions : GlitchTextOptions :=
  {| o_textA := "Schastlivyy"; o_textB := "Schastliv"; o_textC := "happy";
     o_tiles := None; o_fontFamily := None; o_tileDimensions := None;
     o_initialWaitDuration := Some (-1.5); o_allTilesFlipDuration := None;
     o_singleTileFlipDuration := None;
     o_waitBetweenFlipsDuration := Some 0.25;
     o_finalWaitDuration := Some 0.25; o_invertThreshold := None;
     o_resizeDebounceMs := None |}.

Definition zeroTotalEngine : GlitchText * Host :=
  Eval vm_compute in
    constructed
      (constructor blankText smallCanvas zeroTotalOptions (newHost 0)).

(** The same timeline in binary64. *)
Definition zeroTotal64 : spec_float :=
  IEEE.totalDuration (IEEE.literal IEEE.binary64 (-15) 10)
    (IEEE.literal IEEE.binary64 5 10) (IEEE.literal IEEE.binary64 25 100)
    (IEEE.literal IEEE.binary64 25 100).

(** An initial wait of minus a tenth of a second. *)
Definition earlyFlipOptions : GlitchTextOptions :=
  {| o_textA := "Schastlivyy"; o_textB := "Schastliv"; o_textC := "happy";
     o_tiles := None; o_fontFamily := None; o_tileDimensions := None;
     o_initialWaitDuration := Some (-0.1); o_allTilesFlipDuration := None;
     o_singleTileFlipDuration := None; o_waitBetweenFlipsDuration := None;
     o_finalWaitDuration := None; o_invertThreshold := None;
     o_resizeDebounceMs := None |}.

Definition earlyFlipEngine : GlitchText * Host :=
  Eval vm_compute in
    constructed
      (constructor blankText smallCanvas earlyFlipOptions (newHost 0)).

(** A texture fetch that tells the textures apart: the red channel is the
    handle of the texture read. *)
Definition byTexture (t : Texture) (uv : vec2) : vec4 :=
  {| cr := inject_Z (Z.of_nat (textureId t)); cg := 0; cb := 0; ca := 1 |}.

(** The default timeline, in binary64. *)
Definition defaultTotal64 : spec_float :=
  IEEE.totalDuration (IEEE.literal IEEE.binary64 2 10)
    (IEEE.literal IEEE.binary64 5 10) (IEEE.literal IEEE.binary64 3 10)
    (IEEE.literal IEEE.binary64 2 10).

(* ================================================================== *)
(** * Comparison and rounding lemmas *)

Lemma Qltb_lt x y : (x <? y) = true <-> x < y.
Proof.
  unfold Qltb. rewrite negb_true_iff.
  split; intro H.
  - apply Qnot_le_lt. intro Hle. apply Qle_bool_iff in Hle. congruence.
  - destruct (Qle_bool y x) eqn:E; [|reflexivity].
    apply Qle_bool_iff in E. lra.
Qed.

Lemma Qltb_ge x y : (x <? y) = false <-> y <= x.
Proof.
  unfold Qltb. rewrite negb_false_iff. apply Qle_bool_iff.
Qed.

Lemma Qleb_le x y : (x <=? y) = true <-> x <= y.
Proof. apply Qle_bool_iff. Qed.

Lemma Qleb_gt x y : (x <=? y) = false <-> y < x.
Proof.
  rewrite <- Qltb_lt. unfold Qltb, Qleb.
  destruct (Qle_bool x y); simpl; split; congruence.
Qed.

Lemma Qgtb_gt x y : (x >? y) = true <-> y < x.
Proof. apply Qltb_lt. Qed.

Lemma Qgtb_le x y : (x >? y) = false <-> x <= y.
Proof. apply Qltb_ge. Qed.

(** Case analysis on a comparison, with the fact that decided it. *)
Lemma Qltb_cases x y : {(x <? y) = true /\ x < y} + {(x <? y) = false /\ y <= x}.
Proof.
  destruct (x <? y) eqn:E; [left | right]; split; trivial.
  - now apply Qltb_lt.
  - now apply Qltb_ge.
Qed.

Lemma Qleb_cases x y : {(x <=? y) = true /\ x <= y} + {(x <=? y) = false /\ y < x}.
Proof.
  destruct (x <=? y) eqn:E; [left | right]; split; trivial.
  - now apply Qleb_le.
  - now apply Qleb_gt.
Qed.

Ltac qcases x y :=
  let E := fresh "E" in let H := fresh "H" in
  destruct (Qltb_cases x y) as [[E H] | [E H]]; rewrite ?E in *.

Ltac qlecases x y :=
  let E := fresh "E" in let H := fresh "H" in
  destruct (Qleb_cases x y) as [[E H] | [E H]]; rewrite ?E in *.

#[export] Instance Qltb_proper : Proper (Qeq ==> Qeq ==> eq) Qltb.
Proof.
  intros x x' Hx y y' Hy. unfold Qltb. now rewrite Hx, Hy.
Qed.

Lemma Math_max_spec x y :
  (x < y /\ Math_max x y = y) \/ (y <= x /\ Math_max x y = x).
Proof. unfold Math_max. qcases x y; auto. Qed.

Lemma Math_min_spec x y :
  (y < x /\ Math_min x y = y) \/ (x <= y /\ Math_min x y = x).
Proof. unfold Math_min. qcases y x; auto. Qed.

(* ================================================================== *)
(** * Configuration: what [validateConfig] refuses *)

Lemma validateConfig_throws_iff config :
  (exists e, validateConfig config = Throw e) <-> rejected config.
Proof.
  unfold validateConfig, rejected, Qgtb.
  qcases (allTilesFlipDuration config) (singleTileFlipDuration config).
  { split; eauto. }
  qlecases (allTilesFlipDuration config) 0.
  { split; eauto. }
  qlecases (singleTileFlipDuration config) 0.
  { split; eauto. }
  qcases (invertThreshold config) 0.
  { simpl. split; eauto 6. }
  qcases 1 (invertThreshold config).
  { simpl. split; eauto 6. }
  simpl.
  destruct (tiles config) as [t|] eqn:Et; simpl.
  - destruct (Z.ltb_spec (tcx t) 1); simpl.
    { split; eauto 10. }
    destruct (Z.ltb_spec (tcy t) 1); simpl.
    { split; eauto 10. }
    destruct (tileDimensions config) as [d|] eqn:Ed; simpl.
    + qlecases (dx d) 0; simpl.
      { split; eauto 12. }
      qlecases (dy d) 0; simpl.
      { split; eauto 12. }
      split; intros _; eauto.
      do 6 right. split; congruence.
    + split; [intros [e He]; discriminate|].
      intros [?|[?|[?|[[?|?]|[(t' & Ht' & Hlt)|[(d' & Hd' & _)|[_ Hn]]]]]]];
        try lra; try discriminate; try congruence.
      injection Ht' as <-. lia.
  - destruct (tileDimensions config) as [d|] eqn:Ed; simpl.
    + qlecases (dx d) 0; simpl.
      { split; eauto 12. }
      qlecases (dy d) 0; simpl.
      { split; eauto 12. }
      split; [intros [e He]; discriminate|].
      intros [?|[?|[?|[[?|?]|[(t' & Ht' & Hlt)|[(d' & Hd' & Hle)|[Hn _]]]]]]];
        try lra; try discriminate; try congruence.
      injection Hd' as <-. lra.
    + split; [intros [e He]; discriminate|].
      intros [?|[?|[?|[[?|?]|[(t' & Ht' & Hlt)|[(d' & Hd' & _)|[Hn _]]]]]]];
        try lra; try discriminate; try congruence.
Qed.

Lemma validateConfig_ok_or_throw config :
  validateConfig config = Ok tt \/ exists e, validateConfig config = Throw e.
Proof.
  destruct (validateConfig config) as [[]|e]; eauto.
Qed.

(** Symbolic execution of the engine's code: unfold the host calls, the
    methods and the field assignments, and reduce field reads. *)
Ltac run_code :=
  cbn [ bind ret createObject dispose requestAnimationFrame
        cancelAnimationFrame performance_now render setTimeout clearTimeout
        removeTimer withPendingFrame withPendingTimers withNow
        initRenderer createAllTextures createAllPresenceTextures
        createTextCanvases createTextTexture createPresenceTexture
        createUniforms animate resize resizeSettled updateTextures destroy
        truthyId
        setHover advance
        setTimeline setUniforms setDirection setLastFrameTime
        setAnimationFrame setResizeTimeout setTiles setRendererSize
        setFrameUniforms setGrid setTextures
        fst snd Z.eqb Pos.eqb
        now nextObject disposed nextFrame pendingFrame nextTimer
        pendingTimers drawCalls
        renderer uniforms material geometry morphProgress direction
        totalElapsedTime lastFrameTime animationFrame config resizeTimeout
        this_tiles useTileDimensions rendererId rendererSize
        uTime uMorphProgress uResolution uTexA uTexB uTexC
        uPresenceA uPresenceB uPresenceC uTiles
        uInitialWaitDuration uAllTilesFlipDuration uSingleTileFlipDuration
        uWaitBetweenFlipsDuration uFinalWaitDuration uInvertThreshold
        textureId image dataTextureId data dataWidth dataHeight
        timerId due timerWidth timerHeight handles ] in *.

Lemma validateConfig_durations config :
  validateConfig config = Ok tt ->
  0 < singleTileFlipDuration config <= allTilesFlipDuration config.
Proof.
  intro Hok.
  assert (Hnr : ~ rejected config).
  { intro Hr. apply validateConfig_throws_iff in Hr.
    destruct Hr as [e He]. congruence. }
  unfold rejected in Hnr. split.
  - apply Qnot_le_lt. intro H. apply Hnr. tauto.
  - apply Qnot_lt_le. intro H. apply Hnr. tauto.
Qed.

Lemma constructor_throw drawText canvas options h e :
  validateConfig (mergeOptions options) = Throw e ->
  constructor drawText canvas options h = (Throw e, h).
Proof.
  intro Hv. unfold constructor. now rewrite Hv.
Qed.

Lemma constructor_ok drawText canvas options h :
  validateConfig (mergeOptions options) = Ok tt ->
  exists this h',
    constructor drawText canvas options h = (Ok this, h')
    /\ config this = mergeOptions options
    /\ this_tiles this
       = calculateTiles (mergeOptions options)
                        (clientWidth canvas) (clientHeight canvas)
    /\ useTileDimensions this = isSome (tileDimensions (mergeOptions options)).
Proof.
  intro Hv. unfold constructor. rewrite Hv. run_code.
  eexists _, _. split; [reflexivity|]. repeat split.
Qed.

(** The boundary values of [invertThreshold] pass the range check. *)
Lemma invertThreshold_bounds_accepted config :
  invertThreshold config == 0 \/ invertThreshold config == 1 ->
  ~ (invertThreshold config < 0 \/ invertThreshold config > 1).
Proof. intros [H|H] [H'|H']; lra. Qed.

(** C7.  Options that carry [tiles] and leave the property
    [tileDimensions] out are always refused, because the merge fills in
    the default [{x: 8, y: 8}]; when nothing else is wrong with them (the
    same options with [tileDimensions: undefined] pass) the error is the
    one of the mutual-exclusion check.  Whenever construction succeeds
    with [tiles] given, [tileDimensions] was passed as [undefined], and
    the engine uses the given counts. *)
Theorem tiles_need_tileDimensions_undefined :
  forall drawText canvas options h t,
    o_tiles options = Some t ->
    (o_tileDimensions options = None ->
     exists e,
       constructor drawText canvas options h = (Throw e, h)
       /\ (validateConfig (mergeOptions (withTileDimensions options (Some None)))
           = Ok tt ->
           e = BothTilesAndTileDimensions))
    /\ (forall this h',
          constructor drawText canvas options h = (Ok this, h') ->
          o_tileDimensions options = Some None
          /\ this_tiles this = t /\ useTileDimensions this = false).
Proof.
  intros drawText canvas options h t Ht. split.
  - intro Hd.
    assert (Hcfg : tiles (mergeOptions options) = Some t
                   /\ tileDimensions (mergeOptions options)
                      = Some DEFAULTS.tileDimensions).
    { unfold mergeOptions; simpl. now rewrite Ht, Hd. }
    destruct Hcfg as [Hct Hcd].
    destruct (validateConfig_ok_or_throw (mergeOptions options))
      as [Hok | [e He]].
    + exfalso.
      assert (Hr : rejected (mergeOptions options)).
      { do 6 right. rewrite Hct, Hcd. split; discriminate. }
      apply validateConfig_throws_iff in Hr. destruct Hr as [e He].
      congruence.
    + exists e. split; [now apply constructor_throw|].
      revert He. unfold validateConfig.
      cbn [mergeOptions withTileDimensions
           singleTileFlipDuration allTilesFlipDuration invertThreshold
           tiles tileDimensions o_tiles o_tileDimensions
           o_singleTileFlipDuration o_allTilesFlipDuration o_invertThreshold].
      rewrite Ht, Hd.
      change (tileDimensionsNotPositive
                (spread (Some DEFAULTS.tileDimensions) None)) with false.
      cbn [spread tileDimensionsNotPositive isSome andb].
      repeat match goal with
             | |- context [if ?b then _ else _] => destruct b
             end;
        intros He Hok'; try discriminate Hok'; congruence.
  - intros this h' Hc.
    destruct (validateConfig_ok_or_throw (mergeOptions options))
      as [Hok | [e He]].
    2:{ rewrite (constructor_throw drawText canvas options h e He) in Hc.
        discriminate. }
    assert (Hnr : ~ rejected (mergeOptions options)).
    { intro Hr. apply validateConfig_throws_iff in Hr.
      destruct Hr as [e He]. congruence. }
    assert (Hd : o_tileDimensions options = Some None).
    { destruct (o_tileDimensions options) as [[d|]|] eqn:Ed; trivial;
        exfalso; apply Hnr; do 6 right; unfold mergeOptions; simpl;
        rewrite Ht, Ed; simpl; split; discriminate. }
    split; [exact Hd|].
    destruct (constructor_ok drawText canvas options h Hok)
      as (this0 & h0 & Hc0 & _ & Hgrid & Hmode).
    rewrite Hc0 in Hc. injection Hc as <- <-.
    rewrite Hgrid, Hmode. unfold calculateTiles, mergeOptions; simpl.
    rewrite Ht, Hd. simpl. auto.
Qed.

(* ================================================================== *)
(** * Every state of a live engine satisfies [Inv] *)

Ltac destruct_Inv H :=
  destruct H as [Hvalid Hunif Hlo Hhi Hprog Huprog Hdir Hidle Hclock Hframe
                 Htimers HnextTimer Hlayout Hlive Hdisposed Htiles Hmode
                 Hgrid];
  cbn [fst snd] in *.

Lemma clamp_elapsed T x :
  0 <= Math_max 0 (Math_min T x)
  /\ (Math_max 0 (Math_min T x) <= T \/ Math_max 0 (Math_min T x) == 0).
Proof.
  destruct (Math_min_spec T x) as [[H1 E1]|[H1 E1]];
  destruct (Math_max_spec 0 (Math_min T x)) as [[H2 E2]|[H2 E2]];
  rewrite E2; rewrite E1 in *; split; lra.
Qed.

Lemma fresh_not_disposed (n k : nat) (D : list nat) :
  Forall (fun id => (id < n)%nat) D -> (n <= k)%nat -> ~ In k D.
Proof.
  intros HD Hk Hin. rewrite Forall_forall in HD.
  specialize (HD k Hin). lia.
Qed.

Lemma Forall_lt_weaken (n n' : nat) (D : list nat) :
  Forall (fun id => (id < n)%nat) D -> (n <= n')%nat ->
  Forall (fun id => (id < n')%nat) D.
Proof.
  intros HD Hn. eapply Forall_impl; [|exact HD]. simpl. intros; lia.
Qed.

(** A validated configuration gives a grid of at least one tile each
    way. *)
Lemma calculateTiles_positive config width height :
  validateConfig config = Ok tt ->
  (1 <= tcx (calculateTiles config width height))%Z
  /\ (1 <= tcy (calculateTiles config width height))%Z.
Proof.
  intro Hok. unfold calculateTiles.
  destruct (tiles config) as [t|] eqn:Et.
  - assert (Hnr : ~ rejected config).
    { intro Hr. apply validateConfig_throws_iff in Hr.
      destruct Hr as [e He]. congruence. }
    unfold rejected in Hnr.
    split; apply Z.le_ngt; intro Hlt; apply Hnr;
      do 4 right; left; exists t; auto.
  - destruct (tileDimensions config); cbn [tcx tcy]; lia.
Qed.

Lemma Inv_constructor drawText canvas options t0 this h :
  constructor drawText canvas options (newHost t0) = (Ok this, h) ->
  Inv (this, h).
Proof.
  intro Hc.
  destruct (validateConfig_ok_or_throw (mergeOptions options)) as [Hok|[e He]].
  2:{ rewrite (constructor_throw drawText canvas options _ e He) in Hc.
      discriminate. }
  revert Hc. unfold constructor. rewrite Hok. unfold newHost. run_code.
  intro Hc. injection Hc as <- <-.
  constructor; unfold handles; run_code; auto.
  all: try lra.
  - repeat split; reflexivity.
  - unfold Qdiv. lra.
  - split; [reflexivity|discriminate].
  - exists 1%nat. repeat split; try reflexivity; lia.
  - repeat constructor; simpl; auto.
  - now apply calculateTiles_positive.
Qed.

Lemma Inv_animate this h :
  Inv (this, h) -> Inv (animate this (withPendingFrame None h)).
Proof.
  intros HInv. destruct_Inv HInv. run_code.
  destruct (Z.eqb_spec (direction this) 0) as [Hd|Hd].
  - constructor; unfold handles in *; run_code; auto.
    + lra.
    + split; [reflexivity|discriminate].
  - pose proof (clamp_elapsed (totalDuration (config this))
       (totalElapsedTime this
        + (now h - lastFrameTime this) / 1000 * inject_Z (direction this)))
      as [Hlo' Hhi'].
    constructor; unfold handles in *; run_code; auto.
    + reflexivity.
    + intro; contradiction.
    + lra.
    + split; [reflexivity|discriminate].
Qed.

Lemma Inv_tick this h t :
  Inv (this, h) -> now h <= t -> Inv (this, withNow t h).
Proof.
  intros HInv Ht. destruct_Inv HInv. run_code.
  constructor; unfold handles in *; run_code; auto. lra.
Qed.

Lemma Inv_setHover this h hover :
  Inv (this, h) -> Inv (setHover this hover, h).
Proof.
  intros HInv. destruct_Inv HInv. unfold setHover.
  destruct hover;
    [destruct (Z.eqb_spec 1 (direction this)) as [Hd|Hd]
    |destruct (Z.eqb_spec (-1) (direction this)) as [Hd|Hd]];
    constructor; unfold handles in *; run_code; auto;
    try (intro; discriminate).
Qed.

Lemma clearResizeTimeout_clears this h :
  (pendingTimers h = []
   \/ exists t, pendingTimers h = [t]
                /\ resizeTimeout this = Some (timerId t)
                /\ timerId t <> 0%nat) ->
  clearResizeTimeout this h = (tt, withPendingTimers [] h).
Proof.
  unfold clearResizeTimeout.
  intros [Hnil | (t & Ht & Hid & Hnz)].
  - destruct (truthyId (resizeTimeout this)); unfold clearTimeout, ret.
    + now rewrite Hnil.
    + destruct h; cbn in Hnil; subst; reflexivity.
  - rewrite Hid. destruct (timerId t) as [|n] eqn:En; [congruence|].
    cbn [truthyId]. unfold clearTimeout. rewrite Ht. cbn [filter].
    now rewrite En, Nat.eqb_refl.
Qed.

Lemma Inv_resize this h width height :
  Inv (this, h) -> Inv (resize this width height h).
Proof.
  intros HInv. destruct_Inv HInv. unfold resize, bind.
  rewrite clearResizeTimeout_clears by (run_code; exact Htimers).
  unfold setTimeout, ret. run_code.
  constructor; unfold handles in *; run_code; auto.
  right. eexists. split; [reflexivity|]. run_code. auto.
Qed.

Lemma findTimer_removeTimer this h id t :
  Inv (this, h) -> findTimer id h = Some t ->
  pendingTimers h = [t] /\ timerId t = id
  /\ pendingTimers (removeTimer id h) = [].
Proof.
  intros HInv Hf. destruct_Inv HInv. unfold findTimer in Hf.
  destruct Htimers as [Hnil | (t' & Ht & Hid & Hnz)].
  - rewrite Hnil in Hf. discriminate.
  - run_code. rewrite Ht in *. cbn [find filter] in *.
    destruct (Nat.eqb_spec (timerId t') id); [|discriminate].
    injection Hf as <-. auto.
Qed.

Lemma Inv_updateTextures drawText this h width height :
  Inv (this, h) -> Inv (updateTextures drawText this width height h).
Proof.
  intros HInv. destruct_Inv HInv. run_code.
  destruct Hlayout as
    (k & HA & HB & HC & HpA & HpB & HpC & Hrmg & Hrk & Hgm & Hk & Hg).
  assert (Hfresh : forall i, (nextObject h <= i)%nat -> ~ In i (disposed h))
    by (intros i Hi; now apply (fresh_not_disposed (nextObject h))).
  unfold handles in Hlive.
  repeat match goal with
         | H : Forall _ (_ :: _) |- _ =>
           let H1 := fresh "Hl" in let H2 := fresh in
           apply Forall_cons_iff in H; destruct H as [H1 H2]
         end.
  constructor; unfold handles in *; run_code; auto.
  - exists (nextObject h). repeat split; try lia.
  - rewrite HA, HB, HC, HpA, HpB, HpC.
    repeat (apply Forall_cons; [|]); try apply Forall_nil;
      cbn [In]; intro Hin;
      repeat (destruct Hin as [Hin|Hin]; [lia|]);
      try contradiction; (eapply Hfresh; [|exact Hin]; lia).
  - rewrite HA, HB, HC, HpA, HpB, HpC.
    repeat (apply Forall_cons; [lia|]).
    eapply Forall_lt_weaken; [exact Hdisposed|lia].
Qed.

Lemma Inv_resizeSettled drawText this h width height :
  Inv (this, h) -> Inv (resizeSettled drawText this width height h).
Proof.
  intro HInv. unfold resizeSettled.
  apply Inv_updateTextures.
  destruct (useTileDimensions this) eqn:Emode; [|exact HInv].
  destruct_Inv HInv.
  constructor; unfold handles in *; run_code; auto.
  now apply calculateTiles_positive.
Qed.

Lemma Inv_removeTimer this h id t :
  Inv (this, h) -> findTimer id h = Some t -> Inv (this, removeTimer id h).
Proof.
  intros HInv Hf.
  destruct (findTimer_removeTimer this h id t HInv Hf) as (_ & _ & Hrm).
  destruct_Inv HInv.
  constructor; unfold handles in *; cbn [fst snd]; auto.
Qed.

Lemma Some_inj {A} (a b : A) : Some a = Some b -> a = b.
Proof. congruence. Qed.

Lemma Inv_exec drawText ev s s' :
  Inv s -> exec drawText ev s = Some s' -> Inv s'.
Proof.
  destruct s as [this h]. intros HInv He.
  destruct ev as [t | | id | hover | width height]; cbn [exec] in He.
  - destruct (Qleb_cases (now h) t) as [[E H]|[E H]]; rewrite E in He;
      [|discriminate].
    apply Some_inj in He. subst s'. now apply Inv_tick.
  - destruct (pendingFrame h); [|discriminate].
    apply Some_inj in He. subst s'. now apply Inv_animate.
  - destruct (findTimer id h) as [t|] eqn:Hf; [|discriminate].
    destruct (due t <=? now h); [|discriminate].
    apply Some_inj in He. subst s'.
    apply Inv_resizeSettled. now apply (Inv_removeTimer this h id t).
  - apply Some_inj in He. subst s'. now apply Inv_setHover.
  - apply Some_inj in He. subst s'. now apply Inv_resize.
Qed.

Lemma reachable_Inv drawText s : reachable drawText s -> Inv s.
Proof.
  induction 1 as [canvas options t0 this h Hc | ev s s' _ IH He].
  - exact (Inv_constructor _ _ _ _ _ _ Hc).
  - exact (Inv_exec _ _ _ _ IH He).
Qed.

(* ================================================================== *)
(** * The timeline *)

Lemma Qdiv_le_mono a b T : 0 < T -> a <= b -> a / T <= b / T.
Proof.
  intros HT Hab. unfold Qdiv.
  apply Qmult_le_compat_r; [exact Hab|].
  apply Qlt_le_weak. now apply Qinv_lt_0_compat.
Qed.

Lemma Qdiv_zero T : 0 / T == 0.
Proof. unfold Qdiv. lra. Qed.

Lemma Qdiv_self T : ~ T == 0 -> T / T == 1.
Proof. intro HT. now field. Qed.

Lemma Qdiv_eq_one a T : ~ T == 0 -> a / T == 1 -> a == T.
Proof.
  intros HT H.
  assert (E : a == a / T * T) by (field; exact HT).
  rewrite E, H. lra.
Qed.

Lemma Qdiv_eq_zero a T : ~ T == 0 -> a / T == 0 -> a == 0.
Proof.
  intros HT H.
  assert (E : a == a / T * T) by (field; exact HT).
  rewrite E, H. lra.
Qed.

Lemma totalDuration_sum config :
  totalDuration config
  == initialWaitDuration config + 2 * allTilesFlipDuration config
     + waitBetweenFlipsDuration config + finalWaitDuration config.
Proof. unfold totalDuration. ring. Qed.

(** The shader computes the same total from its uniforms. *)
Lemma shaderTotalDuration_eq this h :
  Inv (this, h) ->
  shaderTotalDuration (uniforms this) == totalDuration (config this).
Proof.
  intro HInv. destruct_Inv HInv.
  destruct Hunif as (E1 & E2 & _ & E4 & E5 & _).
  unfold shaderTotalDuration.
  rewrite E1, E2, E4, E5, totalDuration_sum. ring.
Qed.

Lemma reachable_run drawText tr : forall s s',
  reachable drawText s -> run drawText tr s = Some s' ->
  reachable drawText s'.
Proof.
  induction tr as [|ev tr IH]; intros s s' Hs Hr; cbn [run] in Hr.
  - apply Some_inj in Hr. now subst.
  - destruct (exec drawText ev s) as [s1|] eqn:He; [|discriminate].
    eapply IH; [|exact Hr]. eapply reachable_step; eauto.
Qed.

(** C1.  The total duration is
    [initialWait + 2 * allTilesFlip + betweenWait + finalWait].  In every
    state of an engine configured with 0.2, 0.5, 0.3, 0.2 the total is
    1.7, and when the elapsed time is 0.2 the progress is 0.2 / 1.7 and
    the shader, comparing that progress with its phase-end fractions,
    selects the flip A-to-B arm, not the initial hold. *)
Theorem timeline_example :
  (forall config,
     totalDuration config
     == initialWaitDuration config + 2 * allTilesFlipDuration config
        + waitBetweenFlipsDuration config + finalWaitDuration config)
  /\ (forall drawText this h,
        reachable drawText (this, h) ->
        initialWaitDuration (config this) == 0.2 ->
        allTilesFlipDuration (config this) == 0.5 ->
        waitBetweenFlipsDuration (config this) == 0.3 ->
        finalWaitDuration (config this) == 0.2 ->
        totalDuration (config this) == 1.7
        /\ (totalElapsedTime this == 0.2 ->
            morphProgress this == 0.2 / 1.7
            /\ uMorphProgress (uniforms this) == 0.2 / 1.7
            /\ initialWaitEnd (uniforms this) == 0.2 / 1.7
            /\ selectPhase (uniforms this) = FlipAB)).
Proof.
  split; [exact totalDuration_sum|].
  intros drawText this h Hr Hiw Hatf Hwbf Hfw.
  apply reachable_Inv in Hr.
  pose proof (shaderTotalDuration_eq this h Hr) as HT.
  destruct_Inv Hr.
  assert (HT17 : totalDuration (config this) == 1.7).
  { rewrite totalDuration_sum, Hiw, Hatf, Hwbf, Hfw. reflexivity. }
  split; [exact HT17|].
  intro He.
  assert (Hp : morphProgress this == 0.2 / 1.7).
  { rewrite Hprog, He, HT17. reflexivity. }
  destruct Hunif as (E1 & E2 & _ & E4 & E5 & _).
  assert (Hiwe : initialWaitEnd (uniforms this) == 0.2 / 1.7).
  { unfold initialWaitEnd. rewrite HT, HT17, E1, Hiw. reflexivity. }
  assert (Hfab : flipABEnd (uniforms this) == 0.7 / 1.7).
  { unfold flipABEnd. rewrite HT, HT17, E1, E2, Hiw, Hatf. reflexivity. }
  repeat split; trivial.
  - now rewrite Huprog.
  - unfold selectPhase. rewrite Huprog.
    qcases (morphProgress this) (initialWaitEnd (uniforms this)); [lra|].
    qcases (morphProgress this) (flipABEnd (uniforms this)); [reflexivity|].
    exfalso. rewrite Hp, Hfab in *. revert H0. apply Qlt_not_le. reflexivity.
Qed.

(** The same example in IEEE arithmetic: in binary64 the five durations
    add up to the double [1.7], the progress at an elapsed time of [0.2] is
    the double quotient [0.2 / 1.7], and in binary32 that progress is not
    below the shader's [initialWaitEnd] and is below its [flipABEnd]. *)
Lemma timeline_example_ieee :
  let d64 := IEEE.literal IEEE.binary64 in
  let total := IEEE.totalDuration (d64 2%Z 10%Z) (d64 5%Z 10%Z) (d64 3%Z 10%Z) (d64 2%Z 10%Z) in
  let progress := IEEE.morphProgress (d64 2%Z 10%Z) total in
  let u x := IEEE.toSingle x in
  let total32 :=
    IEEE.shaderTotalDuration (u (d64 2%Z 10%Z)) (u (d64 5%Z 10%Z)) (u (d64 3%Z 10%Z))
                             (u (d64 2%Z 10%Z)) in
  total = d64 17%Z 10%Z
  /\ progress = IEEE.div IEEE.binary64 (d64 2%Z 10%Z) (d64 17%Z 10%Z)
  /\ IEEE.selectsFlipAB (u progress)
       (IEEE.initialWaitEnd (u (d64 2%Z 10%Z)) total32)
       (IEEE.flipABEnd (u (d64 2%Z 10%Z)) (u (d64 5%Z 10%Z)) total32)
     = true.
Proof. vm_compute. repeat split. Qed.

(** What a frame does to the timeline. *)
Lemma animate_timeline this h :
  let this' := fst (animate this h) in
  let T := totalDuration (config this) in
  let elapsed :=
    Math_max 0 (Math_min T
      (totalElapsedTime this
       + (now h - lastFrameTime this) / 1000 * inject_Z (direction this))) in
  direction this' = direction this
  /\ config this' = config this
  /\ (direction this = 0%Z ->
      totalElapsedTime this' = totalElapsedTime this
      /\ morphProgress this' = morphProgress this
      /\ uMorphProgress (uniforms this') = uMorphProgress (uniforms this))
  /\ (direction this <> 0%Z ->
      totalElapsedTime this' = elapsed
      /\ morphProgress this' = elapsed / T
      /\ uMorphProgress (uniforms this') = elapsed / T).
Proof.
  run_code.
  destruct (Z.eqb_spec (direction this) 0) as [Hd|Hd]; run_code;
    (split; [reflexivity|split; [reflexivity|split]]);
    intro Hd'; try contradiction; repeat split; reflexivity.
Qed.

(** In a live engine the time since the last frame is never negative. *)
Lemma reachable_delta_nonneg drawText this h :
  reachable drawText (this, h) ->
  0 <= (now h - lastFrameTime this) / 1000.
Proof.
  intro Hr. apply reachable_Inv in Hr. destruct_Inv Hr.
  apply Qle_shift_div_l; lra.
Qed.

Lemma elapsed_bounds this h :
  Inv (this, h) ->
  (0 < totalDuration (config this) ->
   0 <= totalElapsedTime this <= totalDuration (config this))
  /\ (totalDuration (config this) < 0 -> totalElapsedTime this == 0).
Proof.
  intro HInv. destruct_Inv HInv. split; intro HT; lra.
Qed.

Ltac clamp_cases T x :=
  let H1 := fresh "H" in let E1 := fresh "E" in
  let H2 := fresh "H" in let E2 := fresh "E" in
  destruct (Math_min_spec T x) as [[H1 E1]|[H1 E1]];
  destruct (Math_max_spec 0 (Math_min T x)) as [[H2 E2]|[H2 E2]];
  rewrite E2; rewrite E1 in *.

Lemma clamp_forward T e x :
  0 <= e <= T -> e <= x -> e <= Math_max 0 (Math_min T x).
Proof. intros He Hx. clamp_cases T x; lra. Qed.

Lemma clamp_backward T e x :
  0 <= e -> x <= e -> Math_max 0 (Math_min T x) <= e.
Proof. intros He Hx. clamp_cases T x; lra. Qed.

Lemma clamp_top T x :
  0 <= T -> T <= x -> Math_max 0 (Math_min T x) == T.
Proof. intros HT Hx. clamp_cases T x; lra. Qed.

Lemma clamp_bottom T x :
  x <= 0 -> Math_max 0 (Math_min T x) == 0.
Proof. intros Hx. clamp_cases T x; lra. Qed.

Lemma clamp_negative T x :
  T < 0 -> Math_max 0 (Math_min T x) == 0.
Proof. intros HT. clamp_cases T x; lra. Qed.

(** In a live engine the progress lies in [0, 1]. *)
Lemma progress_bounds this h :
  Inv (this, h) ->
  ~ totalDuration (config this) == 0 ->
  0 <= morphProgress this <= 1.
Proof.
  intros HInv HT.
  pose proof (elapsed_bounds _ _ HInv) as [Hpos Hneg].
  pose proof (inv_progress _ HInv) as Hp. cbn [fst] in Hp.
  rewrite Hp. destruct (Qlt_le_dec 0 (totalDuration (config this))) as [HT0|HT0].
  - specialize (Hpos HT0). split.
    + apply Qle_shift_div_l; lra.
    + apply Qle_shift_div_r; lra.
  - assert (HTn : totalDuration (config this) < 0).
    { destruct (Qlt_le_dec (totalDuration (config this)) 0); [assumption|].
      exfalso. apply HT. lra. }
    rewrite (Hneg HTn), Qdiv_zero. lra.
Qed.

(** C2, as the code has it.  A frame of a live engine whose total
    duration is not 0, and whose wall-clock delta is never negative
    ([reachable_delta_nonneg]): with direction +1 neither the elapsed
    time nor the progress decreases, with direction -1 neither increases,
    the progress stays in [0, 1], and a progress that has reached 1
    (direction +1) or 0 (direction -1) stays there. *)
Theorem frame_advance_monotone :
  forall drawText this h this' h',
    reachable drawText (this, h) ->
    ~ totalDuration (config this) == 0 ->
    exec drawText Frame (this, h) = Some (this', h') ->
    (direction this = 1%Z ->
     totalElapsedTime this <= totalElapsedTime this'
     /\ morphProgress this <= morphProgress this')
    /\ (direction this = (-1)%Z ->
        totalElapsedTime this' <= totalElapsedTime this
        /\ morphProgress this' <= morphProgress this)
    /\ 0 <= morphProgress this <= 1
    /\ 0 <= morphProgress this' <= 1
    /\ (direction this = 1%Z -> morphProgress this == 1 ->
        morphProgress this' == 1)
    /\ (direction this = (-1)%Z -> morphProgress this == 0 ->
        morphProgress this' == 0).
Proof.
  intros drawText this h this' h' Hr HT He.
  pose proof (reachable_delta_nonneg _ _ _ Hr) as Hdelta.
  pose proof (reachable_step _ _ _ _ Hr He) as Hr'.
  apply reachable_Inv in Hr, Hr'.
  pose proof (elapsed_bounds _ _ Hr) as [Hpos Hneg].
  pose proof (elapsed_bounds _ _ Hr') as [Hpos' Hneg'].
  cbn [exec] in He. destruct (pendingFrame h); [|discriminate].
  apply Some_inj in He.
  pose proof (animate_timeline this (withPendingFrame None h)) as Ha.
  rewrite He in Ha. cbn [fst] in Ha.
  destruct Ha as (Hdir' & Hcfg & _ & Hmove).
  assert (Hbound0 : 0 <= morphProgress this <= 1)
    by (apply (progress_bounds this h); assumption).
  assert (Hbound : 0 <= morphProgress this' <= 1)
    by (apply (progress_bounds this' h'); [assumption|now rewrite Hcfg]).
  change (now (withPendingFrame None h)) with (now h) in Hmove.
  pose proof (inv_progress _ Hr) as Hp. cbn [fst] in Hp.
  pose proof (inv_progress _ Hr') as Hp'. cbn [fst] in Hp'.
  rewrite Hcfg in *.
  set (T := totalDuration (config this)) in *.
  set (d := (now h - lastFrameTime this) / 1000) in *.
  destruct (Qlt_le_dec 0 T) as [HT0|HT0].
  - (* a timeline of positive length *)
    specialize (Hpos HT0). specialize (Hpos' HT0).
    split; [|split; [|split; [exact Hbound0|split; [exact Hbound|split]]]].
    + intro Hd. destruct Hmove as (Ee & _); [lia|].
      rewrite Hd in Ee. change (inject_Z 1) with 1 in Ee.
      assert (Hle : totalElapsedTime this <= totalElapsedTime this').
      { rewrite Ee. apply clamp_forward; lra. }
      split; [exact Hle|]. rewrite Hp, Hp'. now apply Qdiv_le_mono.
    + intro Hd. destruct Hmove as (Ee & _); [lia|].
      rewrite Hd in Ee. change (inject_Z (-1)) with (-1) in Ee.
      assert (Hle : totalElapsedTime this' <= totalElapsedTime this).
      { rewrite Ee. apply clamp_backward; lra. }
      split; [exact Hle|]. rewrite Hp, Hp'. now apply Qdiv_le_mono.
    + intros Hd H1. destruct Hmove as (Ee & _); [lia|].
      rewrite Hd in Ee. change (inject_Z 1) with 1 in Ee.
      rewrite Hp in H1. apply Qdiv_eq_one in H1; [|exact HT].
      rewrite Hp', Ee, clamp_top by lra. now apply Qdiv_self.
    + intros Hd H0. destruct Hmove as (Ee & _); [lia|].
      rewrite Hd in Ee. change (inject_Z (-1)) with (-1) in Ee.
      rewrite Hp in H0. apply Qdiv_eq_zero in H0; [|exact HT].
      rewrite Hp', Ee, clamp_bottom by lra. apply Qdiv_zero.
  - (* a timeline of negative length: the elapsed time never leaves 0 *)
    assert (HTn : T < 0).
    { destruct (Qlt_le_dec T 0); [assumption|]. exfalso. apply HT. lra. }
    specialize (Hneg HTn). specialize (Hneg' HTn).
    assert (Hp0 : morphProgress this == 0)
      by (rewrite Hp, Hneg; apply Qdiv_zero).
    assert (Hp0' : morphProgress this' == 0)
      by (rewrite Hp', Hneg'; apply Qdiv_zero).
    split; [|split; [|split; [exact Hbound0|split; [exact Hbound|split]]]].
    + intros _. rewrite Hneg, Hneg', Hp0, Hp0'. split; lra.
    + intros _. rewrite Hneg, Hneg', Hp0, Hp0'. split; lra.
    + intros _ H1. rewrite Hp0 in H1. exfalso. revert H1. discriminate.
    + intros _ _. exact Hp0'.
Qed.

(** The same steps in binary64, on the default timeline with frames a
    fifth of a second apart: forward from 0 the elapsed time is the
    double [0.2] and the progress lies in [0, 1]; at the end of the
    timeline a forward frame stays at the end, with progress 1; a frame
    backward returns to 0, and at 0 a backward frame stays there. *)
Lemma frame_advance_ieee :
  let number := IEEE.ofZ IEEE.binary64 in
  let deltaTime := IEEE.deltaTime (number 200%Z) (number 0%Z) in
  let forward :=
    IEEE.advance (number 0%Z) deltaTime (number 1%Z) defaultTotal64 in
  let top :=
    IEEE.advance defaultTotal64 deltaTime (number 1%Z) defaultTotal64 in
  let back :=
    IEEE.advance (fst forward) deltaTime (number (-1)%Z) defaultTotal64 in
  let bottom :=
    IEEE.advance (number 0%Z) deltaTime (number (-1)%Z) defaultTotal64 in
  fst forward = IEEE.literal IEEE.binary64 2 10
  /\ IEEE.inUnitInterval (snd forward) = true
  /\ top = (defaultTotal64, number 1%Z)
  /\ back = (number 0%Z, number 0%Z)
  /\ bottom = (number 0%Z, number 0%Z).
Proof. vm_compute. repeat split. Qed.

(** C2, as the specification words it, fails.  [validateConfig] does not
    look at the three waits, so [zeroTotalOptions] construct, and their
    total duration is 0: exactly, and in binary64 as well.  On that
    engine a frame in either direction leaves the elapsed time at 0 and
    divides it by the total: the progress is [0 / 0], which is [NaN] and
    not in [0, 1]. *)
Lemma progress_zero_total_counterexample :
  constructor blankText smallCanvas zeroTotalOptions (newHost 0)
  = (Ok (fst zeroTotalEngine), snd zeroTotalEngine)
  /\ totalDuration (config (fst zeroTotalEngine)) == 0
  /\ zeroTotal64 = IEEE.ofZ IEEE.binary64 0
  /\ let zero := IEEE.ofZ IEEE.binary64 0 in
     let deltaTime :=
       IEEE.deltaTime (IEEE.ofZ IEEE.binary64 16) (IEEE.ofZ IEEE.binary64 0) in
     let hovering :=
       IEEE.advance zero deltaTime (IEEE.ofZ IEEE.binary64 1) zeroTotal64 in
     let leaving :=
       IEEE.advance zero deltaTime (IEEE.ofZ IEEE.binary64 (-1)) zeroTotal64 in
     hovering = (zero, S754_nan)
     /\ leaving = (zero, S754_nan)
     /\ IEEE.inUnitInterval (snd hovering) = false
     /\ IEEE.inUnitInterval (snd leaving) = false.
Proof.
  split; [vm_compute; reflexivity|].
  split; [vm_compute; reflexivity|].
  split; [vm_compute; reflexivity|].
  vm_compute. repeat split.
Qed.

(** Resizing leaves the timeline alone. *)
Lemma resize_timeline this h width height :
  let this' := fst (resize this width height h) in
  direction this' = direction this
  /\ totalElapsedTime this' = totalElapsedTime this
  /\ morphProgress this' = morphProgress this
  /\ uMorphProgress (uniforms this') = uMorphProgress (uniforms this).
Proof.
  unfold resize, bind.
  match goal with
  | |- context [clearResizeTimeout ?t h] =>
    destruct (clearResizeTimeout t h) as [[] h1]
  end.
  unfold setTimeout, ret. run_code. auto.
Qed.

Lemma resizeSettled_timeline drawText this h width height :
  let this' := fst (resizeSettled drawText this width height h) in
  direction this' = direction this
  /\ totalElapsedTime this' = totalElapsedTime this
  /\ morphProgress this' = morphProgress this
  /\ uMorphProgress (uniforms this') = uMorphProgress (uniforms this).
Proof.
  unfold resizeSettled.
  destruct (useTileDimensions this); run_code; auto.
Qed.

(** Until [setHover] is called the engine rests at the start. *)
Lemma idle_exec drawText ev this h this' h' :
  (forall hover, ev <> SetHover hover) ->
  exec drawText ev (this, h) = Some (this', h') ->
  direction this = 0%Z ->
  direction this' = 0%Z
  /\ totalElapsedTime this' = totalElapsedTime this
  /\ morphProgress this' = morphProgress this
  /\ uMorphProgress (uniforms this') = uMorphProgress (uniforms this).
Proof.
  intros Hev He Hd.
  destruct ev as [t | | id | hover | width height]; cbn [exec] in He.
  - destruct (now h <=? t); [|discriminate].
    apply Some_inj in He. injection He as <- <-. auto.
  - destruct (pendingFrame h); [|discriminate].
    apply Some_inj in He.
    pose proof (animate_timeline this (withPendingFrame None h)) as Ha.
    rewrite He in Ha. cbn [fst] in Ha.
    destruct Ha as (Hdir' & _ & Hrest & _).
    destruct (Hrest Hd) as (? & ? & ?). repeat split; congruence.
  - destruct (findTimer id h) as [t|]; [|discriminate].
    destruct (due t <=? now h); [|discriminate].
    apply Some_inj in He.
    pose proof (resizeSettled_timeline drawText this (removeTimer id h)
                  (timerWidth t) (timerHeight t)) as Ha.
    rewrite He in Ha. cbn [fst] in Ha.
    destruct Ha as (? & ? & ? & ?). repeat split; congruence.
  - exfalso. now apply (Hev hover).
  - apply Some_inj in He.
    pose proof (resize_timeline this h width height) as Ha.
    rewrite He in Ha. cbn [fst] in Ha.
    destruct Ha as (? & ? & ? & ?). repeat split; congruence.
Qed.

Lemma idle_run drawText trace : forall this h this' h',
  noSetHover trace ->
  run drawText trace (this, h) = Some (this', h') ->
  direction this = 0%Z ->
  direction this' = 0%Z
  /\ totalElapsedTime this' = totalElapsedTime this
  /\ morphProgress this' = morphProgress this
  /\ uMorphProgress (uniforms this') = uMorphProgress (uniforms this).
Proof.
  induction trace as [|ev trace IH]; intros this h this' h' Hno Hr Hd;
    cbn [run] in Hr.
  - apply Some_inj in Hr. injection Hr as <- <-. auto.
  - destruct (exec drawText ev (this, h)) as [[this1 h1]|] eqn:He;
      [|discriminate].
    assert (Hev : forall hover, ev <> SetHover hover).
    { intros hover ->. apply (Hno hover). now left. }
    destruct (idle_exec _ _ _ _ _ _ Hev He Hd) as (Hd1 & E1 & E2 & E3).
    assert (Hno' : noSetHover trace).
    { intros hover Hin. apply (Hno hover). now right. }
    destruct (IH _ _ _ _ Hno' Hr Hd1) as (Hd' & E1' & E2' & E3').
    repeat split; congruence.
Qed.

(** With direction -1 an engine at the start stays there. *)
Lemma leaving_exec drawText ev this h this' h' :
  Inv (this, h) ->
  ~ totalDuration (config this) == 0 ->
  ev <> SetHover true ->
  exec drawText ev (this, h) = Some (this', h') ->
  direction this = (-1)%Z -> atStart this ->
  direction this' = (-1)%Z /\ atStart this'.
Proof.
  intros HInv HT Hev He Hd (Ee & Ep & Eu).
  destruct ev as [t | | id | hover | width height]; cbn [exec] in He.
  - destruct (now h <=? t); [|discriminate].
    apply Some_inj in He. injection He as <- <-. repeat split; auto.
  - destruct (pendingFrame h); [|discriminate].
    apply Some_inj in He.
    pose proof (animate_timeline this (withPendingFrame None h)) as Ha.
    rewrite He in Ha. cbn [fst] in Ha.
    destruct Ha as (Hdir' & _ & _ & Hmove).
    destruct Hmove as (E1 & E2 & E3); [lia|].
    change (now (withPendingFrame None h)) with (now h) in *.
    destruct_Inv HInv.
    assert (Hdelta : 0 <= (now h - lastFrameTime this) / 1000)
      by (apply Qle_shift_div_l; lra).
    assert (Hz : Math_max 0
              (Math_min (totalDuration (config this))
                 (totalElapsedTime this
                  + (now h - lastFrameTime this) / 1000
                    * inject_Z (direction this))) == 0).
    { apply clamp_bottom. rewrite Hd. change (inject_Z (-1)) with (-1). lra. }
    split; [congruence|]. unfold atStart.
    rewrite E1, E2, E3, Hz. repeat split; try reflexivity; apply Qdiv_zero.
  - destruct (findTimer id h) as [t|]; [|discriminate].
    destruct (due t <=? now h); [|discriminate].
    apply Some_inj in He.
    pose proof (resizeSettled_timeline drawText this (removeTimer id h)
                  (timerWidth t) (timerHeight t)) as Ha.
    rewrite He in Ha. cbn [fst] in Ha.
    destruct Ha as (E0 & E1 & E2 & E3). unfold atStart.
    rewrite E0, E1, E2, E3. auto.
  - destruct hover; [congruence|].
    apply Some_inj in He. injection He as <- <-.
    unfold setHover. rewrite Hd. cbn [Z.eqb Pos.eqb]. repeat split; auto.
  - apply Some_inj in He.
    pose proof (resize_timeline this h width height) as Ha.
    rewrite He in Ha. cbn [fst] in Ha.
    destruct Ha as (E0 & E1 & E2 & E3). unfold atStart.
    rewrite E0, E1, E2, E3. auto.
Qed.

Lemma exec_config drawText ev this h this' h' :
  exec drawText ev (this, h) = Some (this', h') -> config this' = config this.
Proof.
  intro He.
  destruct ev as [t | | id | hover | width height]; cbn [exec] in He.
  - destruct (now h <=? t); [|discriminate].
    apply Some_inj in He. now injection He as <- <-.
  - destruct (pendingFrame h); [|discriminate].
    apply Some_inj in He.
    pose proof (animate_timeline this (withPendingFrame None h)) as Ha.
    rewrite He in Ha. cbn [fst] in Ha. tauto.
  - destruct (findTimer id h) as [t|]; [|discriminate].
    destruct (due t <=? now h); [|discriminate].
    apply Some_inj in He.
    apply (f_equal (fun s => config (fst s))) in He.
    cbn beta in He. change (fst (this', h')) with this' in He.
    rewrite <- He.
    unfold resizeSettled. destruct (useTileDimensions this); reflexivity.
  - apply Some_inj in He. injection He as <- <-.
    unfold setHover. destruct hover;
      match goal with |- context [if ?b then _ else _] => destruct b end;
      reflexivity.
  - apply Some_inj in He.
    apply (f_equal (fun s => config (fst s))) in He.
    cbn beta in He. change (fst (this', h')) with this' in He.
    rewrite <- He.
    unfold resize, bind.
    match goal with
    | |- context [clearResizeTimeout ?t h] =>
      destruct (clearResizeTimeout t h) as [[] h1]
    end.
    reflexivity.
Qed.

Lemma leaving_run drawText trace : forall this h this' h',
  Inv (this, h) ->
  ~ totalDuration (config this) == 0 ->
  noHoverEnter trace ->
  run drawText trace (this, h) = Some (this', h') ->
  direction this = (-1)%Z -> atStart this ->
  direction this' = (-1)%Z /\ atStart this'.
Proof.
  induction trace as [|ev trace IH]; intros this h this' h' HInv HT Hno Hr Hd Hs;
    cbn [run] in Hr.
  - apply Some_inj in Hr. injection Hr as <- <-. auto.
  - destruct (exec drawText ev (this, h)) as [[this1 h1]|] eqn:He;
      [|discriminate].
    assert (Hev : ev <> SetHover true).
    { intros ->. apply Hno. now left. }
    destruct (leaving_exec _ _ _ _ _ _ HInv HT Hev He Hd Hs) as (Hd1 & Hs1).
    apply (IH this1 h1 this' h'); auto.
    + exact (Inv_exec _ _ _ _ HInv He).
    + now rewrite (exec_config _ _ _ _ _ _ He).
    + intro Hin. apply Hno. now right.
Qed.

(* ================================================================== *)
(** * The fragment shader *)

#[export] Instance Math_max_proper : Proper (Qeq ==> Qeq ==> Qeq) Math_max.
Proof.
  intros x x' Hx y y' Hy. unfold Math_max.
  rewrite (Qltb_proper _ _ Hx _ _ Hy).
  destruct (x' <? y'); assumption.
Qed.

#[export] Instance Math_min_proper : Proper (Qeq ==> Qeq ==> Qeq) Math_min.
Proof.
  intros x x' Hx y y' Hy. unfold Math_min.
  rewrite (Qltb_proper _ _ Hy _ _ Hx).
  destruct (y' <? x'); assumption.
Qed.

#[export] Instance clamp_proper : Proper (Qeq ==> Qeq ==> Qeq ==> Qeq) clamp.
Proof.
  intros x x' Hx lo lo' Hlo hi hi' Hhi. unfold clamp.
  now rewrite Hx, Hlo, Hhi.
Qed.

#[export] Instance smoothstep_proper :
  Proper (Qeq ==> Qeq ==> Qeq ==> Qeq) smoothstep.
Proof.
  intros a a' Ha b b' Hb x x' Hx. unfold smoothstep.
  assert (E : clamp ((x - a) / (b - a)) 0 1
              == clamp ((x' - a') / (b' - a')) 0 1)
    by now rewrite Ha, Hb, Hx.
  now rewrite E.
Qed.

#[export] Instance step_proper : Proper (Qeq ==> Qeq ==> Qeq) step.
Proof.
  intros e e' He x x' Hx. unfold step.
  rewrite (Qltb_proper _ _ Hx _ _ He). reflexivity.
Qed.

Lemma vec4_eq_refl c : vec4_eq c c.
Proof. repeat split; reflexivity. Qed.

Lemma mix_proper x x' y y' t t' :
  vec4_eq x x' -> vec4_eq y y' -> t == t' ->
  vec4_eq (mix x y t) (mix x' y' t').
Proof.
  intros (X1 & X2 & X3 & X4) (Y1 & Y2 & Y3 & Y4) Ht.
  unfold mix, vec4_eq; cbn [cr cg cb ca].
  rewrite X1, X2, X3, X4, Y1, Y2, Y3, Y4, Ht. repeat split; reflexivity.
Qed.

Lemma fract_range x : 0 <= fract x < 1.
Proof.
  unfold fract. pose proof (Qfloor_le x). pose proof (Qlt_floor x).
  rewrite inject_Z_plus in H0. change (inject_Z 1) with 1 in H0. lra.
Qed.

Lemma noise_range sin u vUv : 0 <= noiseAt sin u vUv < 1.
Proof. unfold noiseAt, random. apply fract_range. Qed.

(** The arm of the chain, from the comparisons that select it. *)
Lemma selectPhase_FlipAB u :
  selectPhase u = FlipAB <->
  initialWaitEnd u <= uMorphProgress u < flipABEnd u.
Proof.
  unfold selectPhase.
  qcases (uMorphProgress u) (initialWaitEnd u).
  { split; [discriminate|lra]. }
  qcases (uMorphProgress u) (flipABEnd u).
  { split; [intros _; lra|reflexivity]. }
  split; [|lra].
  qcases (uMorphProgress u) (waitBetweenEnd u); [discriminate|].
  qcases (uMorphProgress u) (flipBCEnd u); discriminate.
Qed.

Lemma selectPhase_FlipBC u :
  selectPhase u = FlipBC ->
  waitBetweenEnd u <= uMorphProgress u < flipBCEnd u.
Proof.
  unfold selectPhase.
  qcases (uMorphProgress u) (initialWaitEnd u); [discriminate|].
  qcases (uMorphProgress u) (flipABEnd u); [discriminate|].
  qcases (uMorphProgress u) (waitBetweenEnd u); [discriminate|].
  qcases (uMorphProgress u) (flipBCEnd u); [intros _; lra|discriminate].
Qed.

Lemma phaseProgressAB_local u :
  0 < shaderTotalDuration u -> 0 < uAllTilesFlipDuration u ->
  phaseProgressAB u
  == spec_phaseLocal (shaderTotalDuration u) (uInitialWaitDuration u)
                     (uAllTilesFlipDuration u) (uMorphProgress u).
Proof.
  intros HT Ha.
  unfold phaseProgressAB, spec_phaseLocal, flipABEnd, initialWaitEnd.
  field. split; lra.
Qed.

Lemma phaseProgressBC_local u :
  0 < shaderTotalDuration u -> 0 < uAllTilesFlipDuration u ->
  phaseProgressBC u
  == spec_phaseLocal (shaderTotalDuration u)
       (uInitialWaitDuration u + uAllTilesFlipDuration u
        + uWaitBetweenFlipsDuration u)
       (uAllTilesFlipDuration u) (uMorphProgress u).
Proof.
  intros HT Ha.
  unfold phaseProgressBC, spec_phaseLocal, flipBCEnd, waitBetweenEnd.
  field. split; lra.
Qed.

Lemma Qdiv_le_elim a b c : 0 < b -> a / b <= c -> a <= c * b.
Proof.
  intros Hb H.
  assert (E : a == a / b * b) by (field; lra).
  rewrite E. apply Qmult_le_compat_r; lra.
Qed.

Lemma Qdiv_gt_elim a b c : 0 < b -> c < a / b -> c * b < a.
Proof.
  intros Hb H.
  assert (E : a == a / b * b) by (field; lra).
  rewrite E. apply Qmult_lt_compat_r; lra.
Qed.

Lemma phaseLocal_range T start a mp :
  0 < T -> 0 < a ->
  start / T <= mp < (start + a) / T ->
  0 <= spec_phaseLocal T start a mp <= 1.
Proof.
  intros HT Ha [Hlo Hhi]. unfold spec_phaseLocal.
  apply Qdiv_le_elim in Hlo; [|exact HT].
  apply Qdiv_gt_elim in Hhi; [|exact HT].
  split.
  - apply Qle_shift_div_l; lra.
  - apply Qle_shift_div_r; lra.
Qed.

(** In a flip arm, [main] is the specification's colour formula. *)
Lemma main_flip sin texture2D texture2DData uninitialised u vUv p
      (source target : Texture) (presenceSource presenceTarget : DataTexture) :
  locals sin texture2D texture2DData uninitialised u vUv
  = {| flipProgress :=
         tileFlipProgress u (noiseAt sin u vUv) p;
       tex1 := texture2D source vUv;
       tex2 := texture2D target vUv;
       hasTextSource :=
         cr (texture2DData presenceSource (presenceUVAt u vUv));
       hasTextTarget :=
         cr (texture2DData presenceTarget (presenceUVAt u vUv)) |} ->
  forall p', p == p' ->
  vec4_eq
    (main sin texture2D texture2DData uninitialised u vUv)
    (spec_finalColor (uAllTilesFlipDuration u) (uSingleTileFlipDuration u)
       (uInvertThreshold u) (noiseAt sin u vUv) p'
       (texture2D source vUv) (texture2D target vUv)
       (cr (texture2DData presenceSource (presenceUVAt u vUv)))
       (cr (texture2DData presenceTarget (presenceUVAt u vUv)))).
Proof.
  intros Hl p' Hp.
  unfold main, invertBranchTaken, invertAt. rewrite Hl.
  cbn [flipProgress tex1 tex2 hasTextSource hasTextTarget].
  unfold spec_finalColor, spec_invert, spec_flipAmount.
  assert (Ef : tileFlipProgress u (noiseAt sin u vUv) p
               == smoothstep
                    (spec_flipWindowStart (uAllTilesFlipDuration u)
                       (uSingleTileFlipDuration u) (noiseAt sin u vUv))
                    (spec_flipWindowEnd (uAllTilesFlipDuration u)
                       (uSingleTileFlipDuration u) (noiseAt sin u vUv)) p').
  { unfold tileFlipProgress, spec_flipWindowEnd, spec_flipWindowStart.
    now rewrite Hp. }
  match goal with
  | |- vec4_eq (mix (if ?b then _ else _) _ _)
               (mix (if ?b' then _ else _) _ _) =>
    assert (Eb : b = b')
  end.
  { unfold Qgtb. apply Qltb_proper; [reflexivity|]. now rewrite Ef. }
  rewrite Eb.
  apply mix_proper; [|apply vec4_eq_refl|exact Ef].
  match goal with |- context [if ?b then _ else _] => destruct b end.
  - repeat split; cbn [cr cg cb ca]; lra.
  - apply vec4_eq_refl.
Qed.

Lemma vec4_eq_trans a b c : vec4_eq a b -> vec4_eq b c -> vec4_eq a c.
Proof.
  intros (A1 & A2 & A3 & A4) (B1 & B2 & B3 & B4).
  repeat split; etransitivity; eassumption.
Qed.

(** The colour formula depends on the progress only up to [==]. *)
Lemma spec_finalColor_proper allTilesFlip singleTileFlip threshold r p p'
      source target presenceSource presenceTarget :
  p == p' ->
  vec4_eq
    (spec_finalColor allTilesFlip singleTileFlip threshold r p
                     source target presenceSource presenceTarget)
    (spec_finalColor allTilesFlip singleTileFlip threshold r p'
                     source target presenceSource presenceTarget).
Proof.
  intro Hp. unfold spec_finalColor, spec_invert, spec_flipAmount.
  assert (Ef : smoothstep (spec_flipWindowStart allTilesFlip singleTileFlip r)
                 (spec_flipWindowEnd allTilesFlip singleTileFlip r) p
               == smoothstep
                    (spec_flipWindowStart allTilesFlip singleTileFlip r)
                    (spec_flipWindowEnd allTilesFlip singleTileFlip r) p')
    by now rewrite Hp.
  match goal with
  | |- vec4_eq (mix (if ?b then _ else _) _ _)
               (mix (if ?b' then _ else _) _ _) =>
    assert (Eb : b = b')
  end.
  { unfold Qgtb. apply Qltb_proper; [reflexivity|]. now rewrite Ef. }
  rewrite Eb.
  apply mix_proper; [apply vec4_eq_refl|apply vec4_eq_refl|exact Ef].
Qed.

(** In a flip arm [main] is the schedule of the specification. *)
Lemma flip_schedule_uniforms :
  forall sin texture2D texture2DData uninitialised u vUv,
    0 < shaderTotalDuration u ->
    0 < uAllTilesFlipDuration u ->
    let r := noiseAt sin u vUv in
    let presenceUV := presenceUVAt u vUv in
    let color := main sin texture2D texture2DData uninitialised u vUv in
    0 <= r < 1
    /\ (selectPhase u = FlipAB ->
        let p := spec_phaseLocal (shaderTotalDuration u)
                   (uInitialWaitDuration u) (uAllTilesFlipDuration u)
                   (uMorphProgress u) in
        0 <= p <= 1
        /\ vec4_eq color
             (spec_finalColor (uAllTilesFlipDuration u)
                (uSingleTileFlipDuration u) (uInvertThreshold u) r p
                (texture2D (uTexA u) vUv) (texture2D (uTexB u) vUv)
                (cr (texture2DData (uPresenceA u) presenceUV))
                (cr (texture2DData (uPresenceB u) presenceUV))))
    /\ (selectPhase u = FlipBC ->
        let p := spec_phaseLocal (shaderTotalDuration u)
                   (uInitialWaitDuration u + uAllTilesFlipDuration u
                    + uWaitBetweenFlipsDuration u)
                   (uAllTilesFlipDuration u) (uMorphProgress u) in
        0 <= p <= 1
        /\ vec4_eq color
             (spec_finalColor (uAllTilesFlipDuration u)
                (uSingleTileFlipDuration u) (uInvertThreshold u) r p
                (texture2D (uTexB u) vUv) (texture2D (uTexC u) vUv)
                (cr (texture2DData (uPresenceB u) presenceUV))
                (cr (texture2DData (uPresenceC u) presenceUV)))).
Proof.
  intros sin texture2D texture2DData uninitialised u vUv HT Ha r presenceUV
         color.
  split; [apply noise_range|]. split; intros Hphase p.
  - split.
    + apply phaseLocal_range; trivial.
      now apply selectPhase_FlipAB.
    + apply main_flip with (p := phaseProgressAB u).
      * unfold locals. now rewrite Hphase.
      * now apply phaseProgressAB_local.
  - split.
    + apply phaseLocal_range; trivial.
      apply selectPhase_FlipBC in Hphase.
      unfold waitBetweenEnd, flipBCEnd in Hphase. exact Hphase.
    + apply main_flip with (p := phaseProgressBC u).
      * unfold locals. now rewrite Hphase.
      * now apply phaseProgressBC_local.
Qed.

(** C4.  For every pixel drawn by a live engine with a timeline of
    positive length, while a flip arm is selected: the tile's random
    value [r] lies in [0, 1), the phase-local progress [p] lies in [0, 1],
    and the colour [main] writes is the schedule of the specification:
    window start [r * (allTilesFlip - singleTileFlip) / allTilesFlip],
    window end [start + singleTileFlip / allTilesFlip], flip amount
    [smoothstep(start, end, p)], invert
    [step(invertThreshold, r) * flipAmount * max(presenceSource,
    presenceTarget)], the source replaced by black with alpha
    [1 - alpha] when invert exceeds 0.5, and the linear blend of that
    source toward the target by the flip amount. *)
Theorem flip_schedule :
  forall drawText this h sin texture2D texture2DData uninitialised vUv,
    reachable drawText (this, h) ->
    0 < totalDuration (config this) ->
    let u := uniforms this in
    let r := noiseAt sin u vUv in
    let presenceUV := presenceUVAt u vUv in
    let color := main sin texture2D texture2DData uninitialised u vUv in
    0 <= r < 1
    /\ (selectPhase u = FlipAB ->
        let p := spec_phaseLocal (totalDuration (config this))
                   (initialWaitDuration (config this))
                   (allTilesFlipDuration (config this))
                   (morphProgress this) in
        0 <= p <= 1
        /\ vec4_eq color
             (spec_finalColor (allTilesFlipDuration (config this))
                (singleTileFlipDuration (config this))
                (invertThreshold (config this)) r p
                (texture2D (uTexA u) vUv) (texture2D (uTexB u) vUv)
                (cr (texture2DData (uPresenceA u) presenceUV))
                (cr (texture2DData (uPresenceB u) presenceUV))))
    /\ (selectPhase u = FlipBC ->
        let p := spec_phaseLocal (totalDuration (config this))
                   (initialWaitDuration (config this)
                    + allTilesFlipDuration (config this)
                    + waitBetweenFlipsDuration (config this))
                   (allTilesFlipDuration (config this))
                   (morphProgress this) in
        0 <= p <= 1
        /\ vec4_eq color
             (spec_finalColor (allTilesFlipDuration (config this))
                (singleTileFlipDuration (config this))
                (invertThreshold (config this)) r p
                (texture2D (uTexB u) vUv) (texture2D (uTexC u) vUv)
                (cr (texture2DData (uPresenceB u) presenceUV))
                (cr (texture2DData (uPresenceC u) presenceUV)))).
Proof.
  intros drawText this h sin texture2D texture2DData uninitialised vUv
         Hreach HT.
  apply reachable_Inv in Hreach.
  pose proof (shaderTotalDuration_eq _ _ Hreach) as HTs.
  pose proof (validateConfig_durations _ (inv_valid _ Hreach)) as [Hs Ha].
  pose proof (inv_uniforms _ Hreach) as (E1 & E2 & E3 & E4 & E5 & E6).
  pose proof (inv_uprogress _ Hreach) as Eu.
  cbn [fst] in *. cbv zeta.
  destruct (flip_schedule_uniforms sin texture2D texture2DData uninitialised
              (uniforms this) vUv) as (Hr & HAB & HBC).
  - now rewrite HTs.
  - rewrite E2. lra.
  - cbv zeta in HAB, HBC.
    rewrite E1, E2, E3, E6, Eu in HAB.
    rewrite E1, E2, E3, E4, E6, Eu in HBC.
    split; [exact Hr|]. split; intro Hphase.
    + destruct (HAB Hphase) as [Hp Hc]. split.
      * unfold spec_phaseLocal in *. now rewrite <- HTs.
      * eapply vec4_eq_trans; [exact Hc|].
        apply spec_finalColor_proper. unfold spec_phaseLocal.
        now rewrite HTs.
    + destruct (HBC Hphase) as [Hp Hc]. split.
      * unfold spec_phaseLocal in *. now rewrite <- HTs.
      * eapply vec4_eq_trans; [exact Hc|].
        apply spec_finalColor_proper. unfold spec_phaseLocal.
        now rewrite HTs.
Qed.

(** C5.  While a flip arm is selected, a pixel whose tile samples 0 from
    the presence masks of both the source and the target text never takes
    the [invert > 0.5] branch, whatever its random value and the progress
    within the phase: [invert] is 0 and the colour written is the plain
    blend of the source colour toward the target colour. *)
Theorem no_invert_without_ink :
  forall sin texture2D texture2DData uninitialised u vUv,
    let presenceUV := presenceUVAt u vUv in
    let l := locals sin texture2D texture2DData uninitialised u vUv in
    (selectPhase u = FlipAB ->
     cr (texture2DData (uPresenceA u) presenceUV) == 0 ->
     cr (texture2DData (uPresenceB u) presenceUV) == 0 ->
     invertAt sin texture2D texture2DData uninitialised u vUv == 0
     /\ invertBranchTaken sin texture2D texture2DData uninitialised u vUv
        = false
     /\ main sin texture2D texture2DData uninitialised u vUv
        = mix (texture2D (uTexA u) vUv) (texture2D (uTexB u) vUv)
              (flipProgress l))
    /\ (selectPhase u = FlipBC ->
        cr (texture2DData (uPresenceB u) presenceUV) == 0 ->
        cr (texture2DData (uPresenceC u) presenceUV) == 0 ->
        invertAt sin texture2D texture2DData uninitialised u vUv == 0
        /\ invertBranchTaken sin texture2D texture2DData uninitialised u vUv
           = false
        /\ main sin texture2D texture2DData uninitialised u vUv
           = mix (texture2D (uTexB u) vUv) (texture2D (uTexC u) vUv)
                 (flipProgress l)).
Proof.
  intros sin texture2D texture2DData uninitialised u vUv. cbv zeta.
  assert (Hmax : forall a b, a == 0 -> b == 0 -> Math_max a b == 0).
  { intros a b Ha Hb. now rewrite Ha, Hb. }
  split; intros Hphase Hs Ht.
  - assert (Hi : invertAt sin texture2D texture2DData uninitialised u vUv == 0).
    { unfold invertAt, locals. rewrite Hphase.
      cbn [flipProgress hasTextSource hasTextTarget].
      rewrite (Hmax _ _ Hs Ht). ring. }
    assert (Hb : invertBranchTaken sin texture2D texture2DData uninitialised
                   u vUv = false).
    { unfold invertBranchTaken. apply Qgtb_le. rewrite Hi. discriminate. }
    repeat split; trivial.
    unfold main. rewrite Hb. unfold locals. rewrite Hphase.
    reflexivity.
  - assert (Hi : invertAt sin texture2D texture2DData uninitialised u vUv == 0).
    { unfold invertAt, locals. rewrite Hphase.
      cbn [flipProgress hasTextSource hasTextTarget].
      rewrite (Hmax _ _ Hs Ht). ring. }
    assert (Hb : invertBranchTaken sin texture2D texture2DData uninitialised
                   u vUv = false).
    { unfold invertBranchTaken. apply Qgtb_le. rewrite Hi. discriminate. }
    repeat split; trivial.
    unfold main. rewrite Hb. unfold locals. rewrite Hphase.
    reflexivity.
Qed.

(** Before its window opens a tile has not begun to flip. *)
Lemma smoothstep_before edge0 edge1 x :
  edge0 < edge1 -> x <= edge0 -> smoothstep edge0 edge1 x == 0.
Proof.
  intros He Hx. unfold smoothstep, clamp.
  assert (Hq : (x - edge0) / (edge1 - edge0) <= 0).
  { apply Qle_shift_div_r; lra. }
  destruct (Math_max_spec ((x - edge0) / (edge1 - edge0)) 0)
    as [[H1 E1]|[H1 E1]]; rewrite E1.
  - destruct (Math_min_spec 0 1) as [[H2 E2]|[H2 E2]]; rewrite E2; lra.
  - assert (E0 : (x - edge0) / (edge1 - edge0) == 0) by lra.
    rewrite E0.
    destruct (Math_min_spec 0 1) as [[H2 E2]|[H2 E2]]; rewrite E2; lra.
Qed.

Lemma mix_start x y t : t == 0 -> vec4_eq (mix x y t) x.
Proof.
  intro Ht. unfold mix, vec4_eq; cbn [cr cg cb ca].
  rewrite Ht. repeat split; ring.
Qed.

(** At progress 0 the shader shows text A, whatever the tile. *)
Lemma main_at_start sin texture2D texture2DData uninitialised u vUv :
  uMorphProgress u == 0 ->
  0 <= uInitialWaitDuration u ->
  0 < shaderTotalDuration u ->
  0 < uSingleTileFlipDuration u <= uAllTilesFlipDuration u ->
  vec4_eq (main sin texture2D texture2DData uninitialised u vUv)
          (texture2D (uTexA u) vUv).
Proof.
  intros Hmp Hiw HT [Hs Ha].
  assert (Hfp : flipProgress
                  (locals sin texture2D texture2DData uninitialised u vUv)
                == 0
                /\ tex1 (locals sin texture2D texture2DData uninitialised
                           u vUv)
                   = texture2D (uTexA u) vUv).
  { unfold locals, selectPhase.
    qcases (uMorphProgress u) (initialWaitEnd u).
    { cbn [flipProgress tex1]. split; reflexivity. }
    assert (Hiw0 : uInitialWaitDuration u == 0).
    { unfold initialWaitEnd in H. rewrite Hmp in H.
      apply Qdiv_le_elim in H; lra. }
    assert (Hiwe : initialWaitEnd u == 0).
    { unfold initialWaitEnd. rewrite Hiw0. apply Qdiv_zero. }
    assert (Hfab : 0 < flipABEnd u).
    { unfold flipABEnd. apply Qlt_shift_div_l; lra. }
    qcases (uMorphProgress u) (flipABEnd u); [|lra].
    cbn [flipProgress tex1]. split; [|reflexivity].
    unfold tileFlipProgress.
    pose proof (noise_range sin u vUv) as [Hn _].
    assert (Hstart : 0 <= noiseAt sin u vUv
                          * (uAllTilesFlipDuration u
                             - uSingleTileFlipDuration u)
                          / uAllTilesFlipDuration u).
    { apply Qle_shift_div_l; [lra|]. rewrite Qmult_0_l.
      apply Qmult_le_0_compat; lra. }
    assert (Hwidth : 0 < uSingleTileFlipDuration u / uAllTilesFlipDuration u).
    { apply Qlt_shift_div_l; lra. }
    apply smoothstep_before; [lra|].
    unfold phaseProgressAB. rewrite Hmp, Hiwe.
    assert (Ez : (0 - 0) / (flipABEnd u - 0) == 0) by (unfold Qdiv; ring).
    rewrite Ez. exact Hstart. }
  destruct Hfp as [Hfp Htex].
  assert (Hinv : invertAt sin texture2D texture2DData uninitialised u vUv
                 == 0).
  { unfold invertAt. cbv zeta. rewrite Hfp. ring. }
  unfold main. cbv zeta.
  assert (Hb : invertBranchTaken sin texture2D texture2DData uninitialised
                 u vUv = false).
  { unfold invertBranchTaken. apply Qgtb_le. rewrite Hinv. discriminate. }
  rewrite Hb, Htex. now apply mix_start.
Qed.

(* ================================================================== *)
(** * Construction and the first hover *)

Lemma run_config drawText trace : forall this h this' h',
  run drawText trace (this, h) = Some (this', h') -> config this' = config this.
Proof.
  induction trace as [|ev trace IH]; intros this h this' h' Hr; cbn [run] in Hr.
  - apply Some_inj in Hr. now injection Hr as <- <-.
  - destruct (exec drawText ev (this, h)) as [[this1 h1]|] eqn:He;
      [|discriminate].
    rewrite (IH _ _ _ _ Hr). exact (exec_config _ _ _ _ _ _ He).
Qed.

(** C10, as the code has it.  A new engine has direction 0, and as long
    as [setHover] is not called every event (frames included) leaves the
    direction at 0 and the elapsed time, the progress and the
    [uMorphProgress] uniform unchanged at 0; for an initial wait that is
    not negative and a total duration that is positive, every pixel the
    shader then writes is that of text A.  The first [setHover(false)]
    changes the direction from 0 to -1; from then on, for a total
    duration other than 0 and as long as [setHover(true)] is not called,
    the elapsed time, the progress and the uniform stay at 0. *)
Theorem idle_until_first_hover :
  forall drawText canvas options t0 this0 h0,
    constructor drawText canvas options (newHost t0) = (Ok this0, h0) ->
    forall trace this h,
      noSetHover trace ->
      run drawText trace (this0, h0) = Some (this, h) ->
      (direction this = 0%Z
       /\ totalElapsedTime this = 0
       /\ morphProgress this = 0
       /\ uMorphProgress (uniforms this) = 0)
      /\ (0 <= initialWaitDuration (config this0) ->
          0 < totalDuration (config this0) ->
          forall sin texture2D texture2DData uninitialised vUv,
            vec4_eq (main sin texture2D texture2DData uninitialised
                          (uniforms this) vUv)
                    (texture2D (uTexA (uniforms this)) vUv))
      /\ direction (setHover this false) = (-1)%Z
      /\ (~ totalDuration (config this0) == 0 ->
          forall trace' this' h',
            noHoverEnter trace' ->
            run drawText trace' (setHover this false, h) = Some (this', h') ->
            direction this' = (-1)%Z
            /\ totalElapsedTime this' == 0
            /\ morphProgress this' == 0
            /\ uMorphProgress (uniforms this') == 0).
Proof.
  intros drawText canvas options t0 this0 h0 Hc trace this h Hno Hr.
  assert (H0 : direction this0 = 0%Z /\ totalElapsedTime this0 = 0
               /\ morphProgress this0 = 0
               /\ uMorphProgress (uniforms this0) = 0).
  { destruct (validateConfig_ok_or_throw (mergeOptions options))
      as [Hok|[e He]].
    2:{ rewrite (constructor_throw drawText canvas options _ e He) in Hc.
        discriminate. }
    revert Hc. unfold constructor. rewrite Hok. unfold newHost. run_code.
    intro Hc. injection Hc as <- <-. run_code. auto. }
  destruct H0 as (Hd0 & He0 & Hp0 & Hu0).
  destruct (idle_run _ _ _ _ _ _ Hno Hr Hd0) as (Hd & He & Hp & Hu).
  assert (Hidle : direction this = 0%Z /\ totalElapsedTime this = 0
                  /\ morphProgress this = 0
                  /\ uMorphProgress (uniforms this) = 0)
    by (repeat split; congruence).
  assert (Hnew : reachable drawText (this0, h0))
    by (eapply reachable_new; eauto).
  assert (Hreach : reachable drawText (this, h))
    by (eapply reachable_run; eauto).
  assert (Hcfg : config this = config this0)
    by exact (run_config _ _ _ _ _ _ Hr).
  assert (Hleave : direction (setHover this false) = (-1)%Z).
  { unfold setHover. rewrite Hd. reflexivity. }
  split; [exact Hidle|]. split; [|split; [exact Hleave|]].
  - (* what the shader draws *)
    intros Hiw HTpos sin texture2D texture2DData uninitialised vUv.
    pose proof (reachable_Inv _ _ Hreach) as HInv.
    pose proof (shaderTotalDuration_eq _ _ HInv) as HTs.
    pose proof (validateConfig_durations _ (inv_valid _ HInv)) as Hdur.
    pose proof (inv_uniforms _ HInv) as (E1 & E2 & E3 & _).
    cbn [fst] in *. rewrite Hcfg in *.
    apply main_at_start.
    + destruct Hidle as (_ & _ & _ & ->). reflexivity.
    + now rewrite E1.
    + now rewrite HTs.
    + now rewrite E2, E3.
  - intros HT trace' this' h' Hno' Hr'.
    assert (Hstep : exec drawText (SetHover false) (this, h)
                    = Some (setHover this false, h)) by reflexivity.
    assert (HInv : Inv (setHover this false, h)).
    { apply reachable_Inv with (drawText := drawText).
      eapply reachable_step; eauto. }
    assert (Hstart : atStart (setHover this false)).
    { unfold setHover. rewrite Hd. cbn [Z.eqb]. unfold atStart. run_code.
      destruct Hidle as (_ & -> & -> & ->). repeat split; reflexivity. }
    assert (HT' : ~ totalDuration (config (setHover this false)) == 0).
    { rewrite (exec_config _ _ _ _ _ _ Hstep). now rewrite Hcfg. }
    destruct (leaving_run _ _ _ _ _ _ HInv HT' Hno' Hr' Hleave Hstart)
      as (Hd' & He' & Hp' & Hu').
    auto.
Qed.

(** C10, as the specification words it, fails.  [validateConfig] accepts
    an initial wait of minus a tenth of a second.  The engine built with
    it is idle, with direction 0 and progress 0, but its shader is past
    the initial wait: it selects the flip from A to B and, where the
    noise is 0, the tile is half way through its flip and the pixel
    written is that of text B, not that of text A. *)
Lemma idle_render_counterexample :
  let this := fst earlyFlipEngine in
  let u := uniforms this in
  constructor blankText smallCanvas earlyFlipOptions (newHost 0)
  = (Ok this, snd earlyFlipEngine)
  /\ direction this = 0%Z
  /\ uMorphProgress u = 0
  /\ selectPhase u = FlipAB
  /\ vec4_eq (main flatSin byTexture clearData 0 u centre)
             (byTexture (uTexB u) centre)
  /\ ~ vec4_eq (main flatSin byTexture clearData 0 u centre)
               (byTexture (uTexA u) centre).
Proof.
  cbv zeta.
  split; [vm_compute; reflexivity|].
  split; [vm_compute; reflexivity|].
  split; [vm_compute; reflexivity|].
  split; [vm_compute; reflexivity|].
  split; [vm_compute; repeat split|].
  intros [Hr _]. vm_compute in Hr. discriminate.
Qed.

(** C6.  Construction runs [validateConfig] on the merged configuration
    and its outcome is that check's outcome: it throws exactly for the
    configurations the specification lists ([rejected]), and then the host
    is left as it was found (no GPU object, no frame request, no timer);
    otherwise it returns an engine that holds the validated configuration.
    Nothing validates again later, and nothing needs to: the configuration
    of a live engine never changes and stays one that is not [rejected]. *)
Theorem constructor_throws_iff_rejected :
  (forall drawText canvas options h,
     let config_ := mergeOptions options in
     match constructor drawText canvas options h with
     | (Throw e, h') =>
         rejected config_ /\ validateConfig config_ = Throw e /\ h' = h
     | (Ok this, h') =>
         ~ rejected config_ /\ validateConfig config_ = Ok tt
         /\ config this = config_
     end)
  /\ (forall drawText ev this h this' h',
        reachable drawText (this, h) ->
        exec drawText ev (this, h) = Some (this', h') ->
        config this' = config this /\ ~ rejected (config this')).
Proof.
  split.
  - intros drawText canvas options h config_.
    destruct (validateConfig_ok_or_throw config_) as [Hok | [e He]].
    + destruct (constructor_ok drawText canvas options h Hok)
        as (this & h' & Hc & Hcfg & _).
      rewrite Hc. repeat split; trivial.
      intro Hr. apply validateConfig_throws_iff in Hr.
      destruct Hr as [e He]. fold config_ in Hok. congruence.
    + rewrite (constructor_throw drawText canvas options h e He).
      repeat split; trivial.
      apply validateConfig_throws_iff. eauto.
  - intros drawText ev this h this' h' Hr He.
    split; [exact (exec_config _ _ _ _ _ _ He)|].
    pose proof (reachable_Inv _ _ (reachable_step _ _ _ _ Hr He)) as HInv.
    intro Hrej. apply validateConfig_throws_iff in Hrej.
    destruct Hrej as [e Hthrow].
    pose proof (inv_valid _ HInv) as Hok. cbn [fst] in Hok. congruence.
Qed.


(* ================================================================== *)
(** * Presence extraction *)

Lemma zrange_In lo hi z : In z (zrange lo hi) <-> (lo <= z < hi)%Z.
Proof.
  unfold zrange. rewrite in_map_iff. split.
  - intros (i & <- & Hi). apply in_seq in Hi. lia.
  - intros Hz. exists (Z.to_nat (z - lo)). split; [lia|].
    apply in_seq. lia.
Qed.

(** A read at a non-negative index sees the byte there, or nothing past
    the end, and [alpha > 0] is the same test as a non-zero byte. *)
Lemma positive_readPixel pixels i :
  (0 <= i)%Z ->
  isPositive (readPixel pixels i) = true <-> nth (Z.to_nat i) pixels 0%N <> 0%N.
Proof.
  intro Hi. unfold readPixel.
  destruct (Z.ltb_spec i 0) as [Hneg|_]; [lia|].
  destruct (nth_error pixels (Z.to_nat i)) as [a|] eqn:E.
  - rewrite (nth_error_nth _ _ _ E). cbn [isPositive].
    rewrite N.ltb_lt. lia.
  - apply nth_error_None in E. rewrite nth_overflow by exact E.
    cbn [isPositive]. split; [discriminate|congruence].
Qed.

Lemma tileStart_nonneg tileIndex cellSize :
  (0 <= tileIndex)%Z -> 0 <= cellSize -> (0 <= tileStart tileIndex cellSize)%Z.
Proof.
  intros Hi Hc. unfold tileStart, Math_floor.
  change 0%Z with (Qfloor 0). apply Qfloor_resp_le.
  apply Qmult_le_0_compat; [|exact Hc].
  change 0 with (inject_Z 0). now rewrite <- Zle_Qle.
Qed.

Lemma tileEnd_le tileIndex cellSize extent :
  (tileEnd tileIndex cellSize extent <= extent)%Z.
Proof. unfold tileEnd. lia. Qed.

(** [scanTileForText] answers whether the rectangle it walks holds a
    pixel with a non-zero alpha byte. *)
Lemma scanTileForText_spec canvas tileX tileY tileWidth tileHeight :
  (0 <= cwidth canvas)%Z ->
  (0 <= tileX)%Z -> (0 <= tileY)%Z -> 0 <= tileWidth -> 0 <= tileHeight ->
  scanTileForText (pixels canvas) (cwidth canvas) (cheight canvas)
                  tileX tileY tileWidth tileHeight = true
  <-> exists x y,
        (tileStart tileX tileWidth <= x
         < tileEnd tileX tileWidth (cwidth canvas))%Z
        /\ (tileStart tileY tileHeight <= y
            < tileEnd tileY tileHeight (cheight canvas))%Z
        /\ alphaAt canvas x y <> 0%N.
Proof.
  intros HW HX HY Hw Hh. unfold scanTileForText.
  fold (tileStart tileX tileWidth) (tileStart tileY tileHeight).
  fold (tileEnd tileX tileWidth (cwidth canvas))
       (tileEnd tileY tileHeight (cheight canvas)).
  pose proof (tileStart_nonneg tileX tileWidth HX Hw) as HsX.
  pose proof (tileStart_nonneg tileY tileHeight HY Hh) as HsY.
  rewrite existsb_exists. split.
  - intros (y & Hy & Hex). apply existsb_exists in Hex.
    destruct Hex as (x & Hx & Hpos).
    apply zrange_In in Hx, Hy. exists x, y. repeat split; try lia.
    apply positive_readPixel in Hpos; [exact Hpos|nia].
  - intros (x & y & Hx & Hy & Ha). exists y. split; [now apply zrange_In|].
    apply existsb_exists. exists x. split; [now apply zrange_In|].
    apply positive_readPixel; [nia|exact Ha].
Qed.

(** Every pixel of that rectangle lies on the canvas, and the read of
    its alpha byte is inside the pixel array. *)
Lemma scanTileForText_in_bounds canvas tileX tileY tileWidth tileHeight x y :
  (0 <= tileX)%Z -> (0 <= tileY)%Z -> 0 <= tileWidth -> 0 <= tileHeight ->
  List.length (pixels canvas) = Z.to_nat (4 * cwidth canvas * cheight canvas) ->
  (tileStart tileX tileWidth <= x < tileEnd tileX tileWidth (cwidth canvas))%Z ->
  (tileStart tileY tileHeight <= y
   < tileEnd tileY tileHeight (cheight canvas))%Z ->
  (0 <= x < cwidth canvas)%Z /\ (0 <= y < cheight canvas)%Z
  /\ (Z.to_nat ((y * cwidth canvas + x) * 4 + 3) < List.length (pixels canvas))%nat
  /\ readPixel (pixels canvas) ((y * cwidth canvas + x) * 4 + 3)
     = Some (alphaAt canvas x y).
Proof.
  intros HX HY Hw Hh Hlen Hx Hy.
  pose proof (tileStart_nonneg tileX tileWidth HX Hw) as HsX.
  pose proof (tileStart_nonneg tileY tileHeight HY Hh) as HsY.
  pose proof (tileEnd_le tileX tileWidth (cwidth canvas)).
  pose proof (tileEnd_le tileY tileHeight (cheight canvas)).
  assert (Hidx : (Z.to_nat ((y * cwidth canvas + x) * 4 + 3)
                  < List.length (pixels canvas))%nat).
  { rewrite Hlen. apply Z2Nat.inj_lt; nia. }
  repeat split; try lia.
  unfold readPixel, alphaAt.
  destruct (Z.ltb_spec ((y * cwidth canvas + x) * 4 + 3) 0); [nia|].
  now apply nth_error_nth'.
Qed.

Lemma arraySet_length array i v :
  List.length (arraySet array i v) = List.length array.
Proof.
  revert i. induction array as [|a array IH]; intros [|i]; cbn; auto.
Qed.

Lemma nth_arraySet_same array i v :
  (i < List.length array)%nat -> nth i (arraySet array i v) 0%N = v.
Proof.
  revert i. induction array as [|a array IH]; intros [|i] Hi; cbn in *;
    try lia; auto.
  apply IH. lia.
Qed.

Lemma nth_arraySet_other array i j v :
  i <> j -> nth j (arraySet array i v) 0%N = nth j array 0%N.
Proof.
  revert i j. induction array as [|a array IH]; intros [|i] [|j] Hij; cbn;
    try congruence; auto.
Qed.

(** A run of writes [array[index k] = value k]: afterwards every written
    slot holds the value of its key, given that keys with one slot agree
    on the value. *)
Lemma fold_arraySet {K} (index : K -> nat) (value : K -> N) (keys : list K) :
  forall array,
    (forall k k', In k keys -> In k' keys -> index k = index k' ->
                  value k = value k') ->
    (forall k, In k keys -> (index k < List.length array)%nat) ->
    let array' :=
      fold_left (fun a k => arraySet a (index k) (value k)) keys array in
    List.length array' = List.length array
    /\ (forall k, In k keys -> nth (index k) array' 0%N = value k)
    /\ (forall i, (forall k, In k keys -> index k <> i) ->
                  nth i array' 0%N = nth i array 0%N).
Proof.
  induction keys as [|k0 keys IH]; intros array Hagree Hlen; cbn [fold_left].
  - repeat split; trivial. intros k [].
  - destruct (IH (arraySet array (index k0) (value k0))) as (L & Hin & Hout).
    + intros k k' Hk Hk'. apply Hagree; now right.
    + intros k Hk. rewrite arraySet_length. apply Hlen. now right.
    + split; [now rewrite L, arraySet_length|]. split.
      * intros k [<-|Hk]; [|now apply Hin].
        destruct (in_dec Nat.eq_dec (index k0) (map index keys)) as [Hd|Hd].
        -- apply in_map_iff in Hd. destruct Hd as (k' & Hidx & Hk').
           pose proof (Hin k' Hk') as E. rewrite Hidx in E. rewrite E.
           apply Hagree; [now right|now left|exact Hidx].
        -- rewrite Hout.
           ++ apply nth_arraySet_same. apply Hlen. now left.
           ++ intros k Hk Heq. apply Hd. apply in_map_iff. eauto.
      * intros i Hi. rewrite Hout.
        -- apply nth_arraySet_other. apply Hi. now left.
        -- intros k Hk. apply Hi. now right.
Qed.

Lemma fold_left_map {A B C} (g : A -> B -> A) (f : C -> B) (l : list C) :
  forall a, fold_left g (map f l) a = fold_left (fun a x => g a (f x)) l a.
Proof. induction l as [|x l IH]; intro a; cbn; auto. Qed.

(** Two nested loops are one loop over the pairs, outer index first. *)
Lemma nested_fold {A} (f : A -> Z -> Z -> A) (xs ys : list Z) :
  forall a,
    fold_left (fun a y => fold_left (fun a x => f a y x) xs a) ys a
    = fold_left (fun a p => f a (fst p) (snd p)) (list_prod ys xs) a.
Proof.
  induction ys as [|y ys IH]; intro a; cbn [fold_left list_prod]; trivial.
  rewrite fold_left_app, fold_left_map. cbn [fst snd]. apply IH.
Qed.

(** The byte that [createPresenceTexture] leaves for a tile is 255 if
    [scanTileForText] finds text in that tile and 0 if not. *)
Lemma presenceData_nth grid canvas tileX tileY :
  (0 <= tileX < tcx grid)%Z -> (0 <= tileY < tcy grid)%Z ->
  nth (Z.to_nat (tileY * tcx grid + tileX)) (presenceData grid canvas) 0%N
  = if scanTileForText (pixels canvas) (cwidth canvas) (cheight canvas)
         tileX tileY
         (inject_Z (cwidth canvas) / inject_Z (tcx grid))
         (inject_Z (cheight canvas) / inject_Z (tcy grid))
    then 255%N else 0%N.
Proof.
  intros HX HY. unfold presenceData.
  rewrite (nested_fold
    (fun data tileY tileX =>
       arraySet data (Z.to_nat (tileY * tcx grid + tileX))
         (if scanTileForText (pixels canvas) (cwidth canvas) (cheight canvas)
               tileX tileY
               (inject_Z (cwidth canvas) / inject_Z (tcx grid))
               (inject_Z (cheight canvas) / inject_Z (tcy grid))
          then 255%N else 0%N))).
  pose proof (fold_arraySet
    (fun p : Z * Z => Z.to_nat (fst p * tcx grid + snd p))
    (fun p : Z * Z =>
       if scanTileForText (pixels canvas) (cwidth canvas) (cheight canvas)
            (snd p) (fst p)
            (inject_Z (cwidth canvas) / inject_Z (tcx grid))
            (inject_Z (cheight canvas) / inject_Z (tcy grid))
       then 255%N else 0%N)
    (list_prod (zrange 0 (tcy grid)) (zrange 0 (tcx grid)))
    (repeat 0%N (Z.to_nat (tcx grid * tcy grid)))) as Hfold.
  cbv zeta in Hfold. destruct Hfold as (_ & Hin & _).
  - intros [y x] [y' x'] Hk Hk' Hidx.
    apply in_prod_iff in Hk, Hk'. rewrite !zrange_In in Hk, Hk'.
    cbn [fst snd] in *.
    apply Z2Nat.inj in Hidx; [|nia|nia].
    destruct (Z.div_mod_unique (tcx grid) y y' x x') as [-> ->];
      [lia|lia|lia|reflexivity].
  - intros [y x] Hk. apply in_prod_iff in Hk. rewrite !zrange_In in Hk.
    cbn [fst snd]. rewrite repeat_length. apply Z2Nat.inj_lt; nia.
  - apply (Hin (tileY, tileX)).
    apply in_prod_iff. rewrite !zrange_In. lia.
Qed.

Lemma cell_nonneg extent count :
  (0 <= extent)%Z -> (1 <= count)%Z -> 0 <= inject_Z extent / inject_Z count.
Proof.
  intros He Hc. apply Qle_shift_div_l.
  - change 0 with (inject_Z 0). rewrite <- Zlt_Qlt. lia.
  - rewrite Qmult_0_l. change 0 with (inject_Z 0). now rewrite <- Zle_Qle.
Qed.

(** ** The scan in binary64 *)

(** Rounding keeps the sign it is given. *)
Lemma binary_round_aux_notNegative prec emax mx ex lx :
  IEEE.notNegative (binary_round_aux prec emax false mx ex lx).
Proof.
  unfold binary_round_aux.
  destruct (shr_fexp prec emax mx ex lx) as [mrs' e'].
  destruct (shr_fexp prec emax _ e' loc_Exact) as [mrs'' e''].
  destruct (shr_m mrs''); cbn; trivial.
  destruct (Z.leb e'' (emax - prec)); cbn; trivial.
Qed.

Lemma ofZ_notNegative f n : (0 <= n)%Z -> IEEE.notNegative (IEEE.ofZ f n).
Proof.
  intro Hn. unfold IEEE.ofZ, binary_normalize.
  destruct n as [|m|m]; [reflexivity| |lia].
  unfold binary_round. destruct (shl_align _ _ _) as [mz ez].
  apply binary_round_aux_notNegative.
Qed.

Lemma mul_notNegative f x y :
  IEEE.notNegative x -> IEEE.notNegative y -> IEEE.notNegative (IEEE.mul f x y).
Proof.
  unfold IEEE.mul.
  destruct x as [sx|sx| |sx mx ex], y as [sy|sy| |sy my ey];
    cbn [SFmul IEEE.notNegative]; intros Hx Hy; subst; trivial.
  apply binary_round_aux_notNegative.
Qed.

Lemma div_notNegative f x y :
  IEEE.notNegative x -> IEEE.notNegative y -> IEEE.notNegative (IEEE.div f x y).
Proof.
  unfold IEEE.div.
  destruct x as [sx|sx| |sx mx ex], y as [sy|sy| |sy my ey];
    cbn [SFdiv IEEE.notNegative]; intros Hx Hy; subst; trivial.
  destruct (SFdiv_core_binary _ _ _ _ _ _) as [[mz ez] lz].
  apply binary_round_aux_notNegative.
Qed.

Lemma floor_notNegative x n :
  IEEE.notNegative x -> IEEE.floor x = Some n -> (0 <= n)%Z.
Proof.
  destruct x as [s|s| |s m e]; cbn [IEEE.floor IEEE.notNegative];
    intros Hs E; try discriminate.
  - injection E as <-. lia.
  - subst s. injection E as <-. apply Z.shiftl_nonneg. lia.
Qed.

Lemma cellSize_notNegative extent count :
  (0 <= extent)%Z -> (0 <= count)%Z ->
  IEEE.notNegative (IEEE.cellSize extent count).
Proof.
  intros He Hc. apply div_notNegative; now apply ofZ_notNegative.
Qed.

Lemma tileStart64_nonneg tileIndex cellSize start :
  (0 <= tileIndex)%Z -> IEEE.notNegative cellSize ->
  IEEE.tileStart tileIndex cellSize = Some start -> (0 <= start)%Z.
Proof.
  intros Hi Hc. apply floor_notNegative.
  apply mul_notNegative; [now apply ofZ_notNegative|exact Hc].
Qed.

Lemma tileEnd64_le tileIndex cellSize extent e :
  IEEE.tileEnd tileIndex cellSize extent = Some e -> (e <= extent)%Z.
Proof.
  unfold IEEE.tileEnd.
  destruct (IEEE.tileStart tileIndex cellSize); [|discriminate].
  destruct (IEEE.ceil cellSize); [|discriminate].
  intro E. injection E as <-. lia.
Qed.

(** The binary64 scan answers whether the rectangle it walks holds a
    pixel with a non-zero alpha byte. *)
Lemma scanTileForText64_spec canvas tileX tileY tileWidth tileHeight :
  (0 <= cwidth canvas)%Z ->
  (0 <= tileX)%Z -> (0 <= tileY)%Z ->
  IEEE.notNegative tileWidth -> IEEE.notNegative tileHeight ->
  IEEE.scanTileForText (pixels canvas) (cwidth canvas) (cheight canvas)
                       tileX tileY tileWidth tileHeight = true
  <-> exists x y startX endX startY endY,
        IEEE.tileStart tileX tileWidth = Some startX
        /\ IEEE.tileEnd tileX tileWidth (cwidth canvas) = Some endX
        /\ IEEE.tileStart tileY tileHeight = Some startY
        /\ IEEE.tileEnd tileY tileHeight (cheight canvas) = Some endY
        /\ (startX <= x < endX)%Z /\ (startY <= y < endY)%Z
        /\ alphaAt canvas x y <> 0%N.
Proof.
  intros HW HX HY Hw Hh.
  pose proof (tileStart64_nonneg tileX tileWidth) as HsX.
  pose proof (tileStart64_nonneg tileY tileHeight) as HsY.
  unfold IEEE.scanTileForText, IEEE.tileEnd.
  fold (IEEE.tileStart tileX tileWidth) (IEEE.tileStart tileY tileHeight).
  destruct (IEEE.tileStart tileX tileWidth) as [startX|];
    [|split; [discriminate|intros (x & y & a & b & c & d & E & _); discriminate]].
  destruct (IEEE.tileStart tileY tileHeight) as [startY|];
    [|split; [discriminate
             |intros (x & y & a & b & c & d & _ & _ & E & _); discriminate]].
  destruct (IEEE.ceil tileWidth) as [ceilWidth|];
    [|split; [discriminate
             |intros (x & y & a & b & c & d & _ & E & _); discriminate]].
  destruct (IEEE.ceil tileHeight) as [ceilHeight|];
    [|split; [discriminate
             |intros (x & y & a & b & c & d & _ & _ & _ & E & _); discriminate]].
  specialize (HsX startX HX Hw eq_refl). specialize (HsY startY HY Hh eq_refl).
  cbv zeta. rewrite existsb_exists. split.
  - intros (y & Hy & Hex). apply existsb_exists in Hex.
    destruct Hex as (x & Hx & Hpos).
    apply zrange_In in Hx, Hy.
    exists x, y, startX, (Z.min (startX + ceilWidth) (cwidth canvas)),
      startY, (Z.min (startY + ceilHeight) (cheight canvas)).
    repeat split; try lia.
    apply positive_readPixel in Hpos; [exact Hpos|nia].
  - intros (x & y & sx & ex & sy & ey & Esx & Eex & Esy & Eey & Hx & Hy & Ha).
    injection Esx as <-. injection Eex as <-.
    injection Esy as <-. injection Eey as <-.
    exists y. split; [now apply zrange_In|].
    apply existsb_exists. exists x. split; [now apply zrange_In|].
    apply positive_readPixel; [nia|exact Ha].
Qed.

(** The byte that the binary64 [presenceData] holds for a tile is 255 if
    the binary64 scan finds text in that tile and 0 if not. *)
Lemma presenceData64_nth grid canvas tileX tileY :
  (0 <= tileX < tcx grid)%Z -> (0 <= tileY < tcy grid)%Z ->
  nth (Z.to_nat (tileY * tcx grid + tileX)) (IEEE.presenceData grid canvas) 0%N
  = if IEEE.scanTileForText (pixels canvas) (cwidth canvas) (cheight canvas)
         tileX tileY
         (IEEE.cellSize (cwidth canvas) (tcx grid))
         (IEEE.cellSize (cheight canvas) (tcy grid))
    then 255%N else 0%N.
Proof.
  intros HX HY. unfold IEEE.presenceData.
  fold (IEEE.cellSize (cwidth canvas) (tcx grid))
       (IEEE.cellSize (cheight canvas) (tcy grid)).
  cbv zeta.
  rewrite (nested_fold
    (fun data tileY tileX =>
       arraySet data (Z.to_nat (tileY * tcx grid + tileX))
         (if IEEE.scanTileForText (pixels canvas) (cwidth canvas)
               (cheight canvas) tileX tileY
               (IEEE.cellSize (cwidth canvas) (tcx grid))
               (IEEE.cellSize (cheight canvas) (tcy grid))
          then 255%N else 0%N))).
  pose proof (fold_arraySet
    (fun p : Z * Z => Z.to_nat (fst p * tcx grid + snd p))
    (fun p : Z * Z =>
       if IEEE.scanTileForText (pixels canvas) (cwidth canvas)
            (cheight canvas) (snd p) (fst p)
            (IEEE.cellSize (cwidth canvas) (tcx grid))
            (IEEE.cellSize (cheight canvas) (tcy grid))
       then 255%N else 0%N)
    (list_prod (zrange 0 (tcy grid)) (zrange 0 (tcx grid)))
    (repeat 0%N (Z.to_nat (tcx grid * tcy grid)))) as Hfold.
  cbv zeta in Hfold. destruct Hfold as (_ & Hin & _).
  - intros [y x] [y' x'] Hk Hk' Hidx.
    apply in_prod_iff in Hk, Hk'. rewrite !zrange_In in Hk, Hk'.
    cbn [fst snd] in *.
    apply Z2Nat.inj in Hidx; [|nia|nia].
    destruct (Z.div_mod_unique (tcx grid) y y' x x') as [-> ->];
      [lia|lia|lia|reflexivity].
  - intros [y x] Hk. apply in_prod_iff in Hk. rewrite !zrange_In in Hk.
    cbn [fst snd]. rewrite repeat_length. apply Z2Nat.inj_lt; nia.
  - apply (Hin (tileY, tileX)).
    apply in_prod_iff. rewrite !zrange_In. lia.
Qed.

(** Every pixel of the rectangle of the binary64 scan lies on the canvas,
    and the read of its alpha byte is inside the pixel array. *)
Lemma inBinary64Rect_in_bounds grid canvas tileX tileY x y :
  (0 <= tcx grid)%Z -> (0 <= tcy grid)%Z ->
  (0 <= cwidth canvas)%Z -> (0 <= cheight canvas)%Z ->
  (0 <= tileX)%Z -> (0 <= tileY)%Z ->
  List.length (pixels canvas) = Z.to_nat (4 * cwidth canvas * cheight canvas) ->
  inBinary64Rect grid canvas tileX tileY x y ->
  (0 <= x < cwidth canvas)%Z /\ (0 <= y < cheight canvas)%Z
  /\ (Z.to_nat ((y * cwidth canvas + x) * 4 + 3) < List.length (pixels canvas))%nat
  /\ readPixel (pixels canvas) ((y * cwidth canvas + x) * 4 + 3)
     = Some (alphaAt canvas x y).
Proof.
  intros Htx Hty HW HH HX HY Hlen
         (sx & ex & sy & ey & Esx & Eex & Esy & Eey & Hx & Hy).
  apply tileStart64_nonneg in Esx;
    [|exact HX|now apply cellSize_notNegative].
  apply tileStart64_nonneg in Esy;
    [|exact HY|now apply cellSize_notNegative].
  apply tileEnd64_le in Eex, Eey.
  assert (Hidx : (Z.to_nat ((y * cwidth canvas + x) * 4 + 3)
                  < List.length (pixels canvas))%nat).
  { rewrite Hlen. apply Z2Nat.inj_lt; nia. }
  repeat split; try lia.
  unfold readPixel, alphaAt.
  destruct (Z.ltb_spec ((y * cwidth canvas + x) * 4 + 3) 0); [nia|].
  now apply nth_error_nth'.
Qed.

(** C3, as the code has it.  The cell size [surfaceExtent / tileCount]
    and the product [tileIndex * cellSize] are binary64 numbers, each
    rounded to nearest.  The byte of a tile is 255 exactly when a pixel
    with non-zero alpha lies in the rectangle from
    [floor(tileIndex * cellSize)] (inclusive) to
    [min(floor(tileIndex * cellSize) + ceil(cellSize), surfaceExtent)]
    (exclusive) in each axis, and 0 otherwise; every pixel of that
    rectangle is on the surface and the read of its alpha byte is inside
    the pixel array. *)
Theorem presence_iff_ink_in_scanned_rect :
  forall grid canvas tileX tileY,
    (1 <= tcx grid)%Z -> (1 <= tcy grid)%Z ->
    (0 <= cwidth canvas)%Z -> (0 <= cheight canvas)%Z ->
    List.length (pixels canvas)
    = Z.to_nat (4 * cwidth canvas * cheight canvas) ->
    (0 <= tileX < tcx grid)%Z -> (0 <= tileY < tcy grid)%Z ->
    let value :=
      nth (Z.to_nat (tileY * tcx grid + tileX))
          (IEEE.presenceData grid canvas) 0%N in
    (value = 255%N <->
     exists x y, inBinary64Rect grid canvas tileX tileY x y
                 /\ alphaAt canvas x y <> 0%N)
    /\ (value = 255%N \/ value = 0%N)
    /\ (forall x y,
          inBinary64Rect grid canvas tileX tileY x y ->
          (0 <= x < cwidth canvas)%Z /\ (0 <= y < cheight canvas)%Z
          /\ (Z.to_nat ((y * cwidth canvas + x) * 4 + 3)
              < List.length (pixels canvas))%nat
          /\ readPixel (pixels canvas) ((y * cwidth canvas + x) * 4 + 3)
             = Some (alphaAt canvas x y)).
Proof.
  intros grid canvas tileX tileY Htx Hty HW HH Hlen HX HY value.
  assert (Hcw : IEEE.notNegative (IEEE.cellSize (cwidth canvas) (tcx grid)))
    by (apply cellSize_notNegative; lia).
  assert (Hch : IEEE.notNegative (IEEE.cellSize (cheight canvas) (tcy grid)))
    by (apply cellSize_notNegative; lia).
  subst value. rewrite presenceData64_nth by assumption.
  pose proof (scanTileForText64_spec canvas tileX tileY _ _ HW
                (proj1 HX) (proj1 HY) Hcw Hch) as Hscan.
  split; [|split].
  - destruct (IEEE.scanTileForText _ _ _ _ _ _ _) eqn:E.
    + split; [intros _|reflexivity].
      destruct (proj1 Hscan eq_refl)
        as (x & y & sx & ex & sy & ey & H1 & H2 & H3 & H4 & Hx & Hy & Ha).
      exists x, y. split; [|exact Ha].
      exists sx, ex, sy, ey. tauto.
    + split; [discriminate|].
      intros (x & y & (sx & ex & sy & ey & H1 & H2 & H3 & H4 & Hx & Hy) & Ha).
      assert (false = true) as Hne; [|discriminate Hne].
      apply Hscan. exists x, y, sx, ex, sy, ey. tauto.
  - destruct (IEEE.scanTileForText _ _ _ _ _ _ _); auto.
  - intros x y Hin.
    apply (inBinary64Rect_in_bounds grid canvas tileX tileY x y);
      try assumption; lia.
Qed.

(** C3, as the specification words it, fails: on [fivePixelCanvas] with
    [threeTiles] the rectangle of the middle tile would run from 1 to
    [ceil(2 * 5/3) = 4] and so hold the inked pixel 3, but the code walks
    1 to [1 + ceil(5/3) = 3] and leaves the tile's byte at 0, with exact
    cell sizes and with binary64 ones alike. *)
Lemma presence_spec_rect_counterexample :
  ~ (nth 1 (presenceData threeTiles fivePixelCanvas) 0%N = 255%N <->
     exists x y, inSpecRect threeTiles fivePixelCanvas 1 0 x y
                 /\ alphaAt fivePixelCanvas x y <> 0%N)
  /\ ~ (nth 1 (IEEE.presenceData threeTiles fivePixelCanvas) 0%N = 255%N <->
        exists x y, inSpecRect threeTiles fivePixelCanvas 1 0 x y
                    /\ alphaAt fivePixelCanvas x y <> 0%N).
Proof.
  assert (Hink : exists x y, inSpecRect threeTiles fivePixelCanvas 1 0 x y
                             /\ alphaAt fivePixelCanvas x y <> 0%N).
  { exists 3%Z, 0%Z. split.
    - unfold inSpecRect. vm_compute. intuition discriminate.
    - vm_compute. discriminate. }
  split; intros [_ H]; apply H in Hink; vm_compute in Hink; discriminate.
Qed.

(** The rounding shows on a strip 164 pixels wide under 20 tiles: tile
    15 starts at pixel 122 in the code, one before the exact
    [floor(15 * 8.2) = 123]. *)
Lemma tileStart_rounding_example :
  IEEE.tileStart 15 (IEEE.cellSize 164 20) = Some 122%Z
  /\ tileStart 15 (164 / 20) = 123%Z.
Proof. split; vm_compute; reflexivity. Qed.

(* ================================================================== *)
(** * Teardown *)

Lemma cancelAnimationFrame_pending id h :
  pendingFrame h = Some id ->
  cancelAnimationFrame id h = (tt, withPendingFrame None h).
Proof.
  intro Hp. unfold cancelAnimationFrame. now rewrite Hp, Nat.eqb_refl.
Qed.

(** The host that [destroy] leaves behind. *)
Lemma destroy_host this h :
  Inv (this, h) ->
  snd (destroy this h)
  = {| now := now h; nextObject := nextObject h;
       disposed := rev (handles this) ++ disposed h;
       nextFrame := nextFrame h; pendingFrame := None;
       nextTimer := nextTimer h; pendingTimers := [];
       drawCalls := drawCalls h |}.
Proof.
  intro HInv. destruct_Inv HInv.
  destruct Hframe as [Haf Hpf].
  destruct (pendingFrame h) as [id|] eqn:Ep; [|congruence].
  unfold destroy, bind. rewrite Haf.
  rewrite (cancelAnimationFrame_pending id h Ep).
  rewrite clearResizeTimeout_clears by exact Htimers.
  unfold handles. run_code. reflexivity.
Qed.

Lemma handles_NoDup this h : Inv (this, h) -> NoDup (handles this).
Proof.
  intro HInv. destruct_Inv HInv.
  destruct Hlayout as
    (k & HA & HB & HC & HpA & HpB & HpC & Hrmg & Hrk & Hgm & Hk & Hg).
  unfold handles. rewrite HA, HB, HC, HpA, HpB, HpC.
  repeat constructor; cbn [In]; lia.
Qed.

(** C9.  After [destroy()] of a live engine no animation frame and no
    timer is pending, so however much time passes the host never runs a
    callback of the engine again; and each of the nine GPU objects (the
    three text textures, the three presence textures, the renderer, the
    material and the geometry), which are nine different objects none of
    which had been disposed, has been disposed exactly once. *)
Theorem destroy_releases_everything :
  forall drawText this h,
    reachable drawText (this, h) ->
    let h' := snd (destroy this h) in
    pendingFrame h' = None
    /\ pendingTimers h' = []
    /\ (forall trace s',
          run drawText trace (this, h') = Some s' ->
          noApiCall trace ->
          forall ev, In ev trace -> exists t, ev = Tick t)
    /\ List.length (handles this) = 9%nat
    /\ NoDup (handles this)
    /\ Forall (fun id => disposeCount h id = 0%nat
                        /\ disposeCount h' id = 1%nat)
              (handles this)
    /\ List.length (disposed h') = (List.length (disposed h) + 9)%nat.
Proof.
  intros drawText this h Hr h'. apply reachable_Inv in Hr.
  subst h'. rewrite (destroy_host this h Hr).
  pose proof (handles_NoDup this h Hr) as Hnd.
  cbn [pendingFrame pendingTimers disposed].
  split; [reflexivity|]. split; [reflexivity|]. split; [|split; [|split; [|split]]].
  - intros trace.
    match goal with
    | |- forall s', run _ _ (_, ?h0) = _ -> _ =>
      assert (Hidle : pendingFrame h0 = None /\ pendingTimers h0 = [])
        by (split; reflexivity);
      generalize dependent h0
    end.
    induction trace as [|ev trace IH]; intros h0 [Hpf Hpt] s' Hrun Hno ev' Hin.
    + destruct Hin.
    + cbn [run] in Hrun.
      destruct (exec drawText ev (this, h0)) as [s1|] eqn:He; [|discriminate].
      destruct ev as [t | | id | hover | width height]; cbn [exec] in He.
      * destruct (now h0 <=? t); [|discriminate].
        apply Some_inj in He. subst s1.
        destruct Hin as [<-|Hin]; [eauto|].
        apply (IH (withNow t h0)) with (s' := s'); auto.
        intros (e0 & Hin0 & Hapi). apply Hno.
        exists e0. split; [now right|exact Hapi].
      * rewrite Hpf in He. discriminate.
      * unfold findTimer in He. rewrite Hpt in He. discriminate.
      * exfalso. apply Hno. eexists. split; [now left|exact I].
      * exfalso. apply Hno. eexists. split; [now left|exact I].
  - reflexivity.
  - exact Hnd.
  - pose proof (inv_live _ Hr) as Hlive. cbn [fst snd] in Hlive.
    rewrite Forall_forall in *. intros id Hid.
    unfold disposeCount. cbn [disposed].
    assert (H0 : count_occ Nat.eq_dec (disposed h) id = 0%nat)
      by (apply count_occ_not_In; now apply Hlive).
    split; [exact H0|].
    rewrite count_occ_app, count_occ_rev, H0, Nat.add_0_r.
    now apply (proj1 (NoDup_count_occ' Nat.eq_dec (handles this))).
  - rewrite length_app, length_rev. cbn [handles List.length]. lia.
Qed.

(* ================================================================== *)
(** * Resize coalescing *)

Lemma animate_view this h :
  view (fst (animate this h)) = view this
  /\ pendingTimers (snd (animate this h)) = pendingTimers h
  /\ nextObject (snd (animate this h)) = nextObject h
  /\ now (snd (animate this h)) = now h.
Proof.
  unfold view. run_code.
  destruct (direction this =? 0)%Z; run_code; auto.
Qed.

Lemma setHover_view this hover : view (setHover this hover) = view this.
Proof.
  unfold setHover.
  destruct hover;
    match goal with |- context [if ?b then _ else _] => destruct b end;
    reflexivity.
Qed.

(** What one [resize] call does, beyond the timeline it leaves alone. *)
Lemma resize_effect this h width height :
  Inv (this, h) ->
  let this' := fst (resize this width height h) in
  let h' := snd (resize this width height h) in
  rendererSize (renderer this') = {| dx := width; dy := height |}
  /\ uResolution (uniforms this') = {| dx := width; dy := height |}
  /\ sameTextures this' this
  /\ config this' = config this
  /\ useTileDimensions this' = useTileDimensions this
  /\ resizeTimeout this' = Some (nextTimer h)
  /\ pendingTimers h'
     = [ {| timerId := nextTimer h;
            due := now h + resizeDebounceMs (config this);
            timerWidth := width; timerHeight := height |} ]
  /\ nextObject h' = nextObject h
  /\ now h' = now h.
Proof.
  intro HInv. destruct_Inv HInv. unfold resize, bind.
  rewrite clearResizeTimeout_clears by (run_code; exact Htimers).
  unfold setTimeout, ret, sameTextures. run_code.
  repeat split; reflexivity.
Qed.

(** What the callback of the debounce timer does. *)
Lemma resizeSettled_effect drawText this h width height :
  uTiles (uniforms this) = this_tiles this ->
  let this' := fst (resizeSettled drawText this width height h) in
  let h' := snd (resizeSettled drawText this width height h) in
  renderer this' = renderer this
  /\ uResolution (uniforms this') = uResolution (uniforms this)
  /\ config this' = config this
  /\ useTileDimensions this' = useTileDimensions this
  /\ resizeTimeout this' = resizeTimeout this
  /\ regeneratedAt drawText this this' {| dx := width; dy := height |}
  /\ nextObject h' = (nextObject h + 6)%nat
  /\ pendingTimers h' = pendingTimers h
  /\ now h' = now h.
Proof.
  intro Htiles. unfold resizeSettled, regeneratedAt, settledGrid.
  destruct (useTileDimensions this) eqn:Emode; run_code;
    rewrite ?Emode; repeat split; try reflexivity; try lia.
  exact Htiles.
Qed.

Lemma view_fields this this' :
  view this' = view this ->
  renderer this' = renderer this
  /\ uResolution (uniforms this') = uResolution (uniforms this)
  /\ uTexA (uniforms this') = uTexA (uniforms this)
  /\ uTexB (uniforms this') = uTexB (uniforms this)
  /\ uTexC (uniforms this') = uTexC (uniforms this)
  /\ uPresenceA (uniforms this') = uPresenceA (uniforms this)
  /\ uPresenceB (uniforms this') = uPresenceB (uniforms this)
  /\ uPresenceC (uniforms this') = uPresenceC (uniforms this)
  /\ uTiles (uniforms this') = uTiles (uniforms this)
  /\ this_tiles this' = this_tiles this
  /\ config this' = config this
  /\ useTileDimensions this' = useTileDimensions this
  /\ resizeTimeout this' = resizeTimeout this.
Proof.
  unfold view. intro H. injection H as -> -> -> -> -> -> -> -> -> -> -> -> ->.
  repeat split.
Qed.

(** Events that touch neither the view, the timers nor the GPU objects
    keep the state of the burst. *)
Lemma Coalescing_view drawText this0 h0 last size count this h this' h' :
  Coalescing drawText this0 h0 last size count (this, h) ->
  Inv (this', h') ->
  view this' = view this ->
  pendingTimers h' = pendingTimers h ->
  nextObject h' = nextObject h ->
  now h <= now h' ->
  Coalescing drawText this0 h0 last size count (this', h').
Proof.
  intros (HInv & Hcfg & Hmode & Hsize & Hres & Hcase) HInv' Hview Hpt Hno Hnow.
  apply view_fields in Hview.
  destruct Hview as (Er & Eres & EA & EB & EC & EpA & EpB & EpC & Eu & Et
                     & Ec & Em & Ert).
  cbn [fst snd] in *.
  unfold Coalescing, sameTextures, regeneratedAt in *. cbn [fst snd] in *.
  rewrite Er, Eres, EA, EB, EC, EpA, EpB, EpC, Eu, Et, Ec, Em, Ert, Hpt, Hno.
  refine (conj HInv' (conj Hcfg (conj Hmode (conj Hsize (conj Hres _))))).
  destruct Hcase as [(Hk & Ht & Hn & Hsame)|(Hk & Ht & Hdue & Hn & Hreg)].
  - left. auto.
  - right. repeat split; trivial; try tauto. lra.
Qed.


Lemma sameTextures_trans a b c :
  sameTextures a b -> sameTextures b c -> sameTextures a c.
Proof.
  unfold sameTextures.
  intros (A1 & A2 & A3 & A4 & A5 & A6 & A7 & A8)
         (B1 & B2 & B3 & B4 & B5 & B6 & B7 & B8).
  repeat split; congruence.
Qed.

Lemma Coalescing_run drawText this0 h0 : forall trace last size count s s',
  Coalescing drawText this0 h0 last size count s ->
  burst (resizeDebounceMs (config this0)) (now (snd s)) last trace ->
  run drawText trace s = Some s' ->
  exists last',
    Coalescing drawText this0 h0 last' (lastResize size trace)
               (count + regenerations trace) s'.
Proof.
  induction trace as [|ev trace IH]; intros last size count [this h] s' HC Hb Hr.
  - cbn in Hr. apply Some_inj in Hr. subst s'.
    exists last. cbn [lastResize regenerations]. now rewrite Nat.add_0_r.
  - cbn [run] in Hr.
    destruct (exec drawText ev (this, h)) as [[this1 h1]|] eqn:He;
      [|discriminate].
    pose proof HC as (HInv & Hcfg & Hmode & Hsize & Hres & Hcase).
    pose proof (Inv_exec _ _ _ _ HInv He) as HInv1.
    cbn [fst snd] in *.
    destruct ev as [t | | id | hover | width height];
      cbn [exec burst lastResize regenerations] in *.
    + (* Tick *)
      destruct (Qleb_cases (now h) t) as [[E Hle]|[E Hle]]; rewrite E in He;
        [|discriminate].
      apply Some_inj in He. injection He as <- <-.
      apply (IH last size count (this, withNow t h) s'); trivial.
      apply (Coalescing_view _ _ _ _ _ _ this h); trivial.
    + (* Frame *)
      destruct (pendingFrame h); [|discriminate].
      apply Some_inj in He.
      pose proof (animate_view this (withPendingFrame None h)) as Ha.
      rewrite He in Ha. cbn [fst snd] in Ha.
      destruct Ha as (Hv & Hpt & Hno & Hnow).
      change (now (withPendingFrame None h)) with (now h) in Hnow.
      apply (IH last size count (this1, h1) s'); trivial.
      * apply (Coalescing_view _ _ _ _ _ _ this h); trivial.
        rewrite Hnow. apply Qle_refl.
      * cbn [snd]. now rewrite Hnow.
    + (* Timeout *)
      destruct (findTimer id h) as [t|] eqn:Hf; [|discriminate].
      destruct (Qleb_cases (due t) (now h)) as [[E Hdue]|[E Hdue]];
        rewrite E in He; [|discriminate].
      apply Some_inj in He.
      destruct (findTimer_removeTimer this h id t HInv Hf) as (Hpt & Hid & Hrm).
      destruct Hcase as [(Hk & (t' & Ht' & Hw & Hh & Hd & Hrt) & Hn & Hsame)
                        |(Hk & Hnil & _)].
      2:{ rewrite Hnil in Hpt. discriminate. }
      rewrite Hpt in Ht'. injection Ht' as <-.
      pose proof (resizeSettled_effect drawText this (removeTimer id h)
                    (timerWidth t) (timerHeight t)
                    (inv_tiles _ HInv)) as Hs.
      rewrite He in Hs. cbn [fst snd] in Hs.
      destruct Hs as (Er & Eres & Ec & Em & Ert & Hreg & Hno & Hpt1 & Hnow).
      change (now (removeTimer id h)) with (now h) in Hnow.
      change (nextObject (removeTimer id h)) with (nextObject h) in Hno.
      subst count. cbn [Nat.add].
      apply (IH last size 1%nat (this1, h1) s'); trivial.
      * unfold Coalescing. cbn [fst snd].
        rewrite Ec, Em, Er, Eres.
        refine (conj HInv1 (conj Hcfg (conj Hmode (conj Hsize (conj Hres _))))).
        right. refine (conj eq_refl (conj _ (conj _ (conj _ _)))).
        -- now rewrite Hpt1.
        -- rewrite Hnow, <- Hd. exact Hdue.
        -- lia.
        -- destruct Hsame as (_ & _ & _ & _ & _ & _ & _ & Hgrid).
           destruct size as [sw sh]. cbn [dx dy] in *. subst sw sh.
           unfold regeneratedAt, settledGrid in *.
           rewrite Hcfg, Hmode, Hgrid in Hreg. exact Hreg.
      * cbn [snd]. now rewrite Hnow.
    + (* SetHover *)
      apply Some_inj in He. injection He as <- <-.
      apply (IH last size count (setHover this hover, h) s'); trivial.
      apply (Coalescing_view _ _ _ _ _ _ this h); trivial.
      * apply setHover_view.
      * apply Qle_refl.
    + (* Resize *)
      destruct Hb as [Hgap Hb].
      apply Some_inj in He.
      pose proof (resize_effect this h width height HInv) as Hs.
      rewrite He in Hs. cbn [fst snd] in Hs.
      destruct Hs as (Er & Eres & Hsame1 & Ec & Em & Ert & Hpt1 & Hno & Hnow).
      destruct Hcase as [(Hk & _ & Hn & Hsame)|(Hk & _ & Hdue & _)].
      2:{ exfalso. lra. }
      subst count.
      apply (IH (now h) {| dx := width; dy := height |} 0%nat (this1, h1) s');
        trivial.
      * unfold Coalescing. cbn [fst snd].
        refine (conj HInv1 (conj _ (conj _ (conj Er (conj Eres _)))));
          try congruence.
        left. refine (conj eq_refl (conj _ (conj _ _))).
        -- eexists. split; [exact Hpt1|].
           cbn [timerWidth timerHeight due timerId dx dy].
           repeat split; trivial. now rewrite Hcfg.
        -- congruence.
        -- eapply sameTextures_trans; eauto.
      * cbn [snd]. now rewrite Hnow.
Qed.

(** C8.  Take a live engine and any run that starts with a [resize] call
    and in which every further [resize] call comes less than the debounce
    interval after the one before it, whatever else happens in between.
    At the end of the run the renderer and the resolution uniform hold
    the size of the last call (so every call takes effect at once); at
    most one regeneration has run; while none has run, the textures are
    untouched and exactly one timer is pending, which carries the size of
    the last call and fires once its delay has passed; when one has run,
    no timer is pending, six GPU objects were created, the textures and
    presence masks are those for the size of the last call, and in
    tile-pixel-size mode they were made on the grid recomputed from that
    size; and when no timer is pending, exactly one regeneration has
    run. *)
Theorem resize_burst_coalesces :
  forall drawText this0 h0 width0 height0 trace this1 h1,
    reachable drawText (this0, h0) ->
    run drawText (Resize width0 height0 :: trace) (this0, h0)
    = Some (this1, h1) ->
    burst (resizeDebounceMs (config this0)) (now h0) (now h0) trace ->
    let size := lastResize {| dx := width0; dy := height0 |} trace in
    rendererSize (renderer this1) = size
    /\ uResolution (uniforms this1) = size
    /\ (regenerations trace <= 1)%nat
    /\ (regenerations trace = 0%nat ->
        sameTextures this1 this0
        /\ nextObject h1 = nextObject h0
        /\ exists t,
             pendingTimers h1 = [t]
             /\ timerWidth t = dx size /\ timerHeight t = dy size
             /\ forall later, now h1 <= later -> due t <= later ->
                  exists s2,
                    run drawText [Tick later; Timeout (timerId t)] (this1, h1)
                    = Some s2)
    /\ (regenerations trace = 1%nat ->
        pendingTimers h1 = []
        /\ nextObject h1 = (nextObject h0 + 6)%nat
        /\ regeneratedAt drawText this0 this1 size)
    /\ (pendingTimers h1 = [] -> regenerations trace = 1%nat).
Proof.
  intros drawText this0 h0 width0 height0 trace this1 h1 Hreach Hrun Hb size.
  apply reachable_Inv in Hreach.
  cbn [run exec] in Hrun.
  destruct (resize this0 width0 height0 h0) as [thisR hR] eqn:Er.
  pose proof (resize_effect this0 h0 width0 height0 Hreach) as Hs.
  rewrite Er in Hs. cbn [fst snd] in Hs.
  destruct Hs as (Esz & Eres & Hsame & Ec & Em & Ert & Hpt & Hno & Hnow).
  assert (HC : Coalescing drawText this0 h0 (now h0)
                 {| dx := width0; dy := height0 |} 0 (thisR, hR)).
  { unfold Coalescing. cbn [fst snd].
    refine (conj _ (conj Ec (conj Em (conj Esz (conj Eres _))))).
    - rewrite <- Er. now apply Inv_resize.
    - left. refine (conj eq_refl (conj _ (conj Hno Hsame))).
      eexists. split; [exact Hpt|].
      cbn [timerWidth timerHeight due timerId dx dy].
      repeat split; try reflexivity. exact Ert. }
  assert (Hb' : burst (resizeDebounceMs (config this0)) (now (snd (thisR, hR)))
                      (now h0) trace)
    by (cbn [snd]; now rewrite Hnow).
  destruct (Coalescing_run drawText this0 h0 trace _ _ _ _ (this1, h1)
              HC Hb' Hrun) as (last' & HC1).
  fold size in HC1. cbn [Nat.add] in HC1.
  destruct HC1 as (HInv1 & _ & _ & Hsize1 & Hres1 & Hcase).
  cbn [fst snd] in *.
  split; [exact Hsize1|]. split; [exact Hres1|].
  destruct Hcase as [(Hk & (t & Ht & Hw & Hh & Hd & Hrt) & Hn & Hsame1)
                    |(Hk & Hnil & Hdue & Hn & Hreg)].
  - rewrite Hk. split; [lia|]. split; [|split].
    + intros _. split; [exact Hsame1|]. split; [exact Hn|].
      exists t. repeat split; trivial.
      intros later Hnow1 Hlater. cbn [run exec].
      destruct (Qleb_cases (now h1) later) as [[E _]|[E Hlt]]; [|lra].
      rewrite E. cbn [exec]. unfold findTimer. cbn [pendingTimers withNow].
      rewrite Ht. cbn [find]. rewrite Nat.eqb_refl.
      cbn [now withNow].
      destruct (Qleb_cases (due t) later) as [[E' _]|[E' Hlt]]; [|lra].
      rewrite E'. eauto.
    + intro H. discriminate.
    + intro H. rewrite Ht in H. discriminate.
  - rewrite Hk. split; [lia|]. split; [|split].
    + intro H. discriminate.
    + intros _. auto.
    + intros _. reflexivity.
Qed.

(* ================================================================== *)
(** * The fragment shader outside and inside the flip windows *)

Lemma tileFlipProgress_window u noise p :
  tileFlipProgress u noise p
  = smoothstep (flipWindowStart u noise) (flipWindowEnd u noise) p.
Proof. reflexivity. Qed.

Lemma clamp_unit x : 0 <= clamp x 0 1 <= 1.
Proof.
  unfold clamp.
  destruct (Math_max_spec x 0) as [[H1 E1]|[H1 E1]]; rewrite E1;
  match goal with |- context [Math_min ?a ?b] =>
    destruct (Math_min_spec a b) as [[H2 E2]|[H2 E2]]; rewrite E2 end; lra.
Qed.

Lemma clamp_mono x y : x <= y -> clamp x 0 1 <= clamp y 0 1.
Proof.
  intro H. unfold clamp.
  destruct (Math_max_spec x 0) as [[H1 E1]|[H1 E1]]; rewrite E1;
  destruct (Math_max_spec y 0) as [[H3 E3]|[H3 E3]]; rewrite E3;
  repeat match goal with |- context [Math_min ?a ?b] =>
    let H2 := fresh "H" in let E2 := fresh "E" in
    destruct (Math_min_spec a b) as [[H2 E2]|[H2 E2]]; rewrite E2 end; lra.
Qed.

Lemma hermite_unit t : 0 <= t <= 1 -> 0 <= t * t * (3 - 2 * t) <= 1.
Proof.
  intros [H0 H1].
  assert (Ht : 0 <= t * t) by (apply Qmult_le_0_compat; assumption).
  assert (Hu : 0 <= (1 - t) * (1 - t)) by (apply Qmult_le_0_compat; lra).
  split.
  - apply Qmult_le_0_compat; lra.
  - assert (Hp : 0 <= (1 - t) * (1 - t) * (1 + 2 * t))
      by (apply Qmult_le_0_compat; lra).
    assert (E : 1 - t * t * (3 - 2 * t) == (1 - t) * (1 - t) * (1 + 2 * t))
      by ring.
    lra.
Qed.

Lemma hermite_mono a b :
  0 <= a -> a <= b -> b <= 1 ->
  a * a * (3 - 2 * a) <= b * b * (3 - 2 * b).
Proof.
  intros Ha Hab Hb.
  assert (E : b * b * (3 - 2 * b) - a * a * (3 - 2 * a)
              == (b - a) * (2 * (a * (1 - a)) + 2 * (b * (1 - b))
                            + a * (1 - b) + b * (1 - a))) by ring.
  assert (H1 : 0 <= a * (1 - a)) by (apply Qmult_le_0_compat; lra).
  assert (H2 : 0 <= b * (1 - b)) by (apply Qmult_le_0_compat; lra).
  assert (H3 : 0 <= a * (1 - b)) by (apply Qmult_le_0_compat; lra).
  assert (H4 : 0 <= b * (1 - a)) by (apply Qmult_le_0_compat; lra).
  assert (H5 : 0 <= (b - a) * (2 * (a * (1 - a)) + 2 * (b * (1 - b))
                               + a * (1 - b) + b * (1 - a)))
    by (apply Qmult_le_0_compat; lra).
  lra.
Qed.

Lemma smoothstep_unit e0 e1 x : 0 <= smoothstep e0 e1 x <= 1.
Proof. unfold smoothstep. apply hermite_unit, clamp_unit. Qed.

Lemma smoothstep_mono e0 e1 x y :
  e0 < e1 -> x <= y -> smoothstep e0 e1 x <= smoothstep e0 e1 y.
Proof.
  intros He Hxy. unfold smoothstep.
  pose proof (clamp_unit ((x - e0) / (e1 - e0))) as [Hx0 Hx1].
  pose proof (clamp_unit ((y - e0) / (e1 - e0))) as [Hy0 Hy1].
  apply hermite_mono; trivial.
  apply clamp_mono. apply Qdiv_le_mono; lra.
Qed.

Lemma smoothstep_after e0 e1 x :
  e0 < e1 -> e1 <= x -> smoothstep e0 e1 x == 1.
Proof.
  intros He Hx. unfold smoothstep, clamp.
  assert (Hq : 1 <= (x - e0) / (e1 - e0)).
  { apply Qle_shift_div_l; lra. }
  destruct (Math_max_spec ((x - e0) / (e1 - e0)) 0) as [[H1 E1]|[H1 E1]];
    rewrite E1; [lra|].
  destruct (Math_min_spec ((x - e0) / (e1 - e0)) 1) as [[H2 E2]|[H2 E2]];
    rewrite E2; [ring|].
  assert (E : (x - e0) / (e1 - e0) == 1) by lra. rewrite E. ring.
Qed.

(** A pixel whose tile has not begun to flip shows the first texture of
    its arm, and one whose tile has finished shows the second. *)
Lemma main_unflipped sin texture2D texture2DData uninitialised u vUv :
  let l := locals sin texture2D texture2DData uninitialised u vUv in
  flipProgress l == 0 ->
  invertAt sin texture2D texture2DData uninitialised u vUv == 0
  /\ invertBranchTaken sin texture2D texture2DData uninitialised u vUv = false
  /\ vec4_eq (main sin texture2D texture2DData uninitialised u vUv) (tex1 l).
Proof.
  intros l Hfp.
  assert (Hi : invertAt sin texture2D texture2DData uninitialised u vUv == 0).
  { unfold invertAt. cbv zeta. fold l. rewrite Hfp. ring. }
  assert (Hb : invertBranchTaken sin texture2D texture2DData uninitialised
                 u vUv = false).
  { unfold invertBranchTaken. apply Qgtb_le. rewrite Hi. discriminate. }
  split; [exact Hi|]. split; [exact Hb|].
  unfold main. cbv zeta. rewrite Hb. fold l. now apply mix_start.
Qed.

Lemma main_flipped sin texture2D texture2DData uninitialised u vUv :
  let l := locals sin texture2D texture2DData uninitialised u vUv in
  flipProgress l == 1 ->
  vec4_eq (main sin texture2D texture2DData uninitialised u vUv) (tex2 l).
Proof.
  intros l Hfp. unfold main. cbv zeta. fold l.
  unfold mix, vec4_eq; cbn [cr cg cb ca]. rewrite Hfp.
  repeat split; ring.
Qed.

(** X1.  In the three hold arms of the chain (initial wait, wait between
    the flips, final wait) the invert branch is not taken and every pixel
    written is the plain texel of text A, text B and text C respectively,
    whatever the uninitialised local [hasTextTarget] happens to hold. *)
Theorem hold_phases_show_text :
  forall sin texture2D texture2DData uninitialised u vUv,
    ~ shaderTotalDuration u == 0 ->
    let color := main sin texture2D texture2DData uninitialised u vUv in
    let inverted :=
      invertBranchTaken sin texture2D texture2DData uninitialised u vUv in
    (selectPhase u = InitialWait ->
     inverted = false /\ vec4_eq color (texture2D (uTexA u) vUv))
    /\ (selectPhase u = WaitBetween ->
        inverted = false /\ vec4_eq color (texture2D (uTexB u) vUv))
    /\ (selectPhase u = FinalWait ->
        inverted = false /\ vec4_eq color (texture2D (uTexC u) vUv)).
Proof.
  intros sin texture2D texture2DData uninitialised u vUv _ color inverted.
  subst color inverted.
  pose proof (main_unflipped sin texture2D texture2DData uninitialised u vUv)
    as H.
  cbv zeta in H. unfold locals in H.
  split; [|split]; intro Hphase; rewrite Hphase in H;
    cbn [flipProgress tex1] in H;
    destruct H as (_ & Hb & Hc); try reflexivity; auto.
Qed.

Lemma flipWindow_inside u r :
  0 < uSingleTileFlipDuration u <= uAllTilesFlipDuration u ->
  0 <= r < 1 ->
  0 <= flipWindowStart u r
  /\ flipWindowStart u r < flipWindowEnd u r
  /\ flipWindowEnd u r <= 1.
Proof.
  intros [Hs Ha] [Hr0 Hr1]. unfold flipWindowEnd, flipWindowStart.
  assert (Hw : 0 < uSingleTileFlipDuration u / uAllTilesFlipDuration u)
    by (apply Qlt_shift_div_l; lra).
  assert (Hn : 0 <= r * (uAllTilesFlipDuration u - uSingleTileFlipDuration u))
    by (apply Qmult_le_0_compat; lra).
  split; [|split].
  - apply Qle_shift_div_l; lra.
  - lra.
  - assert (E : r * (uAllTilesFlipDuration u - uSingleTileFlipDuration u)
                / uAllTilesFlipDuration u
                + uSingleTileFlipDuration u / uAllTilesFlipDuration u
                == (r * (uAllTilesFlipDuration u - uSingleTileFlipDuration u)
                    + uSingleTileFlipDuration u) / uAllTilesFlipDuration u)
      by (field; lra).
    rewrite E. apply Qle_shift_div_r; [lra|].
    assert (Hm : 0 <= (1 - r)
                      * (uAllTilesFlipDuration u - uSingleTileFlipDuration u))
      by (apply Qmult_le_0_compat; lra).
    lra.
Qed.

(** X2.  The flip window of every tile lies inside the phase
    ([0 <= start < end <= 1]).  In a flip arm a pixel whose phase progress
    has not passed its tile's window start is the source texel, untouched,
    and a pixel whose phase progress has reached the window end is the
    target texel: every tile has finished by the end of the phase. *)
Theorem tile_flips_inside_its_window :
  forall sin texture2D texture2DData uninitialised u vUv,
    0 < shaderTotalDuration u ->
    0 < uSingleTileFlipDuration u <= uAllTilesFlipDuration u ->
    let r := noiseAt sin u vUv in
    let color := main sin texture2D texture2DData uninitialised u vUv in
    (0 <= flipWindowStart u r
     /\ flipWindowStart u r < flipWindowEnd u r
     /\ flipWindowEnd u r <= 1)
    /\ (selectPhase u = FlipAB ->
        (phaseProgressAB u <= flipWindowStart u r ->
         vec4_eq color (texture2D (uTexA u) vUv))
        /\ (flipWindowEnd u r <= phaseProgressAB u ->
            vec4_eq color (texture2D (uTexB u) vUv)))
    /\ (selectPhase u = FlipBC ->
        (phaseProgressBC u <= flipWindowStart u r ->
         vec4_eq color (texture2D (uTexB u) vUv))
        /\ (flipWindowEnd u r <= phaseProgressBC u ->
            vec4_eq color (texture2D (uTexC u) vUv))).
Proof.
  intros sin texture2D texture2DData uninitialised u vUv _ Hdur r color.
  pose proof (flipWindow_inside u r Hdur (noise_range sin u vUv))
    as (H0 & Hlt & H1).
  split; [auto|].
  pose proof (main_unflipped sin texture2D texture2DData uninitialised u vUv)
    as Hun.
  pose proof (main_flipped sin texture2D texture2DData uninitialised u vUv)
    as Hfl.
  cbv zeta in Hun, Hfl. unfold locals in Hun, Hfl. fold r in Hun, Hfl.
  subst color.
  split; intro Hphase; rewrite Hphase in Hun, Hfl;
    cbn [flipProgress tex1 tex2] in Hun, Hfl;
    rewrite tileFlipProgress_window in Hun, Hfl; split; intro Hp.
  - apply Hun. now apply smoothstep_before.
  - apply Hfl. now apply smoothstep_after.
  - apply Hun. now apply smoothstep_before.
  - apply Hfl. now apply smoothstep_after.
Qed.

Lemma flipProgress_unit sin texture2D texture2DData uninitialised u vUv :
  0 <= flipProgress (locals sin texture2D texture2DData uninitialised u vUv)
  <= 1.
Proof.
  unfold locals.
  destruct (selectPhase u); cbn [flipProgress];
    try (rewrite tileFlipProgress_window; apply smoothstep_unit); lra.
Qed.

Lemma Math_max_unit a b : inUnit a -> inUnit b -> inUnit (Math_max a b).
Proof.
  unfold inUnit. intros Ha Hb.
  destruct (Math_max_spec a b) as [[_ E]|[_ E]]; rewrite E; assumption.
Qed.

Lemma step_cases edge x :
  (x < edge /\ step edge x = 0) \/ (edge <= x /\ step edge x = 1).
Proof. unfold step. qcases x edge; auto. Qed.

(** X3.  With presence samples in [0, 1], a pixel takes the
    [invert > 0.5] branch only in a flip arm, only for a tile whose noise
    is at least the threshold, only once the tile is more than half way
    through its flip, and only where the source or the target text has
    ink. *)
Theorem invert_only_mid_flip :
  forall sin texture2D texture2DData uninitialised u vUv,
    0 < shaderTotalDuration u ->
    0 < uSingleTileFlipDuration u <= uAllTilesFlipDuration u ->
    (forall t uv, inUnit (cr (texture2DData t uv))) ->
    invertBranchTaken sin texture2D texture2DData uninitialised u vUv = true ->
    let l := locals sin texture2D texture2DData uninitialised u vUv in
    (selectPhase u = FlipAB \/ selectPhase u = FlipBC)
    /\ uInvertThreshold u <= noiseAt sin u vUv
    /\ 0.5 < flipProgress l
    /\ 0.5 < Math_max (hasTextSource l) (hasTextTarget l).
Proof.
  intros sin texture2D texture2DData uninitialised u vUv _ _ Hdata Hb l.
  unfold invertBranchTaken in Hb. apply Qgtb_gt in Hb.
  unfold invertAt in Hb. cbv zeta in Hb. fold l in Hb.
  pose proof (flipProgress_unit sin texture2D texture2DData uninitialised
                u vUv) as Hfp. fold l in Hfp.
  assert (Hphase : selectPhase u = FlipAB \/ selectPhase u = FlipBC).
  { destruct (selectPhase u) eqn:E; auto; exfalso;
      subst l; unfold locals in Hb; rewrite E in Hb;
      cbn [flipProgress hasTextSource hasTextTarget] in Hb;
      match type of Hb with
      | _ < ?s * 0.0 * ?m => assert (Ez : s * 0.0 * m == 0) by ring
      end; rewrite Ez in Hb; lra. }
  assert (Hm : inUnit (Math_max (hasTextSource l) (hasTextTarget l))).
  { subst l. unfold locals.
    destruct Hphase as [E|E]; rewrite E;
      cbn [hasTextSource hasTextTarget]; apply Math_max_unit; apply Hdata. }
  destruct Hm as [Hm0 Hm1].
  set (m := Math_max (hasTextSource l) (hasTextTarget l)) in *.
  destruct (step_cases (uInvertThreshold u) (noiseAt sin u vUv))
    as [[Hn Es]|[Hn Es]]; rewrite Es in Hb.
  - exfalso. assert (Ez : 0 * flipProgress l * m == 0) by ring.
    rewrite Ez in Hb. lra.
  - split; [exact Hphase|]. split; [exact Hn|].
    assert (E1 : 1 * flipProgress l * m == flipProgress l * m) by ring.
    rewrite E1 in Hb.
    assert (H1 : 0 <= flipProgress l * (1 - m))
      by (apply Qmult_le_0_compat; lra).
    assert (H2 : 0 <= (1 - flipProgress l) * m)
      by (apply Qmult_le_0_compat; lra).
    split; lra.
Qed.

(** X4.  With [invertThreshold = 1] no pixel is ever inverted, because
    the noise of a tile is below 1; with [invertThreshold = 0] the noise
    test always passes and [invert] is the flip progress times the ink of
    the tile. *)
Theorem invertThreshold_extremes :
  forall sin texture2D texture2DData uninitialised u vUv,
    ~ shaderTotalDuration u == 0 ->
    0 < uSingleTileFlipDuration u <= uAllTilesFlipDuration u ->
    let l := locals sin texture2D texture2DData uninitialised u vUv in
    (uInvertThreshold u == 1 ->
     invertAt sin texture2D texture2DData uninitialised u vUv == 0
     /\ invertBranchTaken sin texture2D texture2DData uninitialised u vUv
        = false)
    /\ (uInvertThreshold u == 0 ->
        invertAt sin texture2D texture2DData uninitialised u vUv
        == flipProgress l * Math_max (hasTextSource l) (hasTextTarget l)).
Proof.
  intros sin texture2D texture2DData uninitialised u vUv _ _ l.
  pose proof (noise_range sin u vUv) as [Hn0 Hn1].
  unfold invertBranchTaken, invertAt. cbv zeta. fold l.
  destruct (step_cases (uInvertThreshold u) (noiseAt sin u vUv))
    as [[Hn Es]|[Hn Es]]; rewrite Es; split; intro Ht; try lra.
  assert (Ez : 0 * flipProgress l
                 * Math_max (hasTextSource l) (hasTextTarget l) == 0) by ring.
  split; [exact Ez|]. apply Qgtb_le. rewrite Ez. discriminate.
Qed.

Lemma mix_unit x y t : unitColor x -> unitColor y -> 0 <= t <= 1 ->
  unitColor (mix x y t).
Proof.
  assert (Hc : forall a b, inUnit a -> inUnit b -> 0 <= t <= 1 ->
                           inUnit (a * (1 - t) + b * t)).
  { unfold inUnit. intros a b [Ha0 Ha1] [Hb0 Hb1] [Ht0 Ht1].
    assert (0 <= a * (1 - t)) by (apply Qmult_le_0_compat; lra).
    assert (0 <= b * t) by (apply Qmult_le_0_compat; lra).
    assert (0 <= (1 - a) * (1 - t)) by (apply Qmult_le_0_compat; lra).
    assert (0 <= (1 - b) * t) by (apply Qmult_le_0_compat; lra).
    split; lra. }
  intros (X1 & X2 & X3 & X4) (Y1 & Y2 & Y3 & Y4) Ht.
  unfold mix, unitColor; cbn [cr cg cb ca]. auto.
Qed.

(** X5.  When every channel of every texel lies in [0, 1], so does every
    channel of the colour that [main] writes. *)
Theorem output_color_in_range :
  forall sin texture2D texture2DData uninitialised u vUv,
    0 < shaderTotalDuration u ->
    0 < uSingleTileFlipDuration u <= uAllTilesFlipDuration u ->
    (forall t uv, unitColor (texture2D t uv)) ->
    unitColor (main sin texture2D texture2DData uninitialised u vUv).
Proof.
  intros sin texture2D texture2DData uninitialised u vUv _ _ Htex.
  unfold main. cbv zeta.
  pose proof (flipProgress_unit sin texture2D texture2DData uninitialised
                u vUv) as Hfp.
  assert (H1 : unitColor
                 (tex1 (locals sin texture2D texture2DData uninitialised
                               u vUv))
               /\ unitColor
                    (tex2 (locals sin texture2D texture2DData uninitialised
                                  u vUv))).
  { unfold locals. destruct (selectPhase u); cbn [tex1 tex2]; auto. }
  destruct H1 as [H1 H2].
  apply mix_unit; trivial.
  destruct (invertBranchTaken _ _ _ _ _ _); [|exact H1].
  destruct H1 as (_ & _ & _ & [Ha0 Ha1]).
  unfold unitColor, inUnit; cbn [cr cg cb ca]. repeat split; lra.
Qed.

Lemma Qfloor_unique (x : Q) (n : Z) :
  inject_Z n <= x < inject_Z n + 1 -> Qfloor x = n.
Proof.
  intros [Hlo Hhi].
  pose proof (Qfloor_le x) as H1. pose proof (Qlt_floor x) as H2.
  rewrite inject_Z_plus in H2. change (inject_Z 1) with 1 in H2.
  assert (Ha : (n < Qfloor x + 1)%Z).
  { rewrite Zlt_Qlt, inject_Z_plus. change (inject_Z 1) with 1. lra. }
  assert (Hb : (Qfloor x < n + 1)%Z).
  { rewrite Zlt_Qlt, inject_Z_plus. change (inject_Z 1) with 1. lra. }
  lia.
Qed.

(** One axis of the presence lookup. *)
Lemma texel_centre (x : Q) (n : Z) :
  (1 <= n)%Z -> 0 <= x < 1 ->
  let i := Qfloor (x * inject_Z n) in
  let c := (inject_Z i + 0.5) / inject_Z n in
  (0 <= i < n)%Z /\ 0 < c < 1 /\ Qfloor (c * inject_Z n) = i.
Proof.
  intros Hn [Hx0 Hx1] i c.
  assert (HN : 1 <= inject_Z n)
    by (change 1 with (inject_Z 1); now rewrite <- Zle_Qle).
  pose proof (Qfloor_le (x * inject_Z n)) as H1.
  pose proof (Qlt_floor (x * inject_Z n)) as H2.
  rewrite inject_Z_plus in H2. change (inject_Z 1) with 1 in H2.
  fold i in H1, H2.
  assert (Hxn0 : 0 <= x * inject_Z n) by (apply Qmult_le_0_compat; lra).
  assert (Hxn1 : x * inject_Z n < inject_Z n).
  { assert (0 < (1 - x) * inject_Z n) by (apply Qmult_lt_0_compat; lra).
    lra. }
  assert (Hi : (0 <= i < n)%Z).
  { split.
    - assert (H : (-1 < i)%Z); [|lia].
      rewrite Zlt_Qlt. change (inject_Z (-1)) with (-1). lra.
    - rewrite Zlt_Qlt. lra. }
  assert (Hi0 : 0 <= inject_Z i)
    by (change 0 with (inject_Z 0); rewrite <- Zle_Qle; lia).
  assert (Hi1 : inject_Z i + 1 <= inject_Z n).
  { change 1 with (inject_Z 1). rewrite <- inject_Z_plus, <- Zle_Qle. lia. }
  split; [exact Hi|]. split.
  - subst c. split.
    + apply Qlt_shift_div_l; lra.
    + apply Qlt_shift_div_r; lra.
  - apply Qfloor_unique.
    assert (E : c * inject_Z n == inject_Z i + 0.5) by (subst c; field; lra).
    rewrite E. lra.
Qed.

(** X6.  For a pixel with both coordinates in [0, 1) the tile index
    [floor(vUv * uTiles)] lies inside the grid, and the presence lookup
    coordinate [(floor(vUv * uTiles) + 0.5) / uTiles] lies strictly inside
    (0, 1) and in the cell of that same tile: the lookup reads the centre
    of the pixel's own tile and never a neighbour's. *)
Theorem presence_lookup_hits_own_tile :
  forall u vUv,
    (1 <= tcx (uTiles u))%Z -> (1 <= tcy (uTiles u))%Z ->
    0 <= vx vUv < 1 -> 0 <= vy vUv < 1 ->
    let tileX := Qfloor (vx vUv * inject_Z (tcx (uTiles u))) in
    let tileY := Qfloor (vy vUv * inject_Z (tcy (uTiles u))) in
    let presenceUV := presenceUVAt u vUv in
    tileOf u vUv = {| vx := inject_Z tileX; vy := inject_Z tileY |}
    /\ (0 <= tileX < tcx (uTiles u))%Z /\ (0 <= tileY < tcy (uTiles u))%Z
    /\ 0 < vx presenceUV < 1 /\ 0 < vy presenceUV < 1
    /\ Qfloor (vx presenceUV * inject_Z (tcx (uTiles u))) = tileX
    /\ Qfloor (vy presenceUV * inject_Z (tcy (uTiles u))) = tileY.
Proof.
  intros u vUv Hx Hy Hvx Hvy tileX tileY presenceUV.
  destruct (texel_centre (vx vUv) (tcx (uTiles u)) Hx Hvx) as (A1 & A2 & A3).
  destruct (texel_centre (vy vUv) (tcy (uTiles u)) Hy Hvy) as (B1 & B2 & B3).
  subst presenceUV. unfold presenceUVAt, tileOf, tilesVec. cbn [vx vy].
  fold tileX tileY. auto 10.
Qed.

(** X7.  The flip progress of a tile lies in [0, 1], does not decrease
    as the phase progresses, and at equal phase progress a tile with a
    larger noise value is never ahead of one with a smaller value. *)
Theorem flip_progress_monotone :
  forall u r r' p p',
    0 < uSingleTileFlipDuration u <= uAllTilesFlipDuration u ->
    (p <= p' -> tileFlipProgress u r p <= tileFlipProgress u r p')
    /\ (r <= r' -> tileFlipProgress u r' p <= tileFlipProgress u r p)
    /\ 0 <= tileFlipProgress u r p <= 1.
Proof.
  intros u r r' p p' [Hs Ha].
  assert (Hw : 0 < uSingleTileFlipDuration u / uAllTilesFlipDuration u)
    by (apply Qlt_shift_div_l; lra).
  split; [|split].
  - intro Hp. rewrite !tileFlipProgress_window.
    apply smoothstep_mono; [|exact Hp]. unfold flipWindowEnd. lra.
  - intro Hr. rewrite !tileFlipProgress_window. unfold smoothstep.
    pose proof (clamp_unit
      ((p - flipWindowStart u r') / (flipWindowEnd u r' - flipWindowStart u r')))
      as [H0 _].
    pose proof (clamp_unit
      ((p - flipWindowStart u r) / (flipWindowEnd u r - flipWindowStart u r)))
      as [_ H1].
    apply hermite_mono; trivial. apply clamp_mono.
    assert (Hst : flipWindowStart u r <= flipWindowStart u r').
    { unfold flipWindowStart. apply Qdiv_le_mono; [lra|].
      apply Qmult_le_compat_r; lra. }
    assert (E : forall x, flipWindowEnd u x - flipWindowStart u x
                          == uSingleTileFlipDuration u
                             / uAllTilesFlipDuration u)
      by (intro x; unfold flipWindowEnd; ring).
    rewrite !E. apply Qdiv_le_mono; lra.
  - rewrite tileFlipProgress_window. apply smoothstep_unit.
Qed.

(** X8.  The arm that the chain selects moves forward only: for a larger
    progress the selected arm is the same or a later one, whatever the
    durations. *)
Theorem phase_never_goes_back :
  forall u progress progress',
    ~ shaderTotalDuration u == 0 ->
    progress <= progress' ->
    (phaseIndex (selectPhase (withProgress u progress))
     <= phaseIndex (selectPhase (withProgress u progress')))%nat.
Proof.
  intros u progress progress' _ Hle.
  unfold selectPhase.
  change (initialWaitEnd (withProgress u progress)) with (initialWaitEnd u).
  change (initialWaitEnd (withProgress u progress')) with (initialWaitEnd u).
  change (flipABEnd (withProgress u progress)) with (flipABEnd u).
  change (flipABEnd (withProgress u progress')) with (flipABEnd u).
  change (waitBetweenEnd (withProgress u progress)) with (waitBetweenEnd u).
  change (waitBetweenEnd (withProgress u progress')) with (waitBetweenEnd u).
  change (flipBCEnd (withProgress u progress)) with (flipBCEnd u).
  change (flipBCEnd (withProgress u progress')) with (flipBCEnd u).
  cbn [withProgress setFrameUniforms uMorphProgress]. cbv zeta.
  qcases progress (initialWaitEnd u); [cbn; lia|].
  qcases progress' (initialWaitEnd u); [lra|].
  qcases progress (flipABEnd u).
  { repeat match goal with
           | |- context [if ?b then _ else _] => destruct b
           end; cbn; lia. }
  qcases progress' (flipABEnd u); [lra|].
  qcases progress (waitBetweenEnd u).
  { repeat match goal with
           | |- context [if ?b then _ else _] => destruct b
           end; cbn; lia. }
  qcases progress' (waitBetweenEnd u); [lra|].
  qcases progress (flipBCEnd u).
  { repeat match goal with
           | |- context [if ?b then _ else _] => destruct b
           end; cbn; lia. }
  qcases progress' (flipBCEnd u); [lra|]. cbn; lia.
Qed.

(** At progress 1 the shader shows text C, whatever the tile. *)
Lemma main_at_end :
  forall sin texture2D texture2DData uninitialised u vUv,
    uMorphProgress u == 1 ->
    0 < shaderTotalDuration u ->
    0 < uAllTilesFlipDuration u ->
    0 <= uWaitBetweenFlipsDuration u ->
    0 <= uFinalWaitDuration u ->
    selectPhase u = FinalWait
    /\ vec4_eq (main sin texture2D texture2DData uninitialised u vUv)
               (texture2D (uTexC u) vUv).
Proof.
  intros sin texture2D texture2DData uninitialised u vUv Hmp HT Ha Hwb Hfw.
  assert (Hphase : selectPhase u = FinalWait).
  { assert (Hend : forall x, x <= shaderTotalDuration u ->
                             x / shaderTotalDuration u <= uMorphProgress u).
    { intros x Hx. rewrite Hmp. apply Qle_shift_div_r; lra. }
    unfold shaderTotalDuration in Hend.
    unfold selectPhase. cbv zeta.
    qcases (uMorphProgress u) (initialWaitEnd u).
    { exfalso. unfold initialWaitEnd in H.
      specialize (Hend (uInitialWaitDuration u)). 
      unfold shaderTotalDuration in *. lra. }
    qcases (uMorphProgress u) (flipABEnd u).
    { exfalso. unfold flipABEnd in H0.
      specialize (Hend (uInitialWaitDuration u + uAllTilesFlipDuration u)).
      unfold shaderTotalDuration in *. lra. }
    qcases (uMorphProgress u) (waitBetweenEnd u).
    { exfalso. unfold waitBetweenEnd in H1.
      specialize (Hend (uInitialWaitDuration u + uAllTilesFlipDuration u
                        + uWaitBetweenFlipsDuration u)).
      unfold shaderTotalDuration in *. lra. }
    qcases (uMorphProgress u) (flipBCEnd u); [|reflexivity].
    exfalso. unfold flipBCEnd in H2.
    specialize (Hend (uInitialWaitDuration u + uAllTilesFlipDuration u
                      + uWaitBetweenFlipsDuration u
                      + uAllTilesFlipDuration u)).
    unfold shaderTotalDuration in *. lra. }
  split; [exact Hphase|].
  pose proof (main_unflipped sin texture2D texture2DData uninitialised u vUv)
    as H.
  cbv zeta in H. unfold locals in H. rewrite Hphase in H.
  cbn [flipProgress tex1] in H. apply H. reflexivity.
Qed.

(* ================================================================== *)
(** * Direction and frame count *)

Lemma exec_direction drawText ev this h this' h' :
  exec drawText ev (this, h) = Some (this', h') ->
  direction this' = lastHover (direction this) [ev].
Proof.
  intro He.
  destruct ev as [t | | id | hover | width height]; cbn [exec lastHover] in *.
  - destruct (now h <=? t); [|discriminate].
    apply Some_inj in He. now injection He as <- <-.
  - destruct (pendingFrame h); [|discriminate].
    apply Some_inj in He.
    pose proof (animate_timeline this (withPendingFrame None h)) as Ha.
    rewrite He in Ha. cbn [fst] in Ha. tauto.
  - destruct (findTimer id h) as [t|]; [|discriminate].
    destruct (due t <=? now h); [|discriminate].
    apply Some_inj in He.
    pose proof (resizeSettled_timeline drawText this (removeTimer id h)
                  (timerWidth t) (timerHeight t)) as Ha.
    rewrite He in Ha. cbn [fst] in Ha. tauto.
  - apply Some_inj in He. injection He as <- <-.
    unfold setHover.
    destruct hover;
      match goal with
      | |- context [(?a =? ?b)%Z] => destruct (Z.eqb_spec a b) as [E|E]
      end; auto.
  - apply Some_inj in He.
    pose proof (resize_timeline this h width height) as Ha.
    rewrite He in Ha. cbn [fst] in Ha. tauto.
Qed.

Lemma run_direction drawText trace : forall this h this' h',
  run drawText trace (this, h) = Some (this', h') ->
  direction this' = lastHover (direction this) trace.
Proof.
  induction trace as [|ev trace IH]; intros this h this' h' Hr;
    cbn [run] in Hr.
  - apply Some_inj in Hr. now injection Hr as <- <-.
  - destruct (exec drawText ev (this, h)) as [[this1 h1]|] eqn:He;
      [|discriminate].
    rewrite (IH _ _ _ _ Hr), (exec_direction _ _ _ _ _ _ He).
    destruct ev; reflexivity.
Qed.

Lemma lastHover_cases trace : forall d,
  lastHover d trace = d \/ lastHover d trace = 1%Z
  \/ lastHover d trace = (-1)%Z.
Proof.
  induction trace as [|ev trace IH]; intro d; cbn [lastHover]; auto.
  destruct ev as [t | | id | hover | width height]; auto.
  destruct (IH (if hover then 1 else -1)%Z) as [E|[E|E]]; rewrite E; auto.
  destruct hover; auto.
Qed.

(** X9.  Only [setHover] changes the direction: after any run the
    direction is the one the last [setHover] call of the run asked for
    (+1 for [true], -1 for [false]), or the direction at the start if
    there was none; so a direction that is not 0 never becomes 0 again. *)
Theorem direction_follows_last_setHover :
  forall drawText trace this h this' h',
    run drawText trace (this, h) = Some (this', h') ->
    direction this' = lastHover (direction this) trace
    /\ (direction this <> 0%Z -> direction this' <> 0%Z)
    /\ (direction this' = direction this \/ direction this' = 1%Z
        \/ direction this' = (-1)%Z).
Proof.
  intros drawText trace this h this' h' Hr.
  rewrite (run_direction _ _ _ _ _ _ Hr).
  split; [reflexivity|]. split; [|apply lastHover_cases].
  intro Hd.
  destruct (lastHover_cases trace (direction this)) as [E|[E|E]]; rewrite E;
    auto; discriminate.
Qed.

(** ** Frames *)
Lemma exec_frames drawText ev this h this' h' :
  exec drawText ev (this, h) = Some (this', h') ->
  drawCalls h' = (drawCalls h + countFrames [ev])%nat
  /\ nextFrame h' = (nextFrame h + countFrames [ev])%nat
  /\ uTime (uniforms this')
     == uTime (uniforms this) + 0.016 * inject_Z (Z.of_nat (countFrames [ev])).
Proof.
  intro He.
  destruct ev as [t | | id | hover | width height];
    cbn [exec countFrames] in *.
  - destruct (now h <=? t); [|discriminate].
    apply Some_inj in He. injection He as <- <-. cbn. 
    repeat split; try lia. ring.
  - destruct (pendingFrame h); [|discriminate].
    apply Some_inj in He.
    apply (f_equal (fun s => (drawCalls (snd s), nextFrame (snd s),
                              uTime (uniforms (fst s))))) in He.
    cbn beta in He. cbn [fst snd] in He. revert He. run_code.
    destruct (direction this =? 0)%Z; run_code; intro He;
      injection He as <- <- <-; repeat split; try lia;
      change (inject_Z (Z.of_nat 1)) with 1; ring.
  - destruct (findTimer id h) as [t|]; [|discriminate].
    destruct (due t <=? now h); [|discriminate].
    apply Some_inj in He.
    apply (f_equal (fun s => (drawCalls (snd s), nextFrame (snd s),
                              uTime (uniforms (fst s))))) in He.
    cbn beta in He. cbn [fst snd] in He. revert He.
    unfold resizeSettled. destruct (useTileDimensions this); run_code;
      intro He; injection He as <- <- <-; repeat split; try lia;
      change (inject_Z (Z.of_nat 0)) with 0; ring.
  - apply Some_inj in He. injection He as <- <-.
    repeat split; try lia.
    unfold setHover.
    destruct hover;
      match goal with |- context [if ?b then _ else _] => destruct b end;
      cbn; ring.
  - apply Some_inj in He.
    apply (f_equal (fun s => (drawCalls (snd s), nextFrame (snd s),
                              uTime (uniforms (fst s))))) in He.
    cbn beta in He. cbn [fst snd] in He. revert He.
    unfold resize, bind.
    match goal with
    | |- context [clearResizeTimeout ?t h] =>
      assert (Hc : drawCalls (snd (clearResizeTimeout t h)) = drawCalls h
                   /\ nextFrame (snd (clearResizeTimeout t h)) = nextFrame h)
        by (unfold clearResizeTimeout;
            destruct (truthyId (resizeTimeout t)); split; reflexivity);
      destruct (clearResizeTimeout t h) as [[] h1]
    end.
    cbn [snd] in Hc. destruct Hc as [Hc1 Hc2].
    unfold setTimeout, ret. run_code.
    intro He; injection He as <- <- <-. rewrite Hc1, Hc2.
    repeat split; try lia. change (inject_Z (Z.of_nat 0)) with 0. ring.
Qed.

Lemma run_frames drawText trace : forall this h this' h',
  run drawText trace (this, h) = Some (this', h') ->
  drawCalls h' = (drawCalls h + countFrames trace)%nat
  /\ nextFrame h' = (nextFrame h + countFrames trace)%nat
  /\ uTime (uniforms this')
     == uTime (uniforms this) + 0.016 * inject_Z (Z.of_nat (countFrames trace)).
Proof.
  induction trace as [|ev trace IH]; intros this h this' h' Hr;
    cbn [run] in Hr.
  - apply Some_inj in Hr. injection Hr as <- <-. cbn [countFrames].
    repeat split; try lia. change (inject_Z (Z.of_nat 0)) with 0. ring.
  - destruct (exec drawText ev (this, h)) as [[this1 h1]|] eqn:He;
      [|discriminate].
    destruct (exec_frames _ _ _ _ _ _ He) as (A1 & A2 & A3).
    destruct (IH _ _ _ _ Hr) as (B1 & B2 & B3).
    assert (Ec : countFrames (ev :: trace)
                 = (countFrames [ev] + countFrames trace)%nat)
      by (destruct ev; reflexivity).
    rewrite Ec, B1, B2, B3, A1, A2, A3. repeat split; try lia.
    rewrite Nat2Z.inj_add, inject_Z_plus. ring.
Qed.

(** X10.  [uTime] counts frames, not seconds: after construction and
    any run, the number of [render] calls is one more than the number of
    frame callbacks run, and [uTime] is 0.016 times that number,
    independent of the clock (in exact arithmetic). *)
Theorem uTime_counts_frames :
  forall drawText canvas options t0 this0 h0 trace this h,
    constructor drawText canvas options (newHost t0) = (Ok this0, h0) ->
    run drawText trace (this0, h0) = Some (this, h) ->
    drawCalls h = S (countFrames trace)
    /\ nextFrame h = (2 + countFrames trace)%nat
    /\ uTime (uniforms this)
       == 0.016 * inject_Z (Z.of_nat (S (countFrames trace))).
Proof.
  intros drawText canvas options t0 this0 h0 trace this h Hc Hr.
  assert (H0 : drawCalls h0 = 1%nat /\ nextFrame h0 = 2%nat
               /\ uTime (uniforms this0) == 0.016).
  { destruct (validateConfig_ok_or_throw (mergeOptions options))
      as [Hok|[e He]].
    2:{ rewrite (constructor_throw drawText canvas options _ e He) in Hc.
        discriminate. }
    revert Hc. unfold constructor. rewrite Hok. unfold newHost. run_code.
    intro Hc. injection Hc as <- <-. run_code.
    repeat split; try reflexivity. }
  destruct H0 as (D0 & F0 & U0).
  destruct (run_frames _ _ _ _ _ _ Hr) as (A1 & A2 & A3).
  rewrite A1, A2, A3, D0, F0, U0. repeat split; try lia.
  rewrite Nat2Z.inj_succ. unfold Z.succ. rewrite inject_Z_plus.
  change (inject_Z 1) with 1. ring.
Qed.

(* ================================================================== *)
(** * Grid, textures and presence masks belong together *)

Lemma fold_left_length {A K} (f : list A -> K -> list A) (keys : list K) :
  (forall a k, List.length (f a k) = List.length a) ->
  forall a, List.length (fold_left f keys a) = List.length a.
Proof.
  intro Hf. induction keys as [|k keys IH]; intro a; cbn [fold_left]; trivial.
  now rewrite IH, Hf.
Qed.

Lemma presenceData_length grid canvas :
  List.length (presenceData grid canvas) = Z.to_nat (tcx grid * tcy grid).
Proof.
  unfold presenceData. rewrite fold_left_length.
  - apply repeat_length.
  - intros a y. apply fold_left_length.
    intros a' x. apply arraySet_length.
Qed.

Lemma coherent_same drawText this this' width height :
  sameTextures this' this -> config this' = config this ->
  coherentAt drawText this width height ->
  coherentAt drawText this' width height.
Proof.
  intros (E1 & E2 & E3 & E4 & E5 & E6 & E7 & E8) Ec.
  unfold coherentAt. cbv zeta.
  now rewrite E1, E2, E3, E4, E5, E6, E7, E8, Ec.
Qed.

Lemma view_sameTextures this this' :
  view this' = view this ->
  sameTextures this' this /\ config this' = config this.
Proof.
  intro Hv. apply view_fields in Hv. unfold sameTextures. tauto.
Qed.

Lemma constructor_coherent drawText canvas options h this h' :
  constructor drawText canvas options h = (Ok this, h') ->
  coherentAt drawText this (clientWidth canvas) (clientHeight canvas).
Proof.
  intro Hc.
  destruct (validateConfig_ok_or_throw (mergeOptions options)) as [Hok|[e He]].
  2:{ rewrite (constructor_throw drawText canvas options _ e He) in Hc.
      discriminate. }
  revert Hc. unfold constructor. rewrite Hok. run_code.
  intro Hc. injection Hc as <- <-.
  unfold coherentAt, maskOf. run_code. repeat split; reflexivity.
Qed.

Lemma resizeSettled_coherent drawText this h width height :
  useTileDimensions this = isSome (tileDimensions (config this)) ->
  validateConfig (config this) = Ok tt ->
  (exists w0 h0, coherentAt drawText this w0 h0) ->
  coherentAt drawText (fst (resizeSettled drawText this width height h))
             width height.
Proof.
  intros Hmode Hvalid (w0 & h0 & Hco).
  unfold resizeSettled, coherentAt, maskOf.
  destruct (useTileDimensions this) eqn:Emode; run_code.
  - repeat split; reflexivity.
  - destruct Hco as (Ht & Hu & _).
    assert (Eg : calculateTiles (config this) width height
                 = calculateTiles (config this) w0 h0).
    { unfold calculateTiles.
      destruct (tiles (config this)); [reflexivity|].
      destruct (tileDimensions (config this)); [discriminate|reflexivity]. }
    rewrite Eg, <- Ht. repeat split; try reflexivity. now rewrite Hu.
Qed.

Lemma exec_coherent drawText ev this h this' h' :
  Inv (this, h) ->
  exec drawText ev (this, h) = Some (this', h') ->
  (exists w0 h0, coherentAt drawText this w0 h0) ->
  exists w1 h1, coherentAt drawText this' w1 h1.
Proof.
  intros HInv He Hco.
  destruct ev as [t | | id | hover | width height]; cbn [exec] in He.
  - destruct (now h <=? t); [|discriminate].
    apply Some_inj in He. now injection He as <- <-.
  - destruct (pendingFrame h); [|discriminate].
    apply Some_inj in He.
    destruct (animate_view this (withPendingFrame None h)) as (Hv & _).
    rewrite He in Hv. cbn [fst] in Hv.
    apply view_sameTextures in Hv. destruct Hv as [Hs Hc].
    destruct Hco as (w0 & h0 & Hco). exists w0, h0.
    now apply (coherent_same drawText this).
  - destruct (findTimer id h) as [t|]; [|discriminate].
    destruct (due t <=? now h); [|discriminate].
    apply Some_inj in He.
    exists (timerWidth t), (timerHeight t).
    replace this' with
      (fst (resizeSettled drawText this (timerWidth t) (timerHeight t)
                          (removeTimer id h)))
      by now rewrite He.
    apply resizeSettled_coherent; trivial.
    + exact (inv_mode _ HInv).
    + exact (inv_valid _ HInv).
  - apply Some_inj in He. injection He as <- <-.
    pose proof (setHover_view this hover) as Hv.
    apply view_sameTextures in Hv. destruct Hv as [Hs Hc].
    destruct Hco as (w0 & h0 & Hco). exists w0, h0.
    now apply (coherent_same drawText this).
  - apply Some_inj in He.
    pose proof (resize_effect this h width height HInv) as Hr.
    rewrite He in Hr. cbn [fst snd] in Hr.
    destruct Hr as (_ & _ & Hs & Hc & _).
    destruct Hco as (w0 & h0 & Hco). exists w0, h0.
    now apply (coherent_same drawText this).
Qed.

Lemma reachable_coherent drawText s :
  reachable drawText s -> exists w0 h0, coherentAt drawText (fst s) w0 h0.
Proof.
  induction 1 as [canvas options t0 this h Hc | ev [this h] [this' h'] Hr IH He].
  - eexists _, _. exact (constructor_coherent _ _ _ _ _ _ Hc).
  - cbn [fst] in *. apply reachable_Inv in Hr.
    exact (exec_coherent _ _ _ _ _ _ Hr He IH).
Qed.

(** X11.  In every state of a live engine there is one canvas size for
    which the three text textures were drawn, the grid is
    [calculateTiles] of that size, the engine's grid and the [uTiles]
    uniform agree, and each presence mask is the mask of the canvas behind
    its text texture on that grid, with the grid's extent and
    [tiles.x * tiles.y] bytes. *)
Theorem textures_and_masks_stay_coherent :
  forall drawText this h,
    reachable drawText (this, h) ->
    let u := uniforms this in
    exists width height,
      coherentAt drawText this width height
      /\ this_tiles this = uTiles u
      /\ List.length (data (uPresenceA u))
         = Z.to_nat (tcx (uTiles u) * tcy (uTiles u))
      /\ List.length (data (uPresenceB u))
         = Z.to_nat (tcx (uTiles u) * tcy (uTiles u))
      /\ List.length (data (uPresenceC u))
         = Z.to_nat (tcx (uTiles u) * tcy (uTiles u)).
Proof.
  intros drawText this h Hr u.
  destruct (reachable_coherent _ _ Hr) as (w0 & h0 & Hco).
  cbn [fst] in Hco. exists w0, h0. split; [exact Hco|].
  destruct Hco as (Ht & Hu & _ & _ & _ & (EA & _) & (EB & _) & (EC & _)).
  fold u in Hu, EA, EB, EC.
  rewrite EA, EB, EC, !presenceData_length, Hu.
  repeat split; congruence.
Qed.

(** X12.  An engine configured with explicit tile counts keeps exactly
    those counts for its whole life, resizes included, and never is in
    tile-pixel-size mode; an engine with neither [tiles] nor
    [tileDimensions] keeps a grid of one tile. *)
Theorem explicit_tiles_never_change :
  forall drawText this h,
    reachable drawText (this, h) ->
    (forall t, tiles (config this) = Some t ->
               this_tiles this = t /\ uTiles (uniforms this) = t
               /\ useTileDimensions this = false)
    /\ (tiles (config this) = None -> tileDimensions (config this) = None ->
        this_tiles this = {| tcx := 1; tcy := 1 |}
        /\ uTiles (uniforms this) = {| tcx := 1; tcy := 1 |}
        /\ useTileDimensions this = false).
Proof.
  intros drawText this h Hr.
  destruct (reachable_coherent _ _ Hr) as (w0 & h0 & Ht & Hu & _).
  apply reachable_Inv in Hr.
  pose proof (inv_mode _ Hr) as Hmode. pose proof (inv_valid _ Hr) as Hvalid.
  cbn [fst] in *. unfold calculateTiles in Ht, Hu.
  split.
  - intros t Etiles. rewrite Etiles in Ht, Hu.
    split; [exact Ht|]. split; [exact Hu|].
    rewrite Hmode.
    destruct (tileDimensions (config this)) as [d|] eqn:Ed; [|reflexivity].
    exfalso.
    assert (Hrej : rejected (config this)).
    { do 6 right. rewrite Etiles, Ed. split; discriminate. }
    apply validateConfig_throws_iff in Hrej. destruct Hrej as [e He].
    congruence.
  - intros Etiles Ed. rewrite Etiles, Ed in Ht, Hu.
    rewrite Hmode, Ed. auto.
Qed.

(* ================================================================== *)
(** * Every GPU object is accounted for *)

Lemma animate_objects this h :
  handles (fst (animate this h)) = handles this
  /\ disposed (snd (animate this h)) = disposed h
  /\ nextObject (snd (animate this h)) = nextObject h.
Proof.
  unfold handles. run_code.
  destruct (direction this =? 0)%Z; run_code; auto.
Qed.

Lemma setHover_objects this hover :
  handles (setHover this hover) = handles this.
Proof.
  unfold setHover.
  destruct hover;
    match goal with |- context [if ?b then _ else _] => destruct b end;
    reflexivity.
Qed.

Lemma resize_objects this h width height :
  Inv (this, h) ->
  handles (fst (resize this width height h)) = handles this
  /\ disposed (snd (resize this width height h)) = disposed h
  /\ nextObject (snd (resize this width height h)) = nextObject h.
Proof.
  intro HInv. destruct_Inv HInv. unfold resize, bind.
  rewrite clearResizeTimeout_clears by (run_code; exact Htimers).
  unfold setTimeout, ret, handles. run_code. auto.
Qed.

(** What a regeneration does to the GPU objects: the six textures are
    disposed, six new ones take their place. *)
Lemma resizeSettled_objects drawText this h width height :
  let s' := resizeSettled drawText this width height h in
  let n := nextObject h in
  handles (fst s')
  = [ n; S n; S (S n); S (S (S n)); S (S (S (S n))); S (S (S (S (S n))));
      rendererId (renderer this); material this; geometry this ]
  /\ disposed (snd s')
     = dataTextureId (uPresenceC (uniforms this))
       :: dataTextureId (uPresenceB (uniforms this))
       :: dataTextureId (uPresenceA (uniforms this))
       :: textureId (uTexC (uniforms this))
       :: textureId (uTexB (uniforms this))
       :: textureId (uTexA (uniforms this))
       :: disposed h
  /\ nextObject (snd s') = (n + 6)%nat.
Proof.
  unfold resizeSettled, handles.
  destruct (useTileDimensions this); run_code;
    repeat split; try reflexivity; lia.
Qed.

Lemma accounted_resizeSettled drawText this h width height :
  Inv (this, h) -> accounted (this, h) ->
  accounted (resizeSettled drawText this width height h).
Proof.
  intros HInv [Hnd Hall].
  destruct (resizeSettled_objects drawText this h width height)
    as (Eh & Ed & En).
  unfold accounted. rewrite Eh, Ed, En. clear Eh Ed En.
  destruct_Inv HInv.
  destruct Hlayout as
    (k & HA & HB & HC & HpA & HpB & HpC & Hrmg & Hrk & Hgm & Hk & Hg).
  unfold handles in Hlive, Hall.
  rewrite HA, HB, HC, HpA, HpB, HpC in *.
  rewrite Forall_forall in Hlive.
  assert (Hold : forall i, (k <= i <= k + 5)%nat -> ~ In i (disposed h)).
  { intros i Hi. apply Hlive. cbn [In].
    assert (H : i = k \/ i = (k + 1)%nat \/ i = (k + 2)%nat
                \/ i = (k + 3)%nat \/ i = (k + 4)%nat \/ i = (k + 5)%nat)
      by lia.
    intuition auto. }
  split.
  - repeat (apply NoDup_cons; [cbn [In]; intros Hin|]); [..|exact Hnd];
      repeat (destruct Hin as [Hin|Hin]; [lia|]);
      (eapply Hold; [|exact Hin]; lia).
  - intros id Hid.
    destruct (Nat.lt_ge_cases id (nextObject h)) as [Hlt|Hge].
    + destruct (Hall id Hlt) as [Hin|Hin].
      * cbn [In] in Hin |- *.
        destruct Hin as [E|[E|[E|[E|[E|[E|[E|[E|[E|[]]]]]]]]]]; auto 20.
      * right. cbn [In]. auto 20.
    + left. cbn [In].
      assert (H : id = nextObject h \/ id = S (nextObject h)
                  \/ id = S (S (nextObject h))
                  \/ id = S (S (S (nextObject h)))
                  \/ id = S (S (S (S (nextObject h))))
                  \/ id = S (S (S (S (S (nextObject h)))))) by lia.
      intuition auto.
Qed.

Lemma accounted_exec drawText ev s s' :
  Inv s -> accounted s -> exec drawText ev s = Some s' -> accounted s'.
Proof.
  destruct s as [this h]. intros HInv Hacc He.
  destruct ev as [t | | id | hover | width height]; cbn [exec] in He.
  - destruct (now h <=? t); [|discriminate].
    apply Some_inj in He. subst s'. exact Hacc.
  - destruct (pendingFrame h); [|discriminate].
    apply Some_inj in He. subst s'.
    destruct (animate_objects this (withPendingFrame None h)) as (E1 & E2 & E3).
    unfold accounted. rewrite E1, E2, E3. exact Hacc.
  - destruct (findTimer id h) as [t|] eqn:Hf; [|discriminate].
    destruct (due t <=? now h); [|discriminate].
    apply Some_inj in He. subst s'.
    apply accounted_resizeSettled.
    + now apply (Inv_removeTimer this h id t).
    + exact Hacc.
  - apply Some_inj in He. subst s'.
    unfold accounted. cbn [fst snd]. rewrite setHover_objects. exact Hacc.
  - apply Some_inj in He. subst s'.
    destruct (resize_objects this h width height HInv) as (E1 & E2 & E3).
    unfold accounted. rewrite E1, E2, E3. exact Hacc.
Qed.

Lemma constructor_objects drawText canvas options h this h' :
  constructor drawText canvas options h = (Ok this, h') ->
  let n := nextObject h in
  handles this
  = [ S n; S (S n); S (S (S n)); S (S (S (S n))); S (S (S (S (S n))));
      S (S (S (S (S (S n))))); n;
      S (S (S (S (S (S (S n)))))); S (S (S (S (S (S (S (S n))))))) ]
  /\ nextObject h' = (n + 9)%nat
  /\ disposed h' = disposed h
  /\ drawCalls h' = S (drawCalls h)
  /\ pendingFrame h' = Some (nextFrame h)
  /\ animationFrame this = Some (nextFrame h)
  /\ nextFrame h' = S (nextFrame h)
  /\ pendingTimers h' = pendingTimers h
  /\ resizeTimeout this = None
  /\ lastFrameTime this = now h
  /\ now h' = now h.
Proof.
  intro Hc.
  destruct (validateConfig_ok_or_throw (mergeOptions options)) as [Hok|[e He]].
  2:{ rewrite (constructor_throw drawText canvas options _ e He) in Hc.
      discriminate. }
  revert Hc. unfold constructor. rewrite Hok. run_code.
  intro Hc. injection Hc as <- <-. unfold handles. run_code.
  repeat split; try reflexivity; lia.
Qed.

Lemma reachable_accounted drawText s : reachable drawText s -> accounted s.
Proof.
  induction 1 as [canvas options t0 this h Hc | ev s s' Hr IH He].
  - destruct (constructor_objects _ _ _ _ _ _ Hc) as (Eh & En & Ed & _).
    unfold accounted. cbn [fst snd]. rewrite Eh, En, Ed.
    cbn [newHost nextObject disposed]. split; [constructor|].
    intros id Hid. left. cbn [In]. lia.
  - apply reachable_Inv in Hr. exact (accounted_exec _ _ _ _ Hr IH He).
Qed.

(** X13.  In every state of a live engine, every GPU object created so
    far is either one of the nine that the engine holds, which are
    distinct and were never disposed, or an object that is no longer held
    and was disposed exactly once; nothing is disposed twice and nothing
    that is no longer held was left undisposed. *)
Theorem gpu_objects_never_leak :
  forall drawText this h,
    reachable drawText (this, h) ->
    NoDup (handles this) /\ NoDup (disposed h)
    /\ forall id,
         (id < nextObject h)%nat <->
         (In id (handles this) /\ disposeCount h id = 0%nat)
         \/ (~ In id (handles this) /\ disposeCount h id = 1%nat).
Proof.
  intros drawText this h Hr.
  destruct (reachable_accounted _ _ Hr) as [Hnd Hall]. cbn [fst snd] in *.
  apply reachable_Inv in Hr.
  pose proof (handles_NoDup this h Hr) as Hh.
  pose proof (inv_live _ Hr) as Hlive. pose proof (inv_disposed _ Hr) as Hdis.
  pose proof (inv_layout _ Hr) as Hlayout.
  cbn [fst snd] in *. rewrite Forall_forall in Hlive, Hdis.
  split; [exact Hh|]. split; [exact Hnd|].
  intro id. unfold disposeCount. split.
  - intro Hid. destruct (Hall id Hid) as [Hin|Hin].
    + left. split; [exact Hin|].
      apply count_occ_not_In. now apply Hlive.
    + right. split.
      * intro Hin'. exact (Hlive id Hin' Hin).
      * now apply NoDup_count_occ'.
  - intros [[Hin _]|[_ Hc]].
    + destruct Hlayout as
        (k & HA & HB & HC & HpA & HpB & HpC & Hrmg & Hrk & Hgm & Hk & Hg).
      unfold handles in Hin. rewrite HA, HB, HC, HpA, HpB, HpC in Hin.
      cbn [In] in Hin.
      destruct Hin as [E|[E|[E|[E|[E|[E|[E|[E|[E|[]]]]]]]]]]; lia.
    + apply Hdis. apply (count_occ_In Nat.eq_dec). lia.
Qed.

(* ================================================================== *)
(** * Hovering and leaving *)

Lemma setHover_fields this hover :
  direction (setHover this hover) = hoverDirection hover
  /\ totalElapsedTime (setHover this hover) = totalElapsedTime this
  /\ morphProgress (setHover this hover) = morphProgress this
  /\ lastFrameTime (setHover this hover) = lastFrameTime this
  /\ config (setHover this hover) = config this
  /\ uniforms (setHover this hover) = uniforms this.
Proof.
  unfold setHover, hoverDirection.
  destruct hover;
    match goal with
    | |- context [(?a =? ?b)%Z] => destruct (Z.eqb_spec a b) as [E|E]
    end; repeat split; auto.
Qed.

Lemma animate_clock this h :
  lastFrameTime (fst (animate this h)) = now h
  /\ now (snd (animate this h)) = now h
  /\ pendingFrame (snd (animate this h)) = Some (nextFrame h)
  /\ animationFrame (fst (animate this h)) = Some (nextFrame h)
  /\ drawCalls (snd (animate this h)) = S (drawCalls h)
  /\ pendingTimers (snd (animate this h)) = pendingTimers h.
Proof.
  run_code. destruct (direction this =? 0)%Z; run_code; auto 10.
Qed.

(** One [setHover] call, then time passing to [t], then a frame. *)
Lemma hover_then_frame drawText this h hover t this' h' :
  run drawText [SetHover hover; Tick t; Frame] (this, h) = Some (this', h') ->
  let T := totalDuration (config this) in
  let elapsed :=
    Math_max 0 (Math_min T
      (totalElapsedTime this
       + (t - lastFrameTime this) / 1000 * inject_Z (hoverDirection hover))) in
  now h <= t
  /\ direction this' = hoverDirection hover
  /\ config this' = config this
  /\ totalElapsedTime this' = elapsed
  /\ morphProgress this' = elapsed / T
  /\ uMorphProgress (uniforms this') = elapsed / T
  /\ lastFrameTime this' = t
  /\ now h' = t.
Proof.
  intros Hr T elapsed. cbn [run exec] in Hr.
  destruct (Qleb_cases (now h) t) as [[E Hle]|[E _]]; rewrite E in Hr;
    [|discriminate].
  cbn [exec] in Hr.
  destruct (pendingFrame (withNow t h)); [|discriminate].
  apply Some_inj in Hr.
  destruct (setHover_fields this hover) as (Hd & He & Hp & Hl & Hc & Hu).
  pose proof (animate_timeline (setHover this hover)
                (withPendingFrame None (withNow t h))) as Ha.
  pose proof (animate_clock (setHover this hover)
                (withPendingFrame None (withNow t h))) as (Hclock & Hnow & _).
  rewrite Hr in Ha, Hclock, Hnow. cbn [fst snd] in Ha, Hclock, Hnow.
  change (now (withPendingFrame None (withNow t h))) with t
    in Ha, Hclock, Hnow.
  rewrite Hd, He, Hl, Hc in Ha.
  destruct Ha as (Hdir & Hcfg & _ & Hmove).
  destruct Hmove as (E1 & E2 & E3); [destruct hover; discriminate|].
  subst T elapsed. auto 10.
Qed.

(** X14.  With non-negative waits, a frame that comes at least the
    remaining time after [setHover(true)] brings the elapsed time to the
    total duration and the progress to 1, and every pixel the shader then
    writes is that of text C. *)
Theorem hover_long_enough_shows_text_C :
  forall drawText this h t this' h',
    reachable drawText (this, h) ->
    0 < totalDuration (config this) ->
    0 <= waitBetweenFlipsDuration (config this) ->
    0 <= finalWaitDuration (config this) ->
    run drawText [SetHover true; Tick t; Frame] (this, h) = Some (this', h') ->
    totalDuration (config this) - totalElapsedTime this
    <= (t - lastFrameTime this) / 1000 ->
    totalElapsedTime this' == totalDuration (config this)
    /\ morphProgress this' == 1
    /\ forall sin texture2D texture2DData uninitialised vUv,
         vec4_eq (main sin texture2D texture2DData uninitialised
                       (uniforms this') vUv)
                 (texture2D (uTexC (uniforms this')) vUv).
Proof.
  intros drawText this h t this' h' Hreach HT Hwb Hfw Hr Hlong.
  pose proof (reachable_run _ _ _ _ Hreach Hr) as Hreach'.
  apply reachable_Inv in Hreach'.
  destruct (hover_then_frame _ _ _ _ _ _ _ Hr)
    as (_ & _ & Hcfg & He & Hp & Hu & _ & _).
  cbn [hoverDirection] in He, Hp, Hu.
  assert (Hz : Math_max 0
            (Math_min (totalDuration (config this))
               (totalElapsedTime this
                + (t - lastFrameTime this) / 1000 * inject_Z 1))
          == totalDuration (config this)).
  { apply clamp_top; [lra|]. change (inject_Z 1) with 1. lra. }
  assert (Hp1 : morphProgress this' == 1).
  { rewrite Hp, Hz. apply Qdiv_self. lra. }
  split; [now rewrite He|]. split; [exact Hp1|].
  intros sin texture2D texture2DData uninitialised vUv.
  pose proof (shaderTotalDuration_eq _ _ Hreach') as HTs.
  pose proof (validateConfig_durations _ (inv_valid _ Hreach')) as Hdur.
  pose proof (inv_uniforms _ Hreach') as (_ & E2 & _ & E4 & E5 & _).
  pose proof (inv_uprogress _ Hreach') as Eu.
  cbn [fst] in *. rewrite Hcfg in *.
  apply main_at_end.
  - now rewrite Eu.
  - now rewrite HTs.
  - rewrite E2. lra.
  - now rewrite E4.
  - now rewrite E5.
Qed.

(** X15.  With a timeline of positive length and a non-negative initial
    wait, a frame that comes at least the elapsed time after
    [setHover(false)] brings the elapsed time and the progress back to 0,
    and every pixel the shader then writes is that of text A. *)
Theorem unhover_long_enough_shows_text_A :
  forall drawText this h t this' h',
    reachable drawText (this, h) ->
    0 < totalDuration (config this) ->
    0 <= initialWaitDuration (config this) ->
    run drawText [SetHover false; Tick t; Frame] (this, h) = Some (this', h') ->
    totalElapsedTime this <= (t - lastFrameTime this) / 1000 ->
    totalElapsedTime this' == 0
    /\ morphProgress this' == 0
    /\ forall sin texture2D texture2DData uninitialised vUv,
         vec4_eq (main sin texture2D texture2DData uninitialised
                       (uniforms this') vUv)
                 (texture2D (uTexA (uniforms this')) vUv).
Proof.
  intros drawText this h t this' h' Hreach HT Hiw Hr Hlong.
  pose proof (reachable_run _ _ _ _ Hreach Hr) as Hreach'.
  apply reachable_Inv in Hreach'.
  destruct (hover_then_frame _ _ _ _ _ _ _ Hr)
    as (_ & _ & Hcfg & He & Hp & Hu & _ & _).
  cbn [hoverDirection] in He, Hp, Hu.
  assert (Hz : Math_max 0
            (Math_min (totalDuration (config this))
               (totalElapsedTime this
                + (t - lastFrameTime this) / 1000 * inject_Z (-1)))
          == 0).
  { apply clamp_bottom. change (inject_Z (-1)) with (-1). lra. }
  assert (Hp0 : morphProgress this' == 0).
  { rewrite Hp, Hz. apply Qdiv_zero. }
  split; [now rewrite He|]. split; [exact Hp0|].
  intros sin texture2D texture2DData uninitialised vUv.
  pose proof (shaderTotalDuration_eq _ _ Hreach') as HTs.
  pose proof (validateConfig_durations _ (inv_valid _ Hreach')) as Hdur.
  pose proof (inv_uniforms _ Hreach') as (E1 & E2 & E3 & _).
  pose proof (inv_uprogress _ Hreach') as Eu.
  cbn [fst] in *. rewrite Hcfg in *.
  apply main_at_start.
  - now rewrite Eu.
  - now rewrite E1.
  - now rewrite HTs.
  - now rewrite E2, E3.
Qed.

(** X16.  In exact arithmetic, on a timeline of positive length,
    leaving resumes from where hovering stopped: after a hover frame that
    stays within the total duration and a leave frame, the elapsed time
    is the earlier elapsed time plus the time hovered minus the time
    left, floored at 0; leaving for as long as was hovered restores the
    elapsed time and the progress.  (In binary64 the sum and the
    difference are rounded, and the restored time can be off in the last
    place: [reversal_rounds_in_binary64].) *)
Theorem reversal_retraces_the_timeline :
  forall drawText this h t1 t2 this' h',
    reachable drawText (this, h) ->
    0 < totalDuration (config this) ->
    run drawText [SetHover true; Tick t1; Frame;
                  SetHover false; Tick t2; Frame] (this, h)
    = Some (this', h') ->
    let forward := (t1 - lastFrameTime this) / 1000 in
    let backward := (t2 - t1) / 1000 in
    totalElapsedTime this + forward <= totalDuration (config this) ->
    totalElapsedTime this'
    == Math_max 0 (totalElapsedTime this + forward - backward)
    /\ (backward == forward ->
        totalElapsedTime this' == totalElapsedTime this
        /\ morphProgress this' == morphProgress this).
Proof.
  intros drawText this h t1 t2 this' h' Hreach HT Hr forward backward Hfit.
  change [SetHover true; Tick t1; Frame; SetHover false; Tick t2; Frame]
    with ([SetHover true; Tick t1; Frame]
          ++ [SetHover false; Tick t2; Frame]) in Hr.
  destruct (run drawText [SetHover true; Tick t1; Frame] (this, h))
    as [[this1 h1]|] eqn:Hr1.
  2:{ cbn [run app] in Hr, Hr1.
      destruct (exec drawText (SetHover true) (this, h)) as [s|];
        [|discriminate].
      destruct (exec drawText (Tick t1) s) as [s0|]; [|discriminate].
      destruct (exec drawText Frame s0) as [s1|]; discriminate. }
  assert (Hr2 : run drawText [SetHover false; Tick t2; Frame] (this1, h1)
                = Some (this', h')).
  { cbn [run app] in Hr, Hr1 |- *.
    destruct (exec drawText (SetHover true) (this, h)) as [s|];
      [|discriminate].
    destruct (exec drawText (Tick t1) s) as [s0|]; [|discriminate].
    destruct (exec drawText Frame s0) as [s1|]; [|discriminate].
    apply Some_inj in Hr1. subst s1. exact Hr. }
  pose proof (reachable_Inv _ _ Hreach) as HInv.
  destruct (hover_then_frame _ _ _ _ _ _ _ Hr1)
    as (Hnow & _ & Hcfg1 & He1 & _ & _ & Hl1 & Hn1).
  destruct (hover_then_frame _ _ _ _ _ _ _ Hr2)
    as (Hnow2 & _ & Hcfg2 & He2 & Hp2 & _ & _ & _).
  rewrite Hn1 in Hnow2.
  cbn [hoverDirection] in He1, He2, Hp2.
  rewrite Hcfg1, Hl1 in He2, Hp2. fold backward in He2, Hp2.
  fold forward in He1.
  pose proof (inv_elapsed_lo _ HInv) as Hlo.
  pose proof (inv_clock _ HInv) as Hclock.
  pose proof (inv_progress _ HInv) as Hprog. cbn [fst snd] in *.
  assert (Hf : 0 <= forward).
  { subst forward. apply Qle_shift_div_l; lra. }
  assert (Hb : 0 <= backward).
  { subst backward. apply Qle_shift_div_l; lra. }
  assert (E1 : totalElapsedTime this1 == totalElapsedTime this + forward).
  { rewrite He1. change (inject_Z 1) with 1.
    clamp_cases (totalDuration (config this))
                (totalElapsedTime this + forward * 1); lra. }
  assert (E2 : totalElapsedTime this'
               == Math_max 0 (totalElapsedTime this + forward - backward)).
  { rewrite He2. change (inject_Z (-1)) with (-1).
    destruct (Math_min_spec (totalDuration (config this))
                (totalElapsedTime this1 + backward * -1)) as [[H1 Em]|[H1 Em]];
      rewrite Em; (apply Math_max_proper; [reflexivity|]); lra. }
  split; [exact E2|].
  intro Hsame.
  assert (E3 : totalElapsedTime this' == totalElapsedTime this).
  { rewrite E2.
    destruct (Math_max_spec 0 (totalElapsedTime this + forward - backward))
      as [[H1 Em]|[H1 Em]]; rewrite Em; lra. }
  split; [exact E3|].
  rewrite Hp2, Hprog.
  assert (E4 : Math_max 0
                 (Math_min (totalDuration (config this))
                    (totalElapsedTime this1 + backward * inject_Z (-1)))
               == totalElapsedTime this) by (rewrite <- He2; exact E3).
  now rewrite E4.
Qed.

(** The rounding at work: from an elapsed time of [0.3], half a second of
    hovering gives the double [0.8], and half a second of leaving gives
    the double next above [0.3]. *)
Lemma reversal_rounds_in_binary64 :
  let number := IEEE.ofZ IEEE.binary64 in
  let elapsed := IEEE.literal IEEE.binary64 3 10 in
  let hovered :=
    IEEE.advance elapsed (IEEE.deltaTime (number 800%Z) (number 300%Z))
                 (number 1%Z) defaultTotal64 in
  let left :=
    IEEE.advance (fst hovered) (IEEE.deltaTime (number 1300%Z) (number 800%Z))
                 (number (-1)%Z) defaultTotal64 in
  fst hovered = IEEE.literal IEEE.binary64 8 10
  /\ elapsed = S754_finite false 5404319552844595 (-54)
  /\ fst left = S754_finite false 5404319552844596 (-54)
  /\ IEEE.eqb (fst left) elapsed = false.
Proof. vm_compute. repeat split. Qed.

(** X17.  [validateConfig] does not look at the wait durations: a
    configuration whose durations sum to a negative total is accepted,
    and the engine built from it stays at elapsed time 0 and progress 0
    whatever is done to it. *)
Theorem negative_total_never_animates :
  forall drawText this h,
    reachable drawText (this, h) ->
    totalDuration (config this) < 0 ->
    validateConfig (config this) = Ok tt
    /\ totalElapsedTime this == 0
    /\ morphProgress this == 0
    /\ uMorphProgress (uniforms this) == 0.
Proof.
  intros drawText this h Hr HT. apply reachable_Inv in Hr.
  pose proof (elapsed_bounds _ _ Hr) as [_ Hneg].
  pose proof (inv_progress _ Hr) as Hp. pose proof (inv_uprogress _ Hr) as Hu.
  cbn [fst] in *.
  assert (Hp0 : morphProgress this == 0).
  { rewrite Hp, (Hneg HT). apply Qdiv_zero. }
  split; [exact (inv_valid _ Hr)|]. split; [exact (Hneg HT)|].
  split; [exact Hp0|]. now rewrite Hu.
Qed.

(* ================================================================== *)
(** * The presence scan covers the canvas *)

Lemma inject_Z_one : inject_Z 1 = 1.
Proof. reflexivity. Qed.

(** The next tile starts no later than this tile's scan ends. *)
Lemma tileStart_next i w :
  (tileStart (i + 1) w <= tileStart i w + Math_ceil w)%Z.
Proof.
  unfold tileStart, Math_floor, Math_ceil.
  pose proof (Qfloor_le (inject_Z (i + 1) * w)) as H1.
  pose proof (Qlt_floor (inject_Z i * w)) as H2.
  pose proof (Qle_ceiling w) as H3.
  rewrite inject_Z_plus, inject_Z_one in H1, H2.
  assert (H : (Qfloor ((inject_Z i + 1) * w)
               < Qfloor (inject_Z i * w) + 1 + Qceiling w)%Z).
  { rewrite Zlt_Qlt, !inject_Z_plus, inject_Z_one. lra. }
  rewrite inject_Z_plus, inject_Z_one. lia.
Qed.

Lemma tileStart_zero w : tileStart 0 w = 0%Z.
Proof.
  unfold tileStart, Math_floor.
  assert (E : inject_Z 0 * w == inject_Z 0) by (change (inject_Z 0) with 0; ring).
  rewrite E. apply Qfloor_Z.
Qed.

Lemma tileStart_last extent count :
  (1 <= count)%Z ->
  tileStart count (inject_Z extent / inject_Z count) = extent.
Proof.
  intro Hc. unfold tileStart, Math_floor.
  assert (HN : 0 < inject_Z count).
  { change 0 with (inject_Z 0). rewrite <- Zlt_Qlt. lia. }
  assert (E : inject_Z count * (inject_Z extent / inject_Z count)
              == inject_Z extent) by (field; lra).
  rewrite E. apply Qfloor_Z.
Qed.

(** Along one axis, every pixel falls in the scan of some tile. *)
Lemma scans_cover_axis extent count px :
  (1 <= count)%Z -> (0 <= px < extent)%Z ->
  let w := inject_Z extent / inject_Z count in
  exists i, (0 <= i < count)%Z
            /\ (tileStart i w <= px < tileEnd i w extent)%Z.
Proof.
  intros Hc Hpx w.
  assert (Hn : forall n : nat,
            (px < tileStart (Z.of_nat n) w)%Z ->
            exists i, (0 <= i < Z.of_nat n)%Z
                      /\ (tileStart i w <= px < tileStart (i + 1) w)%Z).
  { induction n as [|n IH]; intro Hlt.
    - change (Z.of_nat 0) with 0%Z in Hlt. rewrite tileStart_zero in Hlt. lia.
    - destruct (Z_lt_le_dec px (tileStart (Z.of_nat n) w)) as [Hl|Hg].
      + destruct (IH Hl) as (i & Hi & Hr). exists i. split; [lia|exact Hr].
      + exists (Z.of_nat n). split; [lia|].
        replace (Z.of_nat n + 1)%Z with (Z.of_nat (S n)) by lia. lia. }
  destruct (Hn (Z.to_nat count)) as (i & Hi & Hlo & Hhi).
  - rewrite Z2Nat.id by lia. subst w. rewrite tileStart_last by lia. lia.
  - rewrite Z2Nat.id in Hi by lia. exists i. split; [exact Hi|].
    unfold tileEnd. pose proof (tileStart_next i w). lia.
Qed.

(** Along one axis, the scan of every tile holds a pixel. *)
Lemma scan_nonempty_axis extent count i :
  (1 <= count)%Z -> (1 <= extent)%Z -> (0 <= i < count)%Z ->
  let w := inject_Z extent / inject_Z count in
  (0 <= tileStart i w < tileEnd i w extent)%Z.
Proof.
  intros Hc He Hi w.
  assert (HN : 0 < inject_Z count).
  { change 0 with (inject_Z 0). rewrite <- Zlt_Qlt. lia. }
  assert (HE : 0 < inject_Z extent).
  { change 0 with (inject_Z 0). rewrite <- Zlt_Qlt. lia. }
  assert (Hw : 0 < w) by (subst w; apply Qlt_shift_div_l; lra).
  assert (Hi0 : 0 <= inject_Z i).
  { change 0 with (inject_Z 0). rewrite <- Zle_Qle. lia. }
  assert (Hi1 : inject_Z i + 1 <= inject_Z count).
  { rewrite <- inject_Z_one, <- inject_Z_plus, <- Zle_Qle. lia. }
  assert (Hcw : inject_Z count * w == inject_Z extent)
    by (subst w; field; lra).
  assert (Hiw : inject_Z i * w < inject_Z extent).
  { assert (0 <= (inject_Z count - inject_Z i - 1) * w)
      by (apply Qmult_le_0_compat; lra).
    lra. }
  split.
  - apply tileStart_nonneg; [lia|lra].
  - unfold tileEnd, tileStart, Math_floor, Math_ceil.
    pose proof (Qfloor_le (inject_Z i * w)) as H1.
    pose proof (Qle_ceiling w) as H2.
    assert (Hs : (Qfloor (inject_Z i * w) < extent)%Z)
      by (rewrite Zlt_Qlt; lra).
    assert (Hcl : (0 < Qceiling w)%Z).
    { rewrite Zlt_Qlt. change (inject_Z 0) with 0. lra. }
    lia.
Qed.

(** X18.  The rectangles that [scanTileForText] walks cover the
    canvas: every pixel of the canvas lies in the rectangle of some tile
    of the grid, so a pixel with non-zero alpha always sets the byte of at
    least one tile to 255. *)
Theorem ink_marks_some_tile :
  forall grid canvas x y,
    (1 <= tcx grid)%Z -> (1 <= tcy grid)%Z ->
    (0 <= x < cwidth canvas)%Z -> (0 <= y < cheight canvas)%Z ->
    alphaAt canvas x y <> 0%N ->
    exists tileX tileY,
      (0 <= tileX < tcx grid)%Z /\ (0 <= tileY < tcy grid)%Z
      /\ inScannedRect grid canvas tileX tileY x y
      /\ nth (Z.to_nat (tileY * tcx grid + tileX)) (presenceData grid canvas)
             0%N = 255%N.
Proof.
  intros grid canvas x y Htx Hty Hx Hy Hink.
  destruct (scans_cover_axis (cwidth canvas) (tcx grid) x Htx Hx)
    as (tileX & HX & HrX).
  destruct (scans_cover_axis (cheight canvas) (tcy grid) y Hty Hy)
    as (tileY & HY & HrY).
  exists tileX, tileY. split; [exact HX|]. split; [exact HY|].
  split; [split; assumption|].
  rewrite presenceData_nth by assumption.
  assert (Hscan : scanTileForText (pixels canvas) (cwidth canvas)
                    (cheight canvas) tileX tileY
                    (inject_Z (cwidth canvas) / inject_Z (tcx grid))
                    (inject_Z (cheight canvas) / inject_Z (tcy grid)) = true).
  { apply scanTileForText_spec; try lia.
    - apply cell_nonneg; lia.
    - apply cell_nonneg; lia.
    - exists x, y. auto. }
  now rewrite Hscan.
Qed.

(** X19.  On a canvas of at least one pixel each way no tile is empty:
    the rectangle of every tile of the grid holds a pixel of the canvas,
    so on a canvas with ink everywhere every byte of the mask is 255. *)
Theorem every_tile_scans_a_pixel :
  forall grid canvas tileX tileY,
    (1 <= tcx grid)%Z -> (1 <= tcy grid)%Z ->
    (1 <= cwidth canvas)%Z -> (1 <= cheight canvas)%Z ->
    (0 <= tileX < tcx grid)%Z -> (0 <= tileY < tcy grid)%Z ->
    (exists x y, inScannedRect grid canvas tileX tileY x y
                 /\ (0 <= x < cwidth canvas)%Z /\ (0 <= y < cheight canvas)%Z)
    /\ ((forall x y, (0 <= x < cwidth canvas)%Z -> (0 <= y < cheight canvas)%Z ->
                     alphaAt canvas x y <> 0%N) ->
        nth (Z.to_nat (tileY * tcx grid + tileX)) (presenceData grid canvas)
            0%N = 255%N).
Proof.
  intros grid canvas tileX tileY Htx Hty HW HH HX HY.
  pose proof (scan_nonempty_axis (cwidth canvas) (tcx grid) tileX Htx HW HX)
    as HrX.
  pose proof (scan_nonempty_axis (cheight canvas) (tcy grid) tileY Hty HH HY)
    as HrY.
  cbv zeta in HrX, HrY.
  pose proof (tileEnd_le tileX (inject_Z (cwidth canvas) / inject_Z (tcx grid))
                (cwidth canvas)) as HeX.
  pose proof (tileEnd_le tileY (inject_Z (cheight canvas) / inject_Z (tcy grid))
                (cheight canvas)) as HeY.
  assert (Hin : inScannedRect grid canvas tileX tileY
                  (tileStart tileX
                     (inject_Z (cwidth canvas) / inject_Z (tcx grid)))
                  (tileStart tileY
                     (inject_Z (cheight canvas) / inject_Z (tcy grid)))).
  { unfold inScannedRect. cbv zeta. lia. }
  split.
  - eexists _, _. split; [exact Hin|]. lia.
  - intro Hfull. rewrite presenceData_nth by assumption.
    assert (Hscan : scanTileForText (pixels canvas) (cwidth canvas)
                      (cheight canvas) tileX tileY
                      (inject_Z (cwidth canvas) / inject_Z (tcx grid))
                      (inject_Z (cheight canvas) / inject_Z (tcy grid)) = true).
    { apply scanTileForText_spec; try lia.
      - apply cell_nonneg; lia.
      - apply cell_nonneg; lia.
      - eexists _, _. destruct Hin as [Hx Hy].
        split; [exact Hx|]. split; [exact Hy|]. apply Hfull; lia. }
    now rewrite Hscan.
Qed.

(* ================================================================== *)
(** * Tile grid, font size and defaults *)

(** One axis of [calculateTiles] in tile-pixel-size mode. *)
Lemma tiles_fit_axis extent size :
  0 < size -> 0 <= extent ->
  let n := Z.max 1 (Math_floor (extent / size)) in
  (1 <= n)%Z
  /\ (extent < size -> n = 1%Z)
  /\ (size <= extent ->
      inject_Z n * size <= extent < (inject_Z n + 1) * size
      /\ size <= extent / inject_Z n < 2 * size).
Proof.
  intros Hs He. cbv zeta. unfold Math_floor.
  pose proof (Qfloor_le (extent / size)) as H1.
  pose proof (Qlt_floor (extent / size)) as H2.
  rewrite inject_Z_plus, inject_Z_one in H2.
  split; [lia|]. split.
  - intro Hlt.
    assert (Hq : extent / size < 1) by (apply Qlt_shift_div_r; lra).
    assert (Hf : (Qfloor (extent / size) < 1)%Z).
    { rewrite Zlt_Qlt, inject_Z_one. lra. }
    lia.
  - intro Hge.
    assert (Hq : 1 <= extent / size) by (apply Qle_shift_div_l; lra).
    assert (Hf : (1 <= Qfloor (extent / size))%Z).
    { assert (H : (1 < Qfloor (extent / size) + 1)%Z); [|lia].
      rewrite Zlt_Qlt, inject_Z_plus, inject_Z_one. lra. }
    assert (En : Z.max 1 (Qfloor (extent / size)) = Qfloor (extent / size))
      by lia.
    rewrite En.
    assert (Eq : extent / size * size == extent) by (field; lra).
    assert (HN : 1 <= inject_Z (Qfloor (extent / size))).
    { rewrite <- inject_Z_one, <- Zle_Qle. exact Hf. }
    assert (Hlow : inject_Z (Qfloor (extent / size)) * size <= extent).
    { rewrite <- Eq at 2. apply Qmult_le_compat_r; lra. }
    assert (Hhigh : extent < (inject_Z (Qfloor (extent / size)) + 1) * size).
    { rewrite <- Eq at 1. apply Qmult_lt_compat_r; lra. }
    split; [split; assumption|]. split.
    + apply Qle_shift_div_l; lra.
    + apply Qlt_shift_div_r; [lra|].
      assert (0 <= (inject_Z (Qfloor (extent / size)) - 1) * size)
        by (apply Qmult_le_0_compat; lra).
      lra.
Qed.

(** X20.  In exact arithmetic, for a positive tile size and a canvas
    extent that is not negative, [calculateTiles] in tile-pixel-size mode
    gives, along each axis, the largest number of whole tiles of the
    configured size that fit, and one tile when not even one fits; when
    at least one fits, the cells of the resulting grid are at least the
    configured size and less than twice that.  (The binary64 quotient can
    round across a whole number when the tile size is not one itself:
    [tilesAlong_rounds_in_binary64].) *)
Theorem calculateTiles_fits_whole_tiles :
  forall config d width height,
    tiles config = None -> tileDimensions config = Some d ->
    0 < dx d -> 0 < dy d -> 0 <= width -> 0 <= height ->
    let grid := calculateTiles config width height in
    ((1 <= tcx grid)%Z
     /\ (width < dx d -> tcx grid = 1%Z)
     /\ (dx d <= width ->
         inject_Z (tcx grid) * dx d <= width < (inject_Z (tcx grid) + 1) * dx d
         /\ dx d <= width / inject_Z (tcx grid) < 2 * dx d))
    /\ ((1 <= tcy grid)%Z
        /\ (height < dy d -> tcy grid = 1%Z)
        /\ (dy d <= height ->
            inject_Z (tcy grid) * dy d <= height
            < (inject_Z (tcy grid) + 1) * dy d
            /\ dy d <= height / inject_Z (tcy grid) < 2 * dy d)).
Proof.
  intros config d width height Et Ed Hx Hy Hw Hh grid.
  subst grid. unfold calculateTiles. rewrite Et, Ed. cbn [tcx tcy].
  split.
  - exact (tiles_fit_axis width (dx d) Hx Hw).
  - exact (tiles_fit_axis height (dy d) Hy Hh).
Qed.

(** The rounding at work: a tile size of the double [0.1] on an extent of
    3 gives 30 tiles in binary64, where 29 whole tiles of that size fit;
    a tile size of [1.1] on an extent of 33 gives 29 tiles, one short of
    the exact quotient; a whole-number tile size of 8 on an extent of 164
    gives 20 in both. *)
Lemma tilesAlong_rounds_in_binary64 :
  let number := IEEE.ofZ IEEE.binary64 in
  let tenth := IEEE.literal IEEE.binary64 1 10 in
  IEEE.tilesAlong (number 3%Z) tenth = Some 30%Z
  /\ tenth = S754_finite false 7205759403792794 (-56)
  /\ Math_floor (3 / (7205759403792794 # 2 ^ 56)) = 29%Z
  /\ IEEE.tilesAlong (number 33%Z) (IEEE.literal IEEE.binary64 11 10)
     = Some 29%Z
  /\ Math_floor (33 / 1.1) = 30%Z
  /\ IEEE.tilesAlong (number 164%Z) (number 8%Z) = Some 20%Z
  /\ Math_floor (164 / 8) = 20%Z.
Proof. vm_compute. repeat split. Qed.

(** X21.  [getFontSize] is [width * 0.04375] clamped to [24, 96]: it is
    24 up to the width where the product reaches 24, the product between
    there and 96, 96 beyond, and it never decreases as the width grows. *)
Theorem getFontSize_is_clamped :
  forall width width',
    (24 <= getFontSize width <= 96)
    /\ (width * 0.04375 <= 24 -> getFontSize width == 24)
    /\ (24 <= width * 0.04375 <= 96 -> getFontSize width == width * 0.04375)
    /\ (96 <= width * 0.04375 -> getFontSize width == 96)
    /\ (width <= width' -> getFontSize width <= getFontSize width').
Proof.
  intros width width'.
  assert (Hc : forall w,
            (w * 0.04375 <= 24 /\ getFontSize w == 24)
            \/ (24 <= w * 0.04375 <= 96 /\ getFontSize w == w * 0.04375)
            \/ (96 <= w * 0.04375 /\ getFontSize w == 96)).
  { intro w. unfold getFontSize.
    destruct (Math_max_spec 24 (w * 0.04375)) as [[H1 E1]|[H1 E1]];
      rewrite E1;
      match goal with |- context [Math_min ?a ?b] =>
        destruct (Math_min_spec a b) as [[H2 E2]|[H2 E2]]; rewrite E2
      end.
    - right. right. split; [lra|reflexivity].
    - right. left. split; [lra|reflexivity].
    - exfalso. lra.
    - left. split; [lra|reflexivity]. }
  split; [|split; [|split; [|split]]].
  - destruct (Hc width) as [[H E]|[[H E]|[H E]]]; rewrite E; lra.
  - intro H'. destruct (Hc width) as [[H E]|[[H E]|[H E]]]; rewrite E; lra.
  - intro H'. destruct (Hc width) as [[H E]|[[H E]|[H E]]]; rewrite E; lra.
  - intro H'. destruct (Hc width) as [[H E]|[[H E]|[H E]]]; rewrite E; lra.
  - intro Hle.
    destruct (Hc width) as [[H E]|[[H E]|[H E]]]; rewrite E;
    destruct (Hc width') as [[H' E']|[[H' E']|[H' E']]]; rewrite E'; lra.
Qed.

(** X22.  Options that give only the three texts always construct: the
    defaults pass [validateConfig], the engine is in tile-pixel-size mode
    with tiles of 8 x 8 pixels, its grid is
    [max(1, floor(clientWidth / 8))] by [max(1, floor(clientHeight / 8))],
    the timeline lasts 1.7 seconds and the debounce is 100 ms. *)
Theorem texts_only_options_construct :
  forall drawText canvas a b c h,
    exists this h',
      constructor drawText canvas (textsOnly a b c) h = (Ok this, h')
      /\ textA (config this) = a /\ textB (config this) = b
      /\ textC (config this) = c
      /\ fontFamily (config this) = DEFAULTS.fontFamily
      /\ tiles (config this) = None
      /\ tileDimensions (config this) = Some DEFAULTS.tileDimensions
      /\ useTileDimensions this = true
      /\ this_tiles this
         = {| tcx := Z.max 1 (Math_floor (clientWidth canvas / 8));
              tcy := Z.max 1 (Math_floor (clientHeight canvas / 8)) |}
      /\ totalDuration (config this) == 1.7
      /\ resizeDebounceMs (config this) == 100.
Proof.
  intros drawText canvas a b c h.
  assert (Hok : validateConfig (mergeOptions (textsOnly a b c)) = Ok tt)
    by reflexivity.
  destruct (constructor_ok drawText canvas (textsOnly a b c) h Hok)
    as (this & h' & Hc & Hcfg & Ht & Hm).
  exists this, h'. split; [exact Hc|].
  rewrite Hcfg, Ht, Hm. repeat split; reflexivity.
Qed.

(* ================================================================== *)
(** * Phases in seconds, grid cells, construction and frames *)

Lemma Qltb_div_r mp e x T :
  0 < T -> mp == e / T -> (mp <? x / T) = (e <? x).
Proof.
  intros HT Hmp.
  assert (Ee : e == mp * T) by (rewrite Hmp; field; lra).
  destruct (Qltb_cases mp (x / T)) as [[E H]|[E H]]; rewrite E; symmetry.
  - apply Qltb_lt. apply Qdiv_gt_elim in H; lra.
  - apply Qltb_ge. apply Qdiv_le_elim in H; lra.
Qed.

(** X23.  For a live engine with a timeline of positive length the arm
    the shader selects from the progress uniform is the one the elapsed
    seconds select from the cumulative durations: initial wait before
    [initialWait], flip A to B before [initialWait + allTilesFlip], and so
    on (in exact arithmetic). *)
Theorem phase_of_elapsed_time :
  forall drawText this h,
    reachable drawText (this, h) ->
    0 < totalDuration (config this) ->
    selectPhase (uniforms this) = phaseAt (config this) (totalElapsedTime this).
Proof.
  intros drawText this h Hr HT. apply reachable_Inv in Hr.
  pose proof (shaderTotalDuration_eq _ _ Hr) as HTs.
  pose proof (inv_uniforms _ Hr) as (E1 & E2 & _ & E4 & _).
  pose proof (inv_uprogress _ Hr) as Eu.
  pose proof (inv_progress _ Hr) as Ep. cbn [fst] in *.
  assert (HT' : 0 < shaderTotalDuration (uniforms this)) by now rewrite HTs.
  assert (Hmp : uMorphProgress (uniforms this)
                == totalElapsedTime this / shaderTotalDuration (uniforms this))
    by now rewrite Eu, Ep, HTs.
  unfold selectPhase, phaseAt, initialWaitEnd, flipABEnd, waitBetweenEnd,
    flipBCEnd. cbv zeta.
  rewrite !(Qltb_div_r _ _ _ _ HT' Hmp), E1, E2, E4. reflexivity.
Qed.

Lemma cell_floor n i x :
  (1 <= n)%Z -> inCell n i x -> Qfloor (x * inject_Z n) = i.
Proof.
  intros Hn [Hlo Hhi].
  assert (HN : 0 < inject_Z n).
  { change 0 with (inject_Z 0). rewrite <- Zlt_Qlt. lia. }
  apply Qdiv_le_elim in Hlo; [|exact HN].
  apply Qdiv_gt_elim in Hhi; [|exact HN].
  apply Qfloor_unique. lra.
Qed.

(** X24.  Two pixels in the same cell of the tile grid get the same
    noise, the same presence lookup, the same flip progress and the same
    ink values, and take the invert branch together. *)
Theorem pixels_of_a_cell_flip_together :
  forall sin texture2D texture2DData uninitialised u tileX tileY vUv vUv',
    (1 <= tcx (uTiles u))%Z -> (1 <= tcy (uTiles u))%Z ->
    inCell (tcx (uTiles u)) tileX (vx vUv) ->
    inCell (tcy (uTiles u)) tileY (vy vUv) ->
    inCell (tcx (uTiles u)) tileX (vx vUv') ->
    inCell (tcy (uTiles u)) tileY (vy vUv') ->
    let l := locals sin texture2D texture2DData uninitialised u vUv in
    let l' := locals sin texture2D texture2DData uninitialised u vUv' in
    noiseAt sin u vUv = noiseAt sin u vUv'
    /\ presenceUVAt u vUv = presenceUVAt u vUv'
    /\ flipProgress l = flipProgress l'
    /\ hasTextSource l = hasTextSource l'
    /\ hasTextTarget l = hasTextTarget l'
    /\ invertBranchTaken sin texture2D texture2DData uninitialised u vUv
       = invertBranchTaken sin texture2D texture2DData uninitialised u vUv'.
Proof.
  intros sin texture2D texture2DData uninitialised u tileX tileY vUv vUv'
         Hx Hy Cx Cy Cx' Cy' l l'.
  assert (Ht : tileOf u vUv = tileOf u vUv').
  { unfold tileOf, tilesVec. cbn [vx vy].
    now rewrite (cell_floor _ _ _ Hx Cx), (cell_floor _ _ _ Hy Cy),
      (cell_floor _ _ _ Hx Cx'), (cell_floor _ _ _ Hy Cy'). }
  assert (Hn : noiseAt sin u vUv = noiseAt sin u vUv')
    by (unfold noiseAt; now rewrite Ht).
  assert (Hp : presenceUVAt u vUv = presenceUVAt u vUv')
    by (unfold presenceUVAt; now rewrite Ht).
  assert (Hl : flipProgress l = flipProgress l'
               /\ hasTextSource l = hasTextSource l'
               /\ hasTextTarget l = hasTextTarget l').
  { subst l l'. unfold locals. rewrite Hn, Hp.
    destruct (selectPhase u); repeat split; reflexivity. }
  destruct Hl as (L1 & L2 & L3).
  repeat split; trivial.
  unfold invertBranchTaken, invertAt. cbv zeta. fold l l'.
  now rewrite Hn, L1, L2, L3.
Qed.

(** X25.  A construction that succeeds creates exactly nine GPU objects,
    the next nine handles of the host, all held by the engine; it disposes
    nothing, renders once, leaves exactly its own animation-frame request
    pending, arms no timer, starts the frame clock at the current time,
    and gives the renderer and the resolution uniform the client size of
    the canvas. *)
Theorem construction_effects :
  forall drawText canvas options h this h',
    constructor drawText canvas options h = (Ok this, h') ->
    (forall id, In id (handles this) <->
                (nextObject h <= id < nextObject h + 9)%nat)
    /\ NoDup (handles this)
    /\ nextObject h' = (nextObject h + 9)%nat
    /\ disposed h' = disposed h
    /\ drawCalls h' = S (drawCalls h)
    /\ pendingFrame h' = Some (nextFrame h)
    /\ animationFrame this = Some (nextFrame h)
    /\ pendingTimers h' = pendingTimers h
    /\ resizeTimeout this = None
    /\ lastFrameTime this = now h
    /\ rendererSize (renderer this)
       = {| dx := clientWidth canvas; dy := clientHeight canvas |}
    /\ uResolution (uniforms this)
       = {| dx := clientWidth canvas; dy := clientHeight canvas |}.
Proof.
  intros drawText canvas options h this h' Hc.
  destruct (constructor_objects _ _ _ _ _ _ Hc)
    as (Eh & En & Ed & Edc & Epf & Eaf & _ & Ept & Ert & Elf & _).
  assert (Hsize : rendererSize (renderer this)
                  = {| dx := clientWidth canvas; dy := clientHeight canvas |}
                  /\ uResolution (uniforms this)
                     = {| dx := clientWidth canvas;
                          dy := clientHeight canvas |}).
  { destruct (validateConfig_ok_or_throw (mergeOptions options))
      as [Hok|[e He]].
    2:{ rewrite (constructor_throw drawText canvas options _ e He) in Hc.
        discriminate. }
    revert Hc. unfold constructor. rewrite Hok. run_code.
    intro Hc. injection Hc as <- <-. run_code. split; reflexivity. }
  destruct Hsize as [Hs1 Hs2].
  rewrite Eh.
  split; [|split; [|auto 12]].
  - intro id. cbn [In]. lia.
  - repeat constructor; cbn [In]; lia.
Qed.

(** X26.  The frame loop never stops on its own: in every state of a
    live engine a frame callback is pending, and running it requests the
    next frame, renders once, sets the frame clock to the current time
    whatever the direction (so time spent idle is not counted later), and
    leaves timers, textures, grid and renderer alone. *)
Theorem frame_callback_rearms_loop :
  forall drawText this h,
    reachable drawText (this, h) ->
    exists this' h',
      exec drawText Frame (this, h) = Some (this', h')
      /\ pendingFrame h' = Some (nextFrame h)
      /\ animationFrame this' = Some (nextFrame h)
      /\ drawCalls h' = S (drawCalls h)
      /\ lastFrameTime this' = now h
      /\ now h' = now h
      /\ pendingTimers h' = pendingTimers h
      /\ view this' = view this.
Proof.
  intros drawText this h Hr. apply reachable_Inv in Hr.
  destruct (inv_frame _ Hr) as [_ Hpf]. cbn [fst snd] in Hpf.
  cbn [exec]. destruct (pendingFrame h) as [id|] eqn:Ep; [|congruence].
  destruct (animate this (withPendingFrame None h)) as [this' h'] eqn:Ea.
  exists this', h'. split; [reflexivity|].
  pose proof (animate_clock this (withPendingFrame None h))
    as (H1 & H2 & H3 & H4 & H5 & H6).
  pose proof (animate_view this (withPendingFrame None h)) as (Hv & _).
  rewrite Ea in *. cbn [fst snd] in *. auto 10.
Qed.

(* ================================================================== *)
(** * Calls after [destroy] *)

Lemma resizeSettled_pending drawText this h width height :
  pendingFrame (snd (resizeSettled drawText this width height h))
  = pendingFrame h
  /\ pendingTimers (snd (resizeSettled drawText this width height h))
     = pendingTimers h.
Proof.
  unfold resizeSettled.
  destruct (useTileDimensions this); run_code; split; reflexivity.
Qed.

(** X27.  [destroy] installs no guard against later calls: a [resize]
    made after it arms a new debounce timer, and when that timer fires
    the six textures that [destroy] had disposed are disposed a second
    time and six new textures are created, which no pending callback will
    ever dispose. *)
Theorem resize_after_destroy_regenerates :
  forall drawText this h width height,
    reachable drawText (this, h) ->
    let h1 := snd (destroy this h) in
    let this2 := fst (resize this width height h1) in
    let h2 := snd (resize this width height h1) in
    exists t,
      pendingTimers h2 = [t]
      /\ timerWidth t = width /\ timerHeight t = height
      /\ due t == now h + resizeDebounceMs (config this)
      /\ forall later,
           now h <= later -> due t <= later ->
           exists this3 h3,
             run drawText [Tick later; Timeout (timerId t)] (this2, h2)
             = Some (this3, h3)
             /\ nextObject h3 = (nextObject h + 6)%nat
             /\ Forall (fun id => disposeCount h3 id = 2%nat)
                       (textureHandles this)
             /\ Forall (fun id => (nextObject h <= id)%nat
                                  /\ disposeCount h3 id = 0%nat)
                       (textureHandles this3)
             /\ pendingFrame h3 = None /\ pendingTimers h3 = [].
Proof.
  intros drawText this h width height Hr h1 this2 h2.
  apply reachable_Inv in Hr.
  pose proof (handles_NoDup this h Hr) as Hnd.
  pose proof (destroy_host this h Hr) as Eh1. fold h1 in Eh1.
  pose proof (inv_live _ Hr) as Hlive. pose proof (inv_disposed _ Hr) as Hdis.
  pose proof (inv_layout _ Hr) as Hlayout. cbn [fst snd] in *.
  assert (Er : resize this width height h1
               = (setResizeTimeout
                    (setUniforms (setRendererSize this
                                    {| dx := width; dy := height |})
                       (setGrid (uniforms this)
                          {| dx := width; dy := height |}
                          (uTiles (uniforms this))))
                    (Some (nextTimer h)),
                  {| now := now h; nextObject := nextObject h;
                     disposed := rev (handles this) ++ disposed h;
                     nextFrame := nextFrame h; pendingFrame := None;
                     nextTimer := S (nextTimer h);
                     pendingTimers :=
                       [ {| timerId := nextTimer h;
                            due := now h + resizeDebounceMs (config this);
                            timerWidth := width; timerHeight := height |} ];
                     drawCalls := drawCalls h |})).
  { unfold resize, bind.
    rewrite clearResizeTimeout_clears
      by (left; rewrite Eh1; reflexivity).
    rewrite Eh1. unfold setTimeout, ret. run_code. reflexivity. }
  subst this2 h2. rewrite Er. cbn [fst snd].
  eexists. split; [reflexivity|]. cbn [timerWidth timerHeight due timerId].
  split; [reflexivity|]. split; [reflexivity|]. split; [reflexivity|].
  intros later Hnow Hdue.
  cbn [run exec now].
  destruct (Qleb_cases (now h) later) as [[E _]|[E Hlt]]; [|lra].
  rewrite E. cbn [exec]. unfold findTimer.
  cbn [withNow pendingTimers find timerId]. rewrite Nat.eqb_refl.
  cbn [now due withNow].
  destruct (Qleb_cases (now h + resizeDebounceMs (config this)) later)
    as [[E' _]|[E' Hlt]]; [|lra].
  rewrite E'. cbn [run].
  match goal with
  | |- exists this3 h3, Some (resizeSettled ?d ?t ?w ?hh ?h0) = _ /\ _ =>
    destruct (resizeSettled_objects d t h0 w hh) as (Eh & Ed & En);
    destruct (resizeSettled d t w hh h0) as [this3 h3] eqn:Es
  end.
  cbn [fst snd] in Eh, Ed, En.
  assert (Ep : pendingFrame h3 = None /\ pendingTimers h3 = []).
  { match type of Es with
    | resizeSettled ?d ?t ?w ?hh ?h0 = _ =>
      destruct (resizeSettled_pending d t h0 w hh) as (P1 & P2)
    end.
    rewrite Es in P1, P2. cbn [snd] in P1, P2. rewrite P1, P2.
    cbn [removeTimer withPendingTimers withNow pendingFrame pendingTimers
         filter timerId].
    rewrite Nat.eqb_refl. split; reflexivity. }
  exists this3, h3. split; [reflexivity|].
  revert Ed En Eh.
  cbn [removeTimer withPendingTimers withNow nextObject disposed
       setResizeTimeout setUniforms setTimeline setRendererSize setGrid
       uniforms renderer material geometry rendererId
       uTexA uTexB uTexC uPresenceA uPresenceB uPresenceC].
  intros Ed En Eh.
  assert (Ed' : disposed h3
                = rev (textureHandles this) ++ rev (handles this)
                  ++ disposed h) by (rewrite Ed; reflexivity).
  assert (Hsplit : handles this
                   = textureHandles this
                     ++ [rendererId (renderer this); material this;
                         geometry this]) by reflexivity.
  rewrite Forall_forall in Hlive, Hdis.
  split; [exact En|]. split; [|split; [|exact Ep]].
  - apply Forall_forall. intros id Hin.
    assert (Hin' : In id (handles this))
      by (rewrite Hsplit; apply in_or_app; now left).
    assert (Hnd' : NoDup (textureHandles this)).
    { rewrite Hsplit in Hnd. exact (NoDup_app_remove_r _ _ Hnd). }
    unfold disposeCount. rewrite Ed', !count_occ_app, !count_occ_rev.
    rewrite (proj1 (NoDup_count_occ' Nat.eq_dec _) Hnd' id Hin).
    rewrite (proj1 (NoDup_count_occ' Nat.eq_dec _) Hnd id Hin').
    rewrite (proj1 (count_occ_not_In Nat.eq_dec (disposed h) id))
      by now apply Hlive.
    reflexivity.
  - assert (Hfresh : forall id, (nextObject h <= id)%nat ->
              count_occ Nat.eq_dec (disposed h3) id = 0%nat).
    { intros id Hid. apply count_occ_not_In. rewrite Ed'.
      rewrite !in_app_iff, <- !in_rev.
      assert (Hold : forall i, In i (handles this) -> (i < nextObject h)%nat).
      { destruct Hlayout as
          (k & HA & HB & HC & HpA & HpB & HpC & Hrmg & Hrk & Hgm & Hk & Hg).
        intros i. unfold handles. rewrite HA, HB, HC, HpA, HpB, HpC.
        cbn [In].
        intros [H|[H|[H|[H|[H|[H|[H|[H|[H|[]]]]]]]]]]; lia. }
      intros [H|[H|H]].
      - assert (Hlt : (id < nextObject h)%nat); [|lia].
        apply Hold. rewrite Hsplit. apply in_or_app. now left.
      - specialize (Hold id H). lia.
      - specialize (Hdis id H). lia. }
    unfold textureHandles. rewrite Eh. cbn [firstn]. unfold disposeCount.
    repeat (apply Forall_cons; [split; [lia|apply Hfresh; lia]|]).
    apply Forall_nil.
Qed.

(* ================================================================== *)
(** * The favicon script *)

Lemma Qdiv_le_elim_r a b c : 0 < c -> a <= b / c -> a * c <= b.
Proof.
  intros Hc H.
  assert (E : b == b / c * c) by (field; lra).
  rewrite E. apply Qmult_le_compat_r; lra.
Qed.

Lemma toFixed_error digits x :
  let d := 0.5 / inject_Z (10 ^ Z.of_nat digits) in
  x - d <= Favicon.toFixed digits x <= x + d
  /\ (0 <= x -> 0 <= Favicon.toFixed digits x).
Proof.
  intro d. unfold Favicon.toFixed. cbv zeta.
  set (p := inject_Z (10 ^ Z.of_nat digits)) in *.
  assert (Hp : 0 < p).
  { subst p. change 0 with (inject_Z 0). rewrite <- Zlt_Qlt.
    apply Z.pow_pos_nonneg; lia. }
  assert (Hround : forall z, 
            z - 0.5 <= inject_Z (Qfloor (z + 0.5)) <= z + 0.5).
  { intro z. pose proof (Qfloor_le (z + 0.5)) as H1.
    pose proof (Qlt_floor (z + 0.5)) as H2.
    rewrite inject_Z_plus in H2. change (inject_Z 1) with 1 in H2.
    split; lra. }
  assert (Hdiv : forall n z, z - 0.5 <= n <= z + 0.5 ->
                             z / p - d <= n / p <= z / p + d).
  { intros n z [Hlo Hhi]. subst d.
    assert (E1 : z / p - 0.5 / p == (z - 0.5) / p) by (field; lra).
    assert (E2 : z / p + 0.5 / p == (z + 0.5) / p) by (field; lra).
    rewrite E1, E2. split; apply Qdiv_le_mono; assumption. }
  qcases x 0.
  - pose proof (Hdiv _ _ (Hround (- x * p))) as [Hlo Hhi].
    assert (Ex : - x * p / p == - x) by (field; lra).
    rewrite Ex in Hlo, Hhi. split; [split; lra|intro; lra].
  - pose proof (Hdiv _ _ (Hround (x * p))) as [Hlo Hhi].
    assert (Ex : x * p / p == x) by (field; lra).
    rewrite Ex in Hlo, Hhi. split; [split; lra|].
    intros _. apply Qle_shift_div_l; [exact Hp|]. rewrite Qmult_0_l.
    change 0 with (inject_Z 0). rewrite <- Zle_Qle.
    assert (H0' : 0 <= x * p + 0.5).
    { assert (0 <= x * p) by (apply Qmult_le_0_compat; lra). lra. }
    change 0%Z with (Qfloor 0). now apply Qfloor_resp_le.
Qed.

(** [scale] is the smaller of the two quotients, and positive. *)
Lemma scale_cases bbox :
  0 < Favicon.width bbox -> 0 < Favicon.height bbox ->
  let T := Favicon.targetSize in
  0 < Favicon.scale bbox
  /\ Favicon.scale bbox <= T / Favicon.width bbox
  /\ Favicon.scale bbox <= T / Favicon.height bbox
  /\ (Favicon.scale bbox == T / Favicon.width bbox
      \/ Favicon.scale bbox == T / Favicon.height bbox).
Proof.
  intros Hw Hh T. unfold Favicon.scale. fold T.
  assert (HT : 0 < T) by reflexivity.
  assert (Pw : 0 < T / Favicon.width bbox) by (apply Qlt_shift_div_l; lra).
  assert (Ph : 0 < T / Favicon.height bbox) by (apply Qlt_shift_div_l; lra).
  destruct (Math_min_spec (T / Favicon.width bbox) (T / Favicon.height bbox))
    as [[Hlt E]|[Hle E]]; rewrite E.
  - split; [exact Ph|]. split; [lra|]. split; [lra|]. right. reflexivity.
  - split; [exact Pw|]. split; [lra|]. split; [lra|]. left. reflexivity.
Qed.

Lemma scale_fits bbox :
  0 < Favicon.width bbox -> 0 < Favicon.height bbox ->
  0 < Favicon.scale bbox
  /\ Favicon.scale bbox * Favicon.width bbox <= Favicon.targetSize
  /\ Favicon.scale bbox * Favicon.height bbox <= Favicon.targetSize.
Proof.
  intros Hw Hh.
  destruct (scale_cases bbox Hw Hh) as (Hs & Sw & Sh & _). cbv zeta in *.
  split; [exact Hs|]. split.
  - apply Qdiv_le_elim_r; assumption.
  - apply Qdiv_le_elim_r; assumption.
Qed.

(** X28.  In exact arithmetic, for a glyph box of positive width and
    height the favicon's scale is positive, makes both extents of the box
    at most the target size of 96 (the 128 view box less a margin of 16
    on each side), and makes one of them exactly 96. *)
Theorem favicon_scale_fits_target :
  forall bbox,
    0 < Favicon.width bbox -> 0 < Favicon.height bbox ->
    let s := Favicon.scale bbox in
    0 < s
    /\ s * Favicon.width bbox <= Favicon.targetSize
    /\ s * Favicon.height bbox <= Favicon.targetSize
    /\ (s * Favicon.width bbox == Favicon.targetSize
        \/ s * Favicon.height bbox == Favicon.targetSize)
    /\ Favicon.targetSize == 96.
Proof.
  intros bbox Hw Hh s. subst s.
  destruct (scale_fits bbox Hw Hh) as (Hs & Fw & Fh).
  destruct (scale_cases bbox Hw Hh) as (_ & _ & _ & Hcase). cbv zeta in Hcase.
  split; [exact Hs|]. split; [exact Fw|]. split; [exact Fh|].
  split; [|reflexivity].
  destruct Hcase as [E|E]; [left|right]; rewrite E; field; lra.
Qed.

(** One axis of the printed transform. *)
Lemma place_axis s lo hi x :
  0 < s -> s * (hi - lo) <= Favicon.targetSize -> lo <= x <= hi ->
  let X := Favicon.toFixed 0 (Favicon.viewBoxSize / 2)
           + Favicon.toFixed 6 s
             * (x + Favicon.toFixed 6 (- ((lo + hi) / 2))) in
  let e := Favicon.halfUlp * (s + (hi - lo) / 2 + Favicon.halfUlp) in
  Favicon.margin - e <= X <= Favicon.viewBoxSize - Favicon.margin + e.
Proof.
  intros Hs Hfit [Hlo Hhi] X e.
  assert (E64 : Favicon.toFixed 0 (Favicon.viewBoxSize / 2) == 64)
    by reflexivity.
  assert (Ed : 0.5 / inject_Z (10 ^ Z.of_nat 6) == 0.0000005) by reflexivity.
  destruct (toFixed_error 6 s) as [[S1 S2] S0]. specialize (S0 (Qlt_le_weak _ _ Hs)).
  destruct (toFixed_error 6 (- ((lo + hi) / 2))) as [[U1 U2] _].
  cbv zeta in S1, S2, U1, U2. rewrite Ed in S1, S2, U1, U2.
  assert (Ec : (lo + hi) / 2 == (lo + hi) * 0.5) by field.
  assert (Ew : (hi - lo) / 2 == (hi - lo) * 0.5) by field.
  subst X e.
  set (s' := Favicon.toFixed 6 s) in *.
  set (u' := Favicon.toFixed 6 (- ((lo + hi) / 2))) in *.
  rewrite Ec in U1, U2. rewrite E64, Ew.
  unfold Favicon.targetSize in Hfit.
  unfold Favicon.halfUlp, Favicon.margin, Favicon.viewBoxSize in *.
  set (A := (hi - lo) * 0.5 + 0.0000005).
  assert (HA : - A <= x + u' <= A) by (subst A; split; lra).
  assert (HA0 : 0 <= A) by lra.
  assert (P1 : 0 <= s' * (A - (x + u')))
    by (apply Qmult_le_0_compat; lra).
  assert (P2 : 0 <= s' * (A + (x + u')))
    by (apply Qmult_le_0_compat; lra).
  assert (P3 : 0 <= (s + 0.0000005 - s') * A)
    by (apply Qmult_le_0_compat; lra).
  subst A. split; lra.
Qed.

(** X29.  Under the transform as the script prints it, scale and
    translation rounded to six decimals, every point of the glyph box
    lands inside the view box less its margins, up to the rounding: by at
    most [halfUlp * (scale + extent / 2 + halfUlp)] beyond them along
    each axis. *)
Theorem favicon_printed_transform_fits :
  forall bbox x y,
    0 < Favicon.width bbox -> 0 < Favicon.height bbox ->
    Favicon.x1 bbox <= x <= Favicon.x2 bbox ->
    Favicon.y1 bbox <= y <= Favicon.y2 bbox ->
    let p := Favicon.place (Favicon.transform bbox) x y in
    let s := Favicon.scale bbox in
    let ex := Favicon.halfUlp
              * (s + Favicon.width bbox / 2 + Favicon.halfUlp) in
    let ey := Favicon.halfUlp
              * (s + Favicon.height bbox / 2 + Favicon.halfUlp) in
    Favicon.margin - ex <= fst p <= Favicon.viewBoxSize - Favicon.margin + ex
    /\ Favicon.margin - ey <= snd p
       <= Favicon.viewBoxSize - Favicon.margin + ey.
Proof.
  intros bbox x y Hw Hh Hx Hy p s ex ey.
  destruct (scale_fits bbox Hw Hh) as (Hs & Fw & Fh).
  fold s in Hs, Fw, Fh.
  split.
  - exact (place_axis s (Favicon.x1 bbox) (Favicon.x2 bbox) x Hs Fw Hx).
  - exact (place_axis s (Favicon.y1 bbox) (Favicon.y2 bbox) y Hs Fh Hy).
Qed.

(* ================================================================== *)
(** * The theorems at work on the footer engine *)

Lemma footerEngine_reachable : reachable blankText footerEngine.
Proof.
  apply (reachable_new blankText smallCanvas footerOptions 0).
  vm_compute. reflexivity.
Qed.

Lemma footerAfter_reachable trace :
  run blankText trace footerEngine <> None ->
  reachable blankText (footerAfter trace).
Proof.
  intro Hr. unfold footerAfter.
  destruct (run blankText trace footerEngine) as [s|] eqn:E; [|congruence].
  exact (reachable_run _ _ _ _ footerEngine_reachable E).
Qed.

Lemma timeline_example_witness :
  totalDuration (config (fst (footerAfter [SetHover true; Tick 200; Frame])))
  == 1.7
  /\ morphProgress (fst (footerAfter [SetHover true; Tick 200; Frame]))
     == 0.2 / 1.7
  /\ selectPhase (uniforms (fst (footerAfter [SetHover true; Tick 200; Frame])))
     = FlipAB.
Proof.
  pose proof (proj2 timeline_example blankText
                (fst (footerAfter [SetHover true; Tick 200; Frame]))
                (snd (footerAfter [SetHover true; Tick 200; Frame]))) as H.
  destruct H as [HT Hrest].
  - rewrite <- surjective_pairing. apply footerAfter_reachable.
    vm_compute. discriminate.
  - vm_compute. reflexivity.
  - vm_compute. reflexivity.
  - vm_compute. reflexivity.
  - vm_compute. reflexivity.
  - destruct Hrest as (Hp & _ & _ & Hphase).
    + vm_compute. reflexivity.
    + auto.
Defined.

Ltac footer_reachable :=
  rewrite <- surjective_pairing;
  first [ exact footerEngine_reachable
        | apply footerAfter_reachable; vm_compute; discriminate ].

Lemma frame_advance_monotone_witness :
  let s := footerAfter [SetHover true; Tick 200] in
  let s' := footerAfter [SetHover true; Tick 200; Frame] in
  totalElapsedTime (fst s) <= totalElapsedTime (fst s')
  /\ morphProgress (fst s) <= morphProgress (fst s')
  /\ 0 <= morphProgress (fst s') <= 1.
Proof.
  intros s s'.
  destruct (frame_advance_monotone blankText (fst s) (snd s) (fst s') (snd s'))
    as (Hup & _ & _ & Hbound & _).
  - footer_reachable.
  - vm_compute. discriminate.
  - vm_compute. reflexivity.
  - destruct Hup as [He Hp]; [vm_compute; reflexivity|].
    exact (conj He (conj Hp Hbound)).
Defined.

Lemma presence_iff_ink_in_scanned_rect_witness :
  nth 2 (IEEE.presenceData threeTiles fivePixelCanvas) 0%N = 255%N.
Proof.
  refine (proj2 (proj1 (presence_iff_ink_in_scanned_rect
                          threeTiles fivePixelCanvas 2 0 _ _ _ _ _ _ _)) _).
  1-7: vm_compute; repeat split; try discriminate; reflexivity.
  exists 3%Z, 0%Z. split; [|vm_compute; discriminate].
  exists 3%Z, 5%Z, 0%Z, 1%Z. vm_compute. repeat split; discriminate.
Defined.

Lemma flip_schedule_witness :
  let this := fst (footerAfter [SetHover true; Tick 200; Frame]) in
  let u := uniforms this in
  let r := noiseAt flatSin u centre in
  let p := spec_phaseLocal (totalDuration (config this))
             (initialWaitDuration (config this))
             (allTilesFlipDuration (config this)) (morphProgress this) in
  0 <= r < 1 /\ 0 <= p <= 1
  /\ vec4_eq (main flatSin clearTexture clearData 0 u centre)
       (spec_finalColor (allTilesFlipDuration (config this))
          (singleTileFlipDuration (config this))
          (invertThreshold (config this)) r p
          (clearTexture (uTexA u) centre) (clearTexture (uTexB u) centre)
          (cr (clearData (uPresenceA u) (presenceUVAt u centre)))
          (cr (clearData (uPresenceB u) (presenceUVAt u centre)))).
Proof.
  intros this u r p.
  destruct (flip_schedule blankText this
              (snd (footerAfter [SetHover true; Tick 200; Frame]))
              flatSin clearTexture clearData 0 centre)
    as (Hr & HAB & _).
  - unfold this. footer_reachable.
  - vm_compute. reflexivity.
  - destruct HAB as [Hp Hc]; [vm_compute; reflexivity|].
    exact (conj Hr (conj Hp Hc)).
Defined.

Lemma no_invert_without_ink_witness :
  let u := uniforms (fst (footerAfter [SetHover true; Tick 200; Frame])) in
  invertBranchTaken flatSin clearTexture clearData 0 u centre = false.
Proof.
  intro u.
  destruct (proj1 (no_invert_without_ink flatSin clearTexture clearData 0
                     u centre)) as (_ & Hb & _).
  - vm_compute. reflexivity.
  - reflexivity.
  - reflexivity.
  - exact Hb.
Defined.

Lemma tiles_need_tileDimensions_undefined_witness :
  constructor blankText smallCanvas tilesOnlyOptions (newHost 0)
  = (Throw BothTilesAndTileDimensions, newHost 0).
Proof.
  destruct (proj1 (tiles_need_tileDimensions_undefined blankText smallCanvas
                     tilesOnlyOptions (newHost 0) {| tcx := 4; tcy := 4 |}
                     eq_refl) eq_refl) as (e & Hc & He).
  rewrite He in Hc; [exact Hc|].
  vm_compute. reflexivity.
Defined.

Lemma resize_burst_coalesces_witness :
  let trace := [Tick 50; Resize 32 32; Tick 100; Frame; Tick 160; Timeout 2] in
  let s1 := footerAfter (Resize 10 10 :: trace) in
  rendererSize (renderer (fst s1)) = {| dx := 32; dy := 32 |}
  /\ regenerations trace = 1%nat
  /\ pendingTimers (snd s1) = []
  /\ nextObject (snd s1) = (nextObject (snd footerEngine) + 6)%nat
  /\ this_tiles (fst s1) = {| tcx := 4; tcy := 4 |}.
Proof.
  intros trace s1.
  destruct (resize_burst_coalesces blankText (fst footerEngine)
              (snd footerEngine) 10 10 trace (fst s1) (snd s1))
    as (Hsize & _ & _ & _ & Hone & _).
  - footer_reachable.
  - vm_compute. reflexivity.
  - vm_compute. repeat split.
  - destruct Hone as (Hpt & Hno & Hreg); [reflexivity|].
    destruct Hreg as (_ & _ & _ & _ & _ & _ & Hgrid & _).
    repeat split; trivial.
Defined.

Lemma destroy_releases_everything_witness :
  let s := footerAfter [Resize 10 10] in
  let h' := snd (destroy (fst s) (snd s)) in
  pendingFrame h' = None /\ pendingTimers h' = []
  /\ Forall (fun id => disposeCount h' id = 1%nat) (handles (fst s)).
Proof.
  intros s h'.
  destruct (destroy_releases_everything blankText (fst s) (snd s))
    as (Hpf & Hpt & _ & _ & _ & Hcount & _).
  - footer_reachable.
  - repeat split; trivial.
    eapply Forall_impl; [|exact Hcount]. intros id H. exact (proj2 H).
Defined.

Lemma idle_until_first_hover_witness :
  let s := footerAfter [Tick 16; Frame; Tick 32; Frame] in
  let s' := footerAfter [Tick 16; Frame; Tick 32; Frame;
                         SetHover false; Tick 48; Frame] in
  (direction (fst s) = 0%Z /\ totalElapsedTime (fst s) = 0
   /\ morphProgress (fst s) = 0 /\ uMorphProgress (uniforms (fst s)) = 0)
  /\ vec4_eq (main flatSin clearTexture clearData 0 (uniforms (fst s)) centre)
             (clearTexture (uTexA (uniforms (fst s))) centre)
  /\ direction (setHover (fst s) false) = (-1)%Z
  /\ direction (fst s') = (-1)%Z /\ morphProgress (fst s') == 0.
Proof.
  intros s s'.
  destruct (idle_until_first_hover blankText smallCanvas footerOptions 0
              (fst footerEngine) (snd footerEngine))
    with (trace := [Tick 16; Frame; Tick 32; Frame])
         (this := fst s) (h := snd s)
    as (Hidle & Hrender & Hleave & Hpinned).
  - vm_compute. reflexivity.
  - intros hover Hin. cbn [In] in Hin.
    repeat (destruct Hin as [Hin|Hin]; [discriminate|]). exact Hin.
  - vm_compute. reflexivity.
  - destruct Hpinned with (trace' := [Tick 48; Frame])
                          (this' := fst s') (h' := snd s')
      as (Hd & _ & Hp & _).
    + vm_compute. discriminate.
    + intro Hin. cbn [In] in Hin.
      repeat (destruct Hin as [Hin|Hin]; [discriminate|]). exact Hin.
    + vm_compute. reflexivity.
    + split; [exact Hidle|].
      split; [|split; [exact Hleave|split; [exact Hd|exact Hp]]].
      apply Hrender.
      * vm_compute. discriminate.
      * vm_compute. reflexivity.
Defined.

Lemma constructor_throws_iff_rejected_witness :
  config (fst (footerAfter [Resize 10 10; Tick 200; Timeout 1]))
  = config (fst (footerAfter [Resize 10 10; Tick 200]))
  /\ ~ rejected (config (fst (footerAfter [Resize 10 10; Tick 200;
                                           Timeout 1]))).
Proof.
  apply (proj2 constructor_throws_iff_rejected blankText (Timeout 1)
           (fst (footerAfter [Resize 10 10; Tick 200]))
           (snd (footerAfter [Resize 10 10; Tick 200]))
           (fst (footerAfter [Resize 10 10; Tick 200; Timeout 1]))
           (snd (footerAfter [Resize 10 10; Tick 200; Timeout 1]))).
  - rewrite <- surjective_pairing. apply footerAfter_reachable.
    vm_compute. discriminate.
  - vm_compute. reflexivity.
Defined.

(* ================================================================== *)
(** * The further properties at work *)

Lemma tilesEngine_reachable : reachable blankText tilesEngine.
Proof.
  apply (reachable_new blankText smallCanvas explicitTilesOptions 0).
  vm_compute. reflexivity.
Qed.

Lemma negativeEngine_reachable : reachable blankText negativeEngine.
Proof.
  apply (reachable_new blankText smallCanvas negativeWaitOptions 0).
  vm_compute. reflexivity.
Qed.

Lemma hold_phases_show_text_witness :
  let u := uniforms (fst footerEngine) in
  invertBranchTaken flatSin clearTexture clearData 0 u centre = false
  /\ vec4_eq (main flatSin clearTexture clearData 0 u centre)
             (clearTexture (uTexA u) centre).
Proof.
  intro u.
  destruct (hold_phases_show_text flatSin clearTexture clearData 0 u centre)
    as (HA & _ & _).
  - vm_compute. discriminate.
  - apply HA. vm_compute. reflexivity.
Defined.

Lemma tile_flips_inside_its_window_witness :
  let u := uniforms (fst (footerAfter [SetHover true; Tick 300; Frame])) in
  flipWindowEnd u (noiseAt flatSin u centre) <= 1
  /\ vec4_eq (main flatSin clearTexture clearData 0 u centre)
             (clearTexture (uTexB u) centre).
Proof.
  intro u.
  destruct (tile_flips_inside_its_window flatSin clearTexture clearData 0
              u centre) as ((_ & _ & Hend) & HAB & _).
  - vm_compute. reflexivity.
  - vm_compute. split; [reflexivity|discriminate].
  - split; [exact Hend|].
    destruct HAB as [_ Hdone]; [vm_compute; reflexivity|].
    apply Hdone. vm_compute. discriminate.
Defined.

Lemma invert_only_mid_flip_witness :
  let u := uniforms (fst (footerAfter [SetHover true; Tick 300; Frame])) in
  selectPhase u = FlipAB \/ selectPhase u = FlipBC.
Proof.
  intro u.
  destruct (invert_only_mid_flip flatSin clearTexture inkData 0 u centre)
    as (Hphase & _).
  - vm_compute. reflexivity.
  - vm_compute. split; [reflexivity|discriminate].
  - intros t uv. vm_compute. split; discriminate.
  - vm_compute. reflexivity.
  - exact Hphase.
Defined.

Lemma invertThreshold_extremes_witness :
  let u := uniforms (fst (footerAfter [SetHover true; Tick 300; Frame])) in
  let l := locals flatSin clearTexture inkData 0 u centre in
  invertAt flatSin clearTexture inkData 0 u centre
  == flipProgress l * Math_max (hasTextSource l) (hasTextTarget l).
Proof.
  intros u l.
  destruct (invertThreshold_extremes flatSin clearTexture inkData 0 u centre)
    as (_ & Hzero).
  - vm_compute. discriminate.
  - vm_compute. split; [reflexivity|discriminate].
  - apply Hzero. vm_compute. reflexivity.
Defined.

Lemma output_color_in_range_witness :
  let u := uniforms (fst (footerAfter [SetHover true; Tick 300; Frame])) in
  unitColor (main flatSin clearTexture inkData 0 u centre).
Proof.
  intro u.
  apply (output_color_in_range flatSin clearTexture inkData 0 u centre).
  - vm_compute. reflexivity.
  - vm_compute. split; [reflexivity|discriminate].
  - intros t uv. vm_compute. repeat split; discriminate.
Defined.

Lemma presence_lookup_hits_own_tile_witness :
  let u := uniforms (fst footerEngine) in
  Qfloor (vx (presenceUVAt u centre) * inject_Z (tcx (uTiles u))) = 1%Z
  /\ Qfloor (vy (presenceUVAt u centre) * inject_Z (tcy (uTiles u))) = 1%Z.
Proof.
  intro u.
  destruct (presence_lookup_hits_own_tile u centre)
    as (_ & _ & _ & _ & _ & Hx & Hy).
  - vm_compute. discriminate.
  - vm_compute. discriminate.
  - vm_compute. split; [discriminate|reflexivity].
  - vm_compute. split; [discriminate|reflexivity].
  - exact (conj Hx Hy).
Defined.

Lemma flip_progress_monotone_witness :
  let u := uniforms (fst footerEngine) in
  tileFlipProgress u 0.5 0.25 <= tileFlipProgress u 0.5 0.5
  /\ tileFlipProgress u 0.75 0.5 <= tileFlipProgress u 0.5 0.5.
Proof.
  intro u.
  destruct (flip_progress_monotone u 0.5 0.75 0.25 0.5) as (Hp & _ & _).
  - vm_compute. split; [reflexivity|discriminate].
  - destruct (flip_progress_monotone u 0.5 0.75 0.5 0.5) as (_ & Hr & _).
    + vm_compute. split; [reflexivity|discriminate].
    + split; [apply Hp|apply Hr]; vm_compute; discriminate.
Defined.

Lemma phase_never_goes_back_witness :
  let u := uniforms (fst footerEngine) in
  (phaseIndex (selectPhase (withProgress u 0.25))
   <= phaseIndex (selectPhase (withProgress u 0.75)))%nat.
Proof.
  intro u. apply (phase_never_goes_back u 0.25 0.75).
  - vm_compute. discriminate.
  - vm_compute. discriminate.
Defined.

Lemma direction_follows_last_setHover_witness :
  direction (fst (footerAfter [SetHover true; Tick 200; Frame;
                               SetHover false]))
  = lastHover 0 [SetHover true; Tick 200; Frame; SetHover false].
Proof.
  destruct (direction_follows_last_setHover blankText
              [SetHover true; Tick 200; Frame; SetHover false]
              (fst footerEngine) (snd footerEngine)
              (fst (footerAfter [SetHover true; Tick 200; Frame;
                                 SetHover false]))
              (snd (footerAfter [SetHover true; Tick 200; Frame;
                                 SetHover false]))) as (Hlast & _).
  - vm_compute. reflexivity.
  - exact Hlast.
Defined.

Lemma uTime_counts_frames_witness :
  let s := footerAfter [Tick 16; Frame; Tick 32; Frame] in
  drawCalls (snd s) = 3%nat
  /\ uTime (uniforms (fst s)) == 0.016 * inject_Z (Z.of_nat 3).
Proof.
  intro s.
  destruct (uTime_counts_frames blankText smallCanvas footerOptions 0
              (fst footerEngine) (snd footerEngine)
              [Tick 16; Frame; Tick 32; Frame] (fst s) (snd s))
    as (Hd & _ & Hu).
  - vm_compute. reflexivity.
  - vm_compute. reflexivity.
  - exact (conj Hd Hu).
Defined.

Lemma textures_and_masks_stay_coherent_witness :
  let this := fst (footerAfter [Resize 32 32; Tick 100; Timeout 1]) in
  this_tiles this = uTiles (uniforms this)
  /\ List.length (data (uPresenceA (uniforms this)))
     = Z.to_nat (tcx (uTiles (uniforms this)) * tcy (uTiles (uniforms this))).
Proof.
  intro this.
  destruct (textures_and_masks_stay_coherent blankText this
              (snd (footerAfter [Resize 32 32; Tick 100; Timeout 1])))
    as (w & h & _ & Ht & HA & _).
  - unfold this. footer_reachable.
  - exact (conj Ht HA).
Defined.

Lemma explicit_tiles_never_change_witness :
  let this := fst tilesEngine in
  this_tiles this = {| tcx := 4; tcy := 4 |}
  /\ useTileDimensions this = false.
Proof.
  intro this.
  destruct (explicit_tiles_never_change blankText this (snd tilesEngine))
    as (Hexplicit & _).
  - unfold this. rewrite <- surjective_pairing. exact tilesEngine_reachable.
  - destruct (Hexplicit {| tcx := 4; tcy := 4 |}) as (Ht & _ & Hm).
    + vm_compute. reflexivity.
    + exact (conj Ht Hm).
Defined.

Lemma gpu_objects_never_leak_witness :
  let s := footerAfter [Resize 32 32; Tick 100; Timeout 1] in
  NoDup (disposed (snd s))
  /\ ((In 3%nat (handles (fst s)) /\ disposeCount (snd s) 3 = 0%nat)
      \/ (~ In 3%nat (handles (fst s)) /\ disposeCount (snd s) 3 = 1%nat)).
Proof.
  intro s.
  destruct (gpu_objects_never_leak blankText (fst s) (snd s))
    as (_ & Hnd & Hall).
  - footer_reachable.
  - split; [exact Hnd|]. apply Hall. vm_compute. lia.
Defined.

Lemma hover_long_enough_shows_text_C_witness :
  let this := fst (footerAfter [SetHover true; Tick 2000; Frame]) in
  morphProgress this == 1
  /\ vec4_eq (main flatSin clearTexture clearData 0 (uniforms this) centre)
             (clearTexture (uTexC (uniforms this)) centre).
Proof.
  intro this.
  destruct (hover_long_enough_shows_text_C blankText
              (fst footerEngine) (snd footerEngine) 2000 this
              (snd (footerAfter [SetHover true; Tick 2000; Frame])))
    as (_ & Hp & Hc).
  - footer_reachable.
  - vm_compute. reflexivity.
  - vm_compute. discriminate.
  - vm_compute. discriminate.
  - vm_compute. reflexivity.
  - vm_compute. discriminate.
  - exact (conj Hp (Hc flatSin clearTexture clearData 0 centre)).
Defined.

Lemma unhover_long_enough_shows_text_A_witness :
  let s := footerAfter [SetHover true; Tick 300; Frame] in
  let this := fst (footerAfter [SetHover true; Tick 300; Frame;
                                SetHover false; Tick 700; Frame]) in
  morphProgress this == 0
  /\ vec4_eq (main flatSin clearTexture clearData 0 (uniforms this) centre)
             (clearTexture (uTexA (uniforms this)) centre).
Proof.
  intros s this.
  destruct (unhover_long_enough_shows_text_A blankText
              (fst s) (snd s) 700 this
              (snd (footerAfter [SetHover true; Tick 300; Frame;
                                 SetHover false; Tick 700; Frame])))
    as (_ & Hp & Hc).
  - footer_reachable.
  - vm_compute. reflexivity.
  - vm_compute. discriminate.
  - vm_compute. reflexivity.
  - vm_compute. discriminate.
  - exact (conj Hp (Hc flatSin clearTexture clearData 0 centre)).
Defined.

Lemma reversal_retraces_the_timeline_witness :
  let s := footerAfter [SetHover true; Tick 300; Frame] in
  let this := fst (footerAfter [SetHover true; Tick 300; Frame;
                                SetHover true; Tick 800; Frame;
                                SetHover false; Tick 1300; Frame]) in
  totalElapsedTime this == totalElapsedTime (fst s)
  /\ morphProgress this == morphProgress (fst s).
Proof.
  intros s this.
  destruct (reversal_retraces_the_timeline blankText (fst s) (snd s)
              800 1300 this
              (snd (footerAfter [SetHover true; Tick 300; Frame;
                                 SetHover true; Tick 800; Frame;
                                 SetHover false; Tick 1300; Frame])))
    as (_ & Hback).
  - footer_reachable.
  - vm_compute. reflexivity.
  - vm_compute. reflexivity.
  - vm_compute. discriminate.
  - apply Hback. vm_compute. reflexivity.
Defined.

Lemma negative_total_never_animates_witness :
  validateConfig (config (fst negativeEngine)) = Ok tt
  /\ totalElapsedTime (fst negativeEngine) == 0.
Proof.
  destruct (negative_total_never_animates blankText (fst negativeEngine)
              (snd negativeEngine)) as (Hv & He & _).
  - rewrite <- surjective_pairing. exact negativeEngine_reachable.
  - vm_compute. reflexivity.
  - exact (conj Hv He).
Defined.

Lemma ink_marks_some_tile_witness :
  exists tileX tileY,
    inScannedRect threeTiles fivePixelCanvas tileX tileY 3 0
    /\ nth (Z.to_nat (tileY * 3 + tileX))
           (presenceData threeTiles fivePixelCanvas) 0%N = 255%N.
Proof.
  destruct (ink_marks_some_tile threeTiles fivePixelCanvas 3 0)
    as (tileX & tileY & _ & _ & Hin & Hv).
  - vm_compute. discriminate.
  - vm_compute. discriminate.
  - vm_compute. split; [discriminate|reflexivity].
  - vm_compute. split; [discriminate|reflexivity].
  - vm_compute. discriminate.
  - exists tileX, tileY. exact (conj Hin Hv).
Defined.

Lemma every_tile_scans_a_pixel_witness :
  exists x y, inScannedRect threeTiles fivePixelCanvas 1 0 x y.
Proof.
  destruct (every_tile_scans_a_pixel threeTiles fivePixelCanvas 1 0)
    as ((x & y & Hin & _) & _).
  - vm_compute. discriminate.
  - vm_compute. discriminate.
  - vm_compute. discriminate.
  - vm_compute. discriminate.
  - vm_compute. split; [discriminate|reflexivity].
  - vm_compute. split; [discriminate|reflexivity].
  - exists x, y. exact Hin.
Defined.

Lemma calculateTiles_fits_whole_tiles_witness :
  let grid := calculateTiles (mergeOptions footerOptions) 20 4 in
  inject_Z (tcx grid) * 8 <= 20 /\ tcy grid = 1%Z.
Proof.
  intro grid.
  destruct (calculateTiles_fits_whole_tiles (mergeOptions footerOptions)
              DEFAULTS.tileDimensions 20 4)
    as ((_ & _ & Hx) & (_ & Hy & _)).
  - reflexivity.
  - reflexivity.
  - vm_compute. reflexivity.
  - vm_compute. reflexivity.
  - vm_compute. discriminate.
  - vm_compute. discriminate.
  - split.
    + apply Hx. vm_compute. discriminate.
    + apply Hy. vm_compute. reflexivity.
Defined.

Lemma getFontSize_is_clamped_witness :
  getFontSize 1000 == 1000 * 0.04375 /\ getFontSize 100 == 24.
Proof.
  destruct (getFontSize_is_clamped 1000 1000) as (_ & _ & Hmid & _).
  destruct (getFontSize_is_clamped 100 100) as (_ & Hlow & _).
  split.
  - apply Hmid. vm_compute. split; discriminate.
  - apply Hlow. vm_compute. discriminate.
Defined.

Lemma phase_of_elapsed_time_witness :
  let this := fst (footerAfter [SetHover true; Tick 300; Frame]) in
  selectPhase (uniforms this) = phaseAt (config this) (totalElapsedTime this).
Proof.
  intro this.
  apply (phase_of_elapsed_time blankText this
           (snd (footerAfter [SetHover true; Tick 300; Frame]))).
  - unfold this. footer_reachable.
  - vm_compute. reflexivity.
Defined.

Lemma pixels_of_a_cell_flip_together_witness :
  let u := uniforms (fst (footerAfter [SetHover true; Tick 300; Frame])) in
  noiseAt flatSin u centre = noiseAt flatSin u {| vx := 0.75; vy := 0.9 |}
  /\ invertBranchTaken flatSin clearTexture inkData 0 u centre
     = invertBranchTaken flatSin clearTexture inkData 0 u
         {| vx := 0.75; vy := 0.9 |}.
Proof.
  intro u.
  destruct (pixels_of_a_cell_flip_together flatSin clearTexture inkData 0 u
              1 1 centre {| vx := 0.75; vy := 0.9 |})
    as (Hn & _ & _ & _ & _ & Hb).
  1-2: vm_compute; discriminate.
  1-4: vm_compute; split; [discriminate|reflexivity].
  exact (conj Hn Hb).
Defined.

Lemma construction_effects_witness :
  nextObject (snd footerEngine) = 9%nat
  /\ drawCalls (snd footerEngine) = 1%nat
  /\ pendingFrame (snd footerEngine) = Some 1%nat.
Proof.
  destruct (construction_effects blankText smallCanvas footerOptions
              (newHost 0) (fst footerEngine) (snd footerEngine))
    as (_ & _ & Hn & _ & Hd & Hp & _).
  - vm_compute. reflexivity.
  - exact (conj Hn (conj Hd Hp)).
Defined.

Lemma frame_callback_rearms_loop_witness :
  exists this' h',
    exec blankText Frame footerEngine = Some (this', h')
    /\ pendingFrame h' = Some (nextFrame (snd footerEngine)).
Proof.
  destruct (frame_callback_rearms_loop blankText (fst footerEngine)
              (snd footerEngine)) as (this' & h' & He & Hp & _).
  - footer_reachable.
  - exists this', h'. split; [|exact Hp].
    rewrite (surjective_pairing footerEngine). exact He.
Defined.

Lemma resize_after_destroy_regenerates_witness :
  let h1 := snd (destroy (fst footerEngine) (snd footerEngine)) in
  exists t,
    pendingTimers (snd (resize (fst footerEngine) 32 32 h1)) = [t]
    /\ timerWidth t = 32.
Proof.
  intro h1.
  destruct (resize_after_destroy_regenerates blankText (fst footerEngine)
              (snd footerEngine) 32 32) as (t & Ht & Hw & _).
  - footer_reachable.
  - exists t. exact (conj Ht Hw).
Defined.

Lemma favicon_scale_fits_target_witness :
  Favicon.scale tallBox * Favicon.height tallBox == Favicon.targetSize
  \/ Favicon.scale tallBox * Favicon.width tallBox == Favicon.targetSize.
Proof.
  destruct (favicon_scale_fits_target tallBox) as (_ & _ & _ & Hcase & _).
  - vm_compute. reflexivity.
  - vm_compute. reflexivity.
  - destruct Hcase as [H|H]; [right|left]; exact H.
Defined.

Lemma favicon_printed_transform_fits_witness :
  let p := Favicon.place (Favicon.transform tallBox) 11 5 in
  fst p <= Favicon.viewBoxSize - Favicon.margin
           + Favicon.halfUlp
             * (Favicon.scale tallBox + Favicon.width tallBox / 2
                + Favicon.halfUlp).
Proof.
  intro p.
  destruct (favicon_printed_transform_fits tallBox 11 5) as ((_ & Hx) & _).
  - vm_compute. reflexivity.
  - vm_compute. reflexivity.
  - vm_compute. split; discriminate.
  - vm_compute. split; discriminate.
  - exact Hx.
Defined.
